(** * Matchmaking server: queue, packet validation, lobby relay, worker mesh

    A shallow embedding of the server-side TypeScript sources
    ([validation.ts], [ping.ts], [index.ts], [workers-mesh.ts]) and the
    properties checked against them.

    Conventions of the embedding.
    - Millisecond timestamps, sequence numbers and ping samples are
      integer-valued JavaScript numbers and are modelled as [Z]. Where the
      code adds or subtracts sequence numbers or ping samples, or divides
      a sum of samples, the binary64 rounding of the result is written
      out (module [Double]): beyond 2^53 the code does not compute the
      exact sum, difference or quotient.
    - Coordinates, velocities and worker load figures are genuinely
      fractional JavaScript numbers; they are IEEE-754 binary64 values and
      are modelled by Rocq's primitive [float], whose operations round
      exactly as JavaScript's do.
    - A JavaScript [Map] that is iterated is an insertion-ordered list of
      entries with distinct keys; a [Map] that is only looked up, set and
      deleted is a [gmap].
    - [Date.now()] is an explicit argument. All reads inside one call of
      [validatePacket] return the same value; the mesh handlers, which
      await storage between their two reads, take two values.
    - Messages written to a socket and calls to [close] are collected in
      an event list, in program order. *)

From Stdlib Require Import ZArith QArith Qround Qabs Lia Lqa.
From Stdlib Require Import Floats.PrimFloat.
From Stdlib Require Uint63.
From stdpp Require Import base list gmap strings sorting.

Local Open Scope Z_scope.

(** ** Integer-valued JavaScript numbers

    A JavaScript number is an IEEE-754 binary64 value. An integer-valued
    one is kept as the integer it denotes, and the result of an operation
    is the exact result rounded to 53 significant bits, ties to the even
    significand, as the hardware does. Infinities and subnormals are
    outside this model: it is exact for results of magnitude between
    2^-1022 and 2^1023. *)

Module Double.

(** [Number.MAX_SAFE_INTEGER] and [Number.isSafeInteger]. *)
Definition MAX_SAFE_INTEGER : Z := 2 ^ 53 - 1.

Definition isSafeInteger (n : Z) : Prop := - MAX_SAFE_INTEGER ≤ n ≤ MAX_SAFE_INTEGER.

#[global] Instance isSafeInteger_dec (n : Z) : Decision (isSafeInteger n).
Proof. unfold isSafeInteger. apply _. Defined.

(** The integer nearest to [num / den], for [den > 0]; of two equally
    near integers the even one. *)
Definition nearestEven (num den : Z) : Z :=
  let q := num / den in
  let r := num mod den in
  match 2 * r ?= den with
  | Lt => q
  | Gt => q + 1
  | Eq => if Z.even q then q else q + 1
  end.

(** The binary exponent of [num / den]: the [e] with
    [2^e <= |num / den| < 2^(e+1)], for [num <> 0] and [den > 0]. *)
Definition exponent (num den : Z) : Z :=
  let e := Z.log2 (Z.abs num) - Z.log2 den in
  if Z.abs num * 2 ^ Z.max 0 (- e) <? den * 2 ^ Z.max 0 e then e - 1 else e.

(** The binary64 value nearest to the rational [q]: with [e] the exponent
    of the last place of a 53-bit significand, the nearest multiple of
    [2^e]. *)
Definition round (q : Q) : Q :=
  let num := Qnum q in
  let den := Z.pos (Qden q) in
  if num =? 0 then 0%Q
  else
    let e := exponent num den - 52 in
    let m := nearestEven (num * 2 ^ Z.max 0 (- e)) (den * 2 ^ Z.max 0 e) in
    Qmake (m * 2 ^ Z.max 0 e) (Z.to_pos (2 ^ Z.max 0 (- e))).

(** [a + b] and [a - b] on integer-valued numbers; the rounded result is
    an integer again. *)
Definition add (a b : Z) : Z := Qfloor (round (inject_Z (a + b))).

Definition sub (a b : Z) : Z := Qfloor (round (inject_Z (a - b))).

(** [a / b] for a divisor [b > 0]. *)
Definition div (a b : Z) : Q := round (inject_Z a / inject_Z b).

(** The primitive binary64 value of an integer of magnitude below 2^63
    and of a rational with such numerator and denominator; they serve to
    compare the operations above with the machine's. *)
Definition toFloat (n : Z) : float :=
  if n <? 0 then PrimFloat.opp (PrimFloat.of_uint63 (Uint63.of_Z (- n)))
  else PrimFloat.of_uint63 (Uint63.of_Z n).

Definition QtoFloat (q : Q) : float :=
  PrimFloat.div (toFloat (Qnum q)) (toFloat (Z.pos (Qden q))).

End Double.

(** ** Packet validation ([validation.ts]) *)

Module Validation.

Definition MAX_SPEED : float := 20%float.
Definition MAX_POSITION_CHANGE : float := 50%float.
Definition MIN_SHOOT_INTERVAL : Z := 50.
Definition MAX_SEQUENCE_GAP : Z := 10.
Definition POSITION_HISTORY_SIZE : nat := 20.

Inductive Severity := Warning | Violation | Ban.

#[global] Instance Severity_eq_dec : EqDecision Severity.
Proof. solve_decision. Defined.

Record PositionData := {
  x : float; y : float; z : float;
  velocityX : float; velocityY : float; velocityZ : float;
  lookX : float; lookY : float; lookZ : float }.

Record ShootData := {
  originX : float; originY : float; originZ : float;
  directionX : float; directionY : float; directionZ : float;
  weaponId : string }.

Record ActionData := { action : string; targetId : option string }.

(** The [type] tag of a packet together with its [data]; the tag fixes
    the shape of the payload. *)
Inductive PacketData :=
| position (d : PositionData)
| shoot (d : ShootData)
| action_ (d : ActionData).

Record GamePacket := {
  playerId : string;
  timestamp : Z;
  sequence : Z;
  data : PacketData;
  signature : option string }.

(** The human-readable [details] / [reason] strings are template strings;
    they are kept as the template (constructor) and the values spliced
    into it. *)
Inductive Detail :=
| FutureTimestamp (packetTimestamp : Z)
| ReplayAttack (packetTimestamp lastTs : Z)
| SequenceGap (expectedSequence got : Z)
| Teleport (distance : float)
| SpeedHack (velocityMagnitude : float)
| RapidFire (timeSinceLastShot : Z)
| InvalidDirection (dirMagnitude : float)
| PositionMismatch (originDistance : float)
| DuplicateOrOutOfOrder.

Record ValidationViolation := {
  v_type : string;
  v_severity : Severity;
  v_timestamp : Z;
  v_details : Detail }.

Record ValidationResult := {
  valid : bool;
  reason : option Detail;
  severity : option Severity }.

Record PlayerValidationState := {
  lastPosition : option PositionData;
  lastShootTime : Z;
  lastSequence : Z;
  lastTimestamp : Z;
  positionHistory : list PositionData;
  violations : list ValidationViolation;
  warningCount : Z }.

Definition initialState : PlayerValidationState :=
  {| lastPosition := None; lastShootTime := 0; lastSequence := -1;
     lastTimestamp := 0; positionHistory := []; violations := [];
     warningCount := 0 |}.

(** Field assignments [state.f = v]. *)
Definition set_lastPosition (p : option PositionData) (s : PlayerValidationState) :=
  {| lastPosition := p; lastShootTime := lastShootTime s;
     lastSequence := lastSequence s; lastTimestamp := lastTimestamp s;
     positionHistory := positionHistory s; violations := violations s;
     warningCount := warningCount s |}.

Definition set_lastShootTime (t : Z) (s : PlayerValidationState) :=
  {| lastPosition := lastPosition s; lastShootTime := t;
     lastSequence := lastSequence s; lastTimestamp := lastTimestamp s;
     positionHistory := positionHistory s; violations := violations s;
     warningCount := warningCount s |}.

Definition set_lastSequence (n : Z) (s : PlayerValidationState) :=
  {| lastPosition := lastPosition s; lastShootTime := lastShootTime s;
     lastSequence := n; lastTimestamp := lastTimestamp s;
     positionHistory := positionHistory s; violations := violations s;
     warningCount := warningCount s |}.

Definition set_lastTimestamp (t : Z) (s : PlayerValidationState) :=
  {| lastPosition := lastPosition s; lastShootTime := lastShootTime s;
     lastSequence := lastSequence s; lastTimestamp := t;
     positionHistory := positionHistory s; violations := violations s;
     warningCount := warningCount s |}.

Definition set_positionHistory (h : list PositionData) (s : PlayerValidationState) :=
  {| lastPosition := lastPosition s; lastShootTime := lastShootTime s;
     lastSequence := lastSequence s; lastTimestamp := lastTimestamp s;
     positionHistory := h; violations := violations s;
     warningCount := warningCount s |}.

Definition set_violations (l : list ValidationViolation) (s : PlayerValidationState) :=
  {| lastPosition := lastPosition s; lastShootTime := lastShootTime s;
     lastSequence := lastSequence s; lastTimestamp := lastTimestamp s;
     positionHistory := positionHistory s; violations := l;
     warningCount := warningCount s |}.

Definition ok : ValidationResult :=
  {| valid := true; reason := None; severity := None |}.

(** The log entries newer than five minutes before [now]. *)
Definition recent (now : Z) (log : list ValidationViolation) : list ValidationViolation :=
  filter (λ v, now - 5 * 60 * 1000 < v_timestamp v) log.

Definition countSeverity (s : Severity) (log : list ValidationViolation) : nat :=
  length (filter (λ v, v_severity v = s) log).

(** [recordViolation]: push, prune to the trailing five minutes, count,
    decide. *)
Definition recordViolation (now : Z) (state : PlayerValidationState)
    (violation : ValidationViolation) : PlayerValidationState * ValidationResult :=
  let state := set_violations (recent now (violations state ++ [violation])) state in
  let violationCount := countSeverity Violation (violations state) in
  let warningCount := countSeverity Warning (violations state) in
  let details := Some (v_details violation) in
  if (5 <=? violationCount)%nat then
    (state, {| valid := false; reason := details; severity := Some Ban |})
  else if (3 <=? violationCount)%nat then
    (state, {| valid := false; reason := details; severity := Some Violation |})
  else if (10 <=? warningCount)%nat then
    (state, {| valid := false; reason := details; severity := Some Violation |})
  else
    (state, {| valid := true; reason := details; severity := Some Warning |}).

Definition validateTimestamp (now : Z) (packet : GamePacket)
    (state : PlayerValidationState) : PlayerValidationState * ValidationResult :=
  if now + 5000 <? timestamp packet then
    recordViolation now state
      {| v_type := "future_timestamp"; v_severity := Violation; v_timestamp := now;
         v_details := FutureTimestamp (timestamp packet) |}
  else if timestamp packet <? lastTimestamp state - 1000 then
    recordViolation now state
      {| v_type := "replay_attack"; v_severity := Violation; v_timestamp := now;
         v_details := ReplayAttack (timestamp packet) (lastTimestamp state) |}
  else (set_lastTimestamp (timestamp packet) state, ok).

Definition validateSequence (now : Z) (packet : GamePacket)
    (state : PlayerValidationState) : PlayerValidationState * ValidationResult :=
  if lastSequence state =? -1 then
    (set_lastSequence (sequence packet) state, ok)
  else
    let expectedSequence := Double.add (lastSequence state) 1 in
    let gap := Double.sub (sequence packet) expectedSequence in
    if MAX_SEQUENCE_GAP <? gap then
      recordViolation now state
        {| v_type := "sequence_gap"; v_severity := Warning; v_timestamp := now;
           v_details := SequenceGap expectedSequence (sequence packet) |}
    else if gap <? 0 then
      (state, {| valid := false; reason := Some DuplicateOrOutOfOrder; severity := None |})
    else (set_lastSequence (sequence packet) state, ok).

(** The warning entry [validateSequence] records for an excessive gap. *)
Definition gapViolation (now : Z) (packet : GamePacket)
    (state : PlayerValidationState) : ValidationViolation :=
  {| v_type := "sequence_gap"; v_severity := Warning; v_timestamp := now;
     v_details := SequenceGap (Double.add (lastSequence state) 1) (sequence packet) |}.

(** [Math.sqrt(a*a + b*b + c*c)] in binary64, evaluated left to right. *)
Definition norm3 (a b c : float) : float :=
  PrimFloat.sqrt (PrimFloat.add (PrimFloat.add (PrimFloat.mul a a) (PrimFloat.mul b b))
                                (PrimFloat.mul c c)).

Definition validatePosition (now : Z) (pos : PositionData)
    (state : PlayerValidationState) : PlayerValidationState * ValidationResult :=
  match lastPosition state with
  | None =>
      (set_positionHistory (positionHistory state ++ [pos])
         (set_lastPosition (Some pos) state), ok)
  | Some last =>
      let dx := PrimFloat.sub (x pos) (x last) in
      let dy := PrimFloat.sub (y pos) (y last) in
      let dz := PrimFloat.sub (z pos) (z last) in
      let distance := norm3 dx dy dz in
      if PrimFloat.ltb MAX_POSITION_CHANGE distance then
        let '(state, result) :=
          recordViolation now state
            {| v_type := "teleport"; v_severity := Violation; v_timestamp := now;
               v_details := Teleport distance |} in
        (set_lastPosition (Some pos) state, result)
      else
        let velocityMagnitude := norm3 (velocityX pos) (velocityY pos) (velocityZ pos) in
        if PrimFloat.ltb MAX_SPEED velocityMagnitude then
          let '(state, result) :=
            recordViolation now state
              {| v_type := "speed_hack"; v_severity := Violation; v_timestamp := now;
                 v_details := SpeedHack velocityMagnitude |} in
          (set_lastPosition (Some pos) state, result)
        else
          let history := positionHistory state ++ [pos] in
          let history :=
            if (POSITION_HISTORY_SIZE <? length history)%nat then tail history
            else history in
          (set_lastPosition (Some pos) (set_positionHistory history state), ok)
  end.

(** [Math.pow(a, 2)] is taken as [a * a]. *)
Definition validateShoot (now : Z) (sh : ShootData)
    (state : PlayerValidationState) : PlayerValidationState * ValidationResult :=
  let timeSinceLastShot := now - lastShootTime state in
  if timeSinceLastShot <? MIN_SHOOT_INTERVAL then
    let '(state, result) :=
      recordViolation now state
        {| v_type := "rapid_fire"; v_severity := Violation; v_timestamp := now;
           v_details := RapidFire timeSinceLastShot |} in
    (set_lastShootTime now state, result)
  else
    let dirMagnitude := norm3 (directionX sh) (directionY sh) (directionZ sh) in
    if PrimFloat.ltb 0x1.47ae147ae147bp-7%float
         (PrimFloat.abs (PrimFloat.sub dirMagnitude 1%float)) then
      recordViolation now state
        {| v_type := "invalid_direction"; v_severity := Warning; v_timestamp := now;
           v_details := InvalidDirection dirMagnitude |}
    else
      let mismatch :=
        match lastPosition state with
        | Some last =>
            let originDistance :=
              norm3 (PrimFloat.sub (originX sh) (x last))
                    (PrimFloat.sub (originY sh) (y last))
                    (PrimFloat.sub (originZ sh) (z last)) in
            if PrimFloat.ltb 5%float originDistance then Some originDistance else None
        | None => None
        end in
      match mismatch with
      | Some originDistance =>
          recordViolation now state
            {| v_type := "position_mismatch"; v_severity := Warning; v_timestamp := now;
               v_details := PositionMismatch originDistance |}
      | None => (set_lastShootTime now state, ok)
      end.

(** The module-level [playerStates] map; [getPlayerState] creates the
    entry on first use and every mutation of the state object is visible
    through the map. *)
Definition getPlayerState (playerStates : gmap string PlayerValidationState)
    (pid : string) : PlayerValidationState :=
  default initialState (playerStates !! pid).

Definition clearValidationState (playerStates : gmap string PlayerValidationState)
    (pid : string) : gmap string PlayerValidationState :=
  delete pid playerStates.

Definition validatePacket (playerStates : gmap string PlayerValidationState)
    (now : Z) (packet : GamePacket)
    : gmap string PlayerValidationState * ValidationResult :=
  let state := getPlayerState playerStates (playerId packet) in
  let store s := <[playerId packet := s]> playerStates in
  let '(state, timestampResult) := validateTimestamp now packet state in
  if negb (valid timestampResult) then (store state, timestampResult)
  else
    let '(state, sequenceResult) := validateSequence now packet state in
    if negb (valid sequenceResult) then (store state, sequenceResult)
    else
      match data packet with
      | position d => let '(state, r) := validatePosition now d state in (store state, r)
      | shoot d => let '(state, r) := validateShoot now d state in (store state, r)
      | action_ _ => (store state, ok)
      end.

Record ViolationSummary := {
  warnings : nat;
  violationsCount : nat;
  shouldBan : bool }.

Definition getViolationSummary (playerStates : gmap string PlayerValidationState)
    (now : Z) (pid : string) : ViolationSummary :=
  match playerStates !! pid with
  | None => {| warnings := 0; violationsCount := 0; shouldBan := false |}
  | Some state =>
      let recentViolations := recent now (violations state) in
      let warnings := countSeverity Warning recentViolations in
      let violations := countSeverity Violation recentViolations in
      {| warnings := warnings; violationsCount := violations;
         shouldBan := (5 <=? violations)%nat
                      || ((3 <=? violations)%nat && (5 <=? warnings)%nat) |}
  end.

(** Severity and validity of a result agree: [Warning] comes with
    [valid = true], [Violation] and [Ban] with [valid = false]. *)
Definition coherent (r : ValidationResult) : Prop :=
  match severity r with
  | Some Warning => valid r = true
  | Some _ => valid r = false
  | None => True
  end.

End Validation.

(** ** Latency tracking and lobby selection ([ping.ts]) *)

Module Ping.

Record PlayerInfo := {
  p_id : string;
  p_joinedAt : Z;
  p_ping : Z;
  p_region : string;
  p_lastHeartbeat : Z }.

Definition MAX_PING_DIFFERENCE : Z := 100.
Definition PING_SAMPLE_COUNT : nat := 5.

(** [recordPingSample]: push, then drop the oldest sample when more than
    [PING_SAMPLE_COUNT] are held. *)
Definition recordPingSample (playerPingHistory : gmap string (list Z))
    (pid : string) (ping : Z) : gmap string (list Z) :=
  let history := default [] (playerPingHistory !! pid) ++ [ping] in
  let history :=
    if (PING_SAMPLE_COUNT <? length history)%nat then tail history else history in
  <[pid := history]> playerPingHistory.

(** [Math.round]: the nearest integer, halves towards plus infinity. *)
Definition Math_round (q : Q) : Z := Qfloor (q + (1 # 2))%Q.

(** [getAveragePing]: the samples are summed from the left and the sum
    is divided by their number, both in binary64, before [Math.round]. *)
Definition getAveragePing (playerPingHistory : gmap string (list Z))
    (pid : string) : Z :=
  match playerPingHistory !! pid with
  | None => -1
  | Some history =>
      if (length history =? 0)%nat then -1
      else
        let sum := foldl Double.add 0 history in
        Math_round (Double.div sum (Z.of_nat (length history)))
  end.

Definition clearPingHistory (playerPingHistory : gmap string (list Z))
    (pid : string) : gmap string (list Z) :=
  delete pid playerPingHistory.

Definition arePingsCompatible (ping1 ping2 : Z) : bool :=
  if (ping1 <? 0) || (ping2 <? 0) then true
  else Z.abs (ping1 - ping2) <=? MAX_PING_DIFFERENCE.

(** [[...players].sort((a, b) => a.ping - b.ping)]: the sort is stable,
    players of equal ping keep their order. *)
Fixpoint insertByPing (p : PlayerInfo) (l : list PlayerInfo) : list PlayerInfo :=
  match l with
  | [] => [p]
  | q :: l' => if p_ping p <? p_ping q then p :: q :: l' else q :: insertByPing p l'
  end.

Definition sortByPing (players : list PlayerInfo) : list PlayerInfo :=
  foldl (λ acc p, insertByPing p acc) [] players.

(** One iteration of the grouping loop on [(groups, currentGroup)]. The
    current group is never empty. *)
Definition groupStep (acc : list (list PlayerInfo) * list PlayerInfo)
    (player : PlayerInfo) : list (list PlayerInfo) * list PlayerInfo :=
  let '(groups, currentGroup) := acc in
  match currentGroup with
  | base :: _ =>
      if arePingsCompatible (p_ping base) (p_ping player)
      then (groups, currentGroup ++ [player])
      else (groups ++ [currentGroup], [player])
  | [] => (groups, [player])
  end.

Definition groupPlayersByPing (players : list PlayerInfo) : list (list PlayerInfo) :=
  match sortByPing players with
  | [] => []
  | first :: rest =>
      let '(groups, currentGroup) := foldl groupStep ([], [first]) rest in
      if (0 <? length currentGroup)%nat then groups ++ [currentGroup] else groups
  end.

(** The filter of the merge loop:
    [selected.length === 0 || arePingsCompatible(selected[0].ping, p.ping)]. *)
Definition compatibleWithFirst (selected : list PlayerInfo) (p : PlayerInfo) : bool :=
  match selected with
  | [] => true
  | s0 :: _ => arePingsCompatible (p_ping s0) (p_ping p)
  end.

(** One iteration of the merge loop; after [break] the remaining
    iterations leave [selected] as it is. *)
Definition mergeStep (lobbySize : nat) (selected group : list PlayerInfo)
    : list PlayerInfo :=
  let needed := Z.of_nat lobbySize - Z.of_nat (length selected) in
  if needed <=? 0 then selected
  else
    let compatible := filter (λ p, compatibleWithFirst selected p) group in
    selected ++ take (Z.to_nat needed) compatible.

Definition selectPlayersForLobby (players : list PlayerInfo) (lobbySize : nat)
    : list PlayerInfo :=
  if (length players <=? lobbySize)%nat then players
  else
    let groups := groupPlayersByPing players in
    match List.find (λ group, (lobbySize <=? length group)%nat) groups with
    | Some group => take lobbySize group
    | None => foldl (mergeStep lobbySize) [] groups
    end.


(** The ping samples recorded in a run, as [(playerId, ping)] calls of
    [recordPingSample] in order, starting from an empty history map. *)
Definition recordAll (calls : list (string * Z)) : gmap string (list Z) :=
  foldl (λ h c, recordPingSample h c.1 c.2) ∅ calls.

(** The samples of one player among the calls, oldest first. *)
Definition samplesOf (pid : string) (calls : list (string * Z)) : list Z :=
  (filter (λ c, c.1 = pid) calls).*2.

(** The last [n] elements of a list (all of it when it is shorter). *)
Definition lastN {A} (n : nat) (l : list A) : list A := drop (length l - n) l.

(** The arithmetic mean of a non-empty list of integers. *)
Definition mean (l : list Z) : Q :=
  (inject_Z (foldr Z.add 0%Z l) / inject_Z (Z.of_nat (length l)))%Q.

End Ping.

(** ** Queue coordinator ([index.ts], class [MatchmakingDO]) *)

Module Matchmaking.
Import Ping.

Definition LOBBY_SIZE : nat := 4.

Definition WebSocket := nat.

Record Env := { WORKER_ID : string; WORKER_REGION : string }.

Record LobbyInfo := {
  l_id : string;
  l_players : list string;
  l_hostId : string;
  l_maxPlayers : nat;
  l_createdAt : Z;
  l_gameStarted : bool;
  l_workerId : string;
  l_region : string }.

(** The [lobbyCreated] notice written to a member's socket. *)
Record LobbyCreated := {
  n_lobbyId : string;
  n_players : list string;
  n_hostId : string;
  n_isHost : bool;
  n_roomId : string }.

(** [players] is the waiting pool in insertion order, keyed by [p_id]. *)
Record State := {
  players : list PlayerInfo;
  lobbies : gmap string LobbyInfo;
  connections : gmap string WebSocket }.

(** [this.players.delete(pid)]. *)
Definition deletePlayer (pid : string) (pool : list PlayerInfo) : list PlayerInfo :=
  filter (λ p, p_id p ≠ pid) pool.

(** The notification loop of [createLobby]. *)
Definition notifyStep (conns : gmap string WebSocket) (lobby : LobbyInfo)
    (acc : list PlayerInfo * list (WebSocket * LobbyCreated)) (player : PlayerInfo)
    : list PlayerInfo * list (WebSocket * LobbyCreated) :=
  let '(pool, sent) := acc in
  let sent :=
    match conns !! p_id player with
    | Some ws =>
        sent ++ [(ws, {| n_lobbyId := l_id lobby; n_players := l_players lobby;
                         n_hostId := l_hostId lobby;
                         n_isHost := bool_decide (p_id player = l_hostId lobby);
                         n_roomId := "official-lobby-" +:+ l_id lobby |})]
    | None => sent
    end in
  (deletePlayer (p_id player) pool, sent).

(** [createLobby]; [lobbyId] stands for the generated identifier.
    [players[0].id] throws on an empty array: [None]. *)
Definition createLobby (env : Env) (lobbyId : string) (now : Z) (st : State)
    (selected : list PlayerInfo) : option (State * list (WebSocket * LobbyCreated)) :=
  match selected with
  | [] => None
  | host :: _ =>
      let lobby :=
        {| l_id := lobbyId; l_players := p_id <$> selected; l_hostId := p_id host;
           l_maxPlayers := LOBBY_SIZE; l_createdAt := now; l_gameStarted := false;
           l_workerId := WORKER_ID env; l_region := WORKER_REGION env |} in
      let '(pool, sent) :=
        foldl (notifyStep (connections st) lobby) (players st, []) selected in
      Some ({| players := pool; lobbies := <[lobbyId := lobby]> (lobbies st);
               connections := connections st |}, sent)
  end.

Definition tryCreateLobbies (env : Env) (lobbyId : string) (now : Z) (st : State)
    : option (State * list (WebSocket * LobbyCreated)) :=
  let playersArray := players st in
  if (length playersArray <? LOBBY_SIZE)%nat then Some (st, [])
  else
    let selectedPlayers := selectPlayersForLobby playersArray LOBBY_SIZE in
    if (LOBBY_SIZE <=? length selectedPlayers)%nat
    then createLobby env lobbyId now st (take LOBBY_SIZE selectedPlayers)
    else Some (st, []).

End Matchmaking.

(** ** Lobby coordinator ([index.ts], class [LobbyDO]) *)

Module Lobby.
Import Validation.

Definition WebSocket := nat.

Inductive Message :=
| kicked (reason : option Detail)
| relay (packet : GamePacket).

Inductive Event :=
| Send (ws : WebSocket) (m : Message)
| Close (ws : WebSocket)
| ConsoleWarn (pid : string) (reason : option Detail).

(** [broadcastToOthers]: [connections] in insertion order. *)
Definition broadcastToOthers (connections : list (string * WebSocket))
    (senderId : string) (packet : GamePacket) : list Event :=
  (λ c, Send c.2 (relay packet)) <$> filter (λ c, c.1 ≠ senderId) connections.

(** The dispatch of [handleGamePacket] on the validation result. *)
Definition dispatch (connections : list (string * WebSocket)) (ws : WebSocket)
    (packet : GamePacket) (validationResult : ValidationResult) : list Event :=
  if negb (valid validationResult) then
    if bool_decide (severity validationResult = Some Ban) then
      [Send ws (kicked (reason validationResult)); Close ws]
    else
      (if bool_decide (severity validationResult = Some Violation)
       then [ConsoleWarn (playerId packet) (reason validationResult)] else [])
      ++ broadcastToOthers connections (playerId packet) packet
  else broadcastToOthers connections (playerId packet) packet.

Definition handleGamePacket (connections : list (string * WebSocket))
    (playerStates : gmap string PlayerValidationState) (now : Z)
    (ws : WebSocket) (packet : GamePacket)
    : gmap string PlayerValidationState * list Event :=
  let '(playerStates, validationResult) := validatePacket playerStates now packet in
  (playerStates, dispatch connections ws packet validationResult).

(** What reached the sockets. *)
Definition relayedTo (evs : list Event) : list (WebSocket * GamePacket) :=
  omap (λ e, match e with Send ws (relay p) => Some (ws, p) | _ => None end) evs.

Definition closed (evs : list Event) : list WebSocket :=
  omap (λ e, match e with Close ws => Some ws | _ => None end) evs.

Definition kickedSockets (evs : list Event) : list WebSocket :=
  omap (λ e, match e with Send ws (kicked _) => Some ws | _ => None end) evs.

(** The sockets of the members other than [senderId]. *)
Definition others (connections : list (string * WebSocket)) (senderId : string)
    : list WebSocket :=
  (filter (λ c, c.1 ≠ senderId) connections).*2.

End Lobby.

(** ** Mesh coordinator ([workers-mesh.ts], class [WorkerMeshDO]) *)

Module Mesh.

(** The arithmetic the scoring code uses on JavaScript numbers. The code
    runs on [float] (binary64); the same text read over [Q] is the scoring
    formula in exact arithmetic. *)
Class Number (N : Type) := {
  lit : Z → N;
  lit_0_2 : N;
  add : N → N → N;
  sub : N → N → N;
  mul : N → N → N;
  div : N → N → N;
  ltb : N → N → bool }.

(** Binary64: integer literals below 2^53 are exact, [0.2] is the nearest
    double. *)
#[global] Instance float_Number : Number float := {
  lit n := PrimFloat.of_uint63 (Uint63.of_Z n);
  lit_0_2 := 0x1.999999999999ap-3%float;
  add := PrimFloat.add;
  sub := PrimFloat.sub;
  mul := PrimFloat.mul;
  div := PrimFloat.div;
  ltb := PrimFloat.ltb }.

#[global] Instance Q_Number : Number Q := {
  lit := inject_Z;
  lit_0_2 := (1 # 5)%Q;
  add := Qplus;
  sub := Qminus;
  mul := Qmult;
  div := Qdiv;
  ltb a b := if Qlt_le_dec a b then true else false }.

Definition HEARTBEAT_INTERVAL : Z := 30000.
Definition WORKER_TIMEOUT : Z := 90000.

Section Workers.
Context {N : Type} `{Number N}.

Record WorkerLoad := {
  activePlayers : N;
  activeLobbies : N;
  cpuUsage : N;
  memoryUsage : N }.

Record WorkerInfo := {
  w_id : string;
  w_region : string;
  w_endpoint : string;
  w_lastSeen : Z;
  w_load : WorkerLoad;
  w_publicKey : string }.

(** [cleanupStaleWorkers]: the registry in insertion order, keyed by
    worker id; deleting an entry while iterating a [Map] is allowed and
    the remaining entries are all visited. *)
Definition cleanupStaleWorkers (localWorkerId : string) (now : Z)
    (workers : list (string * WorkerInfo)) : list (string * WorkerInfo) :=
  filter (λ e, ¬ (WORKER_TIMEOUT < now - w_lastSeen e.2 ∧ e.1 ≠ localWorkerId)) workers.

(** [Array.from(this.workers.values()).filter(...)]. *)
Definition activeWorkers (now : Z) (workers : list (string * WorkerInfo))
    : list WorkerInfo :=
  filter (λ w, now - w_lastSeen w < WORKER_TIMEOUT) workers.*2.

(** [handleGetWorkers]: the clock is read in the cleanup ([now1]) and
    again in the filter ([now2]). Returns the registry and the body of
    the response. *)
Definition handleGetWorkers (localWorkerId : string) (now1 now2 : Z)
    (workers : list (string * WorkerInfo))
    : list (string * WorkerInfo) * list WorkerInfo :=
  let workers := cleanupStaleWorkers localWorkerId now1 workers in
  (workers, activeWorkers now2 workers).

(** The score of one worker, as computed in the best-worker query. *)
Definition scoreWorker (playerRegion : string) (worker : WorkerInfo) : N :=
  let score := lit 100 in
  let score :=
    if bool_decide (w_region worker = playerRegion) then add score (lit 50) else score in
  let loadPenalty := mul (div (activePlayers (w_load worker)) (lit 1000)) (lit 30) in
  let score := sub score loadPenalty in
  let score := sub score (mul (cpuUsage (w_load worker)) lit_0_2) in
  score.

End Workers.

Arguments WorkerLoad : clear implicits.
Arguments WorkerInfo : clear implicits.

End Mesh.

(** ** The remaining queue operations ([index.ts], class [MatchmakingDO]) *)

Module Queue.
Import Ping Matchmaking.

Definition HEARTBEAT_TIMEOUT : Z := 30000.

(** The queue object together with the two module-level maps its
    operations reach: the ping histories of [ping.ts] and the validation
    states of [validation.ts]. *)
Record World := {
  queue : State;
  pingHistory : gmap string (list Z);
  validation : gmap string Validation.PlayerValidationState }.

Record PingRequest := { q_timestamp : Z; q_playerId : string }.

Record PingResponse := {
  r_timestamp : Z;
  r_serverTimestamp : Z;
  r_playerId : string }.

Definition createPingResponse (now : Z) (request : PingRequest) : PingResponse :=
  {| r_timestamp := q_timestamp request; r_serverTimestamp := now;
     r_playerId := q_playerId request |}.

Definition calculatePing (sentTimestamp receivedTimestamp : Z) : Z :=
  Double.sub receivedTimestamp sentTimestamp.

(** What the queue writes to a socket. *)
Inductive Notice :=
| joined (playerId : string) (queuePosition : nat)
| lobbyCreated (n : LobbyCreated)
| pong (r : PingResponse).

(** [this.players.get(pid)]. *)
Definition getPlayer (pid : string) (pool : list PlayerInfo) : option PlayerInfo :=
  List.find (λ p, bool_decide (p_id p = pid)) pool.

(** [this.players.set(info.id, info)]: an existing entry keeps its place
    in the iteration order, a new one goes last. *)
Fixpoint setPlayer (info : PlayerInfo) (pool : list PlayerInfo) : list PlayerInfo :=
  match pool with
  | [] => [info]
  | q :: pool' =>
      if bool_decide (p_id q = p_id info) then info :: pool'
      else q :: setPlayer info pool'
  end.

Definition with_queue (q : State) (w : World) : World :=
  {| queue := q; pingHistory := pingHistory w; validation := validation w |}.

Definition with_players (pool : list PlayerInfo) (st : State) : State :=
  {| players := pool; lobbies := lobbies st; connections := connections st |}.

(** [tryCreateLobbies] seen from the world. *)
Definition sweep (env : Env) (lobbyId : string) (now : Z) (w : World)
    : option (World * list (WebSocket * Notice)) :=
  match tryCreateLobbies env lobbyId now (queue w) with
  | Some (st, sent) => Some (with_queue st w, (λ m, (m.1, lobbyCreated m.2)) <$> sent)
  | None => None
  end.

(** [addPlayer]: the web-socket join. *)
Definition addPlayer (env : Env) (lobbyId : string) (now : Z) (w : World)
    (playerId : string) (ws : WebSocket) (region : string)
    : option (World * list (WebSocket * Notice)) :=
  let playerInfo :=
    {| p_id := playerId; p_joinedAt := now; p_ping := -1; p_region := region;
       p_lastHeartbeat := now |} in
  let st :=
    {| players := setPlayer playerInfo (players (queue w));
       lobbies := lobbies (queue w);
       connections := <[playerId := ws]> (connections (queue w)) |} in
  let notice := (ws, joined playerId (length (players st))) in
  match sweep env lobbyId now (with_queue st w) with
  | Some (w', sent) => Some (w', notice :: sent)
  | None => None
  end.

(** [removePlayer]. *)
Definition removePlayer (w : World) (playerId : string) : World :=
  {| queue := {| players := deletePlayer playerId (players (queue w));
                 lobbies := lobbies (queue w);
                 connections := delete playerId (connections (queue w)) |};
     pingHistory := clearPingHistory (pingHistory w) playerId;
     validation := Validation.clearValidationState (validation w) playerId |}.

(** [updateHeartbeat]. *)
Definition updateHeartbeat (now : Z) (w : World) (playerId : string) : World :=
  match getPlayer playerId (players (queue w)) with
  | Some player =>
      let player :=
        {| p_id := p_id player; p_joinedAt := p_joinedAt player; p_ping := p_ping player;
           p_region := p_region player; p_lastHeartbeat := now |} in
      with_queue (with_players (setPlayer player (players (queue w))) (queue w)) w
  | None => w
  end.

(** [handlePingMessage]: the web-socket ping only answers. *)
Definition handlePingMessage (now : Z) (ws : WebSocket) (pingData : PingRequest)
    : list (WebSocket * Notice) :=
  [(ws, pong (createPingResponse now pingData))].

Record JoinResponse := { j_success : bool; j_playerId : string; j_queuePosition : nat }.

(** [handleJoin]: the REST join; [region || 'unknown']. *)
Definition handleJoin (now : Z) (w : World) (playerId region : string)
    : World * JoinResponse :=
  let playerInfo :=
    {| p_id := playerId; p_joinedAt := now; p_ping := -1;
       p_region := if bool_decide (region = "") then "unknown" else region;
       p_lastHeartbeat := now |} in
  let pool := setPlayer playerInfo (players (queue w)) in
  (with_queue (with_players pool (queue w)) w,
   {| j_success := true; j_playerId := playerId; j_queuePosition := length pool |}).

Definition handleLeave (w : World) (playerId : string) : World :=
  removePlayer w playerId.

(** [handlePing]: the REST ping records a sample for a queued player. *)
Definition handlePing (now : Z) (w : World) (pingRequest : PingRequest)
    : World * PingResponse :=
  let response := createPingResponse now pingRequest in
  match getPlayer (q_playerId pingRequest) (players (queue w)) with
  | Some player =>
      let ping := Double.sub now (q_timestamp pingRequest) in
      let history := recordPingSample (pingHistory w) (q_playerId pingRequest) ping in
      let player :=
        {| p_id := p_id player; p_joinedAt := p_joinedAt player;
           p_ping := getAveragePing history (q_playerId pingRequest);
           p_region := p_region player; p_lastHeartbeat := p_lastHeartbeat player |} in
      ({| queue := with_players (setPlayer player (players (queue w))) (queue w);
          pingHistory := history; validation := validation w |}, response)
  | None => (w, response)
  end.

(** One iteration of the loop of [cleanupInactivePlayers]. *)
Definition cleanupStep (now : Z) (w : World) (player : PlayerInfo) : World :=
  if HEARTBEAT_TIMEOUT <? now - p_lastHeartbeat player then
    {| queue := {| players := deletePlayer (p_id player) (players (queue w));
                   lobbies := lobbies (queue w);
                   connections := delete (p_id player) (connections (queue w)) |};
       pingHistory := clearPingHistory (pingHistory w) (p_id player);
       validation := validation w |}
  else w.

(** [cleanupInactivePlayers]: the loop runs over the entries the map held
    when it started. *)
Definition cleanupInactivePlayers (now : Z) (w : World) : World :=
  foldl (cleanupStep now) w (players (queue w)).

(** [alarm]: cleanup, then a sweep. *)
Definition alarm (env : Env) (lobbyId : string) (now : Z) (w : World)
    : option (World * list (WebSocket * Notice)) :=
  sweep env lobbyId now (cleanupInactivePlayers now w).

End Queue.

(** ** The remaining lobby operations ([index.ts], class [LobbyDO]) *)

Module LobbyOps.
Import Validation Lobby.

Record LobbyState := {
  lobby : option Matchmaking.LobbyInfo;
  connections : list (string * WebSocket) }.

(** The synthetic notice of [handlePlayerDisconnect]. *)
Definition disconnectPacket (now : Z) (pid : string) : GamePacket :=
  {| playerId := pid; timestamp := now; sequence := 0;
     data := action_ {| action := "disconnect"; targetId := None |};
     signature := None |}.

Definition without (pid : string) (l : Matchmaking.LobbyInfo) : Matchmaking.LobbyInfo :=
  {| Matchmaking.l_id := Matchmaking.l_id l;
     Matchmaking.l_players := filter (λ id, id ≠ pid) (Matchmaking.l_players l);
     Matchmaking.l_hostId := Matchmaking.l_hostId l;
     Matchmaking.l_maxPlayers := Matchmaking.l_maxPlayers l;
     Matchmaking.l_createdAt := Matchmaking.l_createdAt l;
     Matchmaking.l_gameStarted := Matchmaking.l_gameStarted l;
     Matchmaking.l_workerId := Matchmaking.l_workerId l;
     Matchmaking.l_region := Matchmaking.l_region l |}.

(** [handlePlayerDisconnect]. *)
Definition handlePlayerDisconnect (now : Z) (st : LobbyState)
    (playerStates : gmap string PlayerValidationState) (pid : string)
    : LobbyState * gmap string PlayerValidationState * list Event :=
  let conns := filter (λ c, c.1 ≠ pid) (connections st) in
  let playerStates := clearValidationState playerStates pid in
  match lobby st with
  | Some l =>
      ({| lobby := Some (without pid l); connections := conns |}, playerStates,
       broadcastToOthers conns pid (disconnectPacket now pid))
  | None => ({| lobby := None; connections := conns |}, playerStates, [])
  end.

(** The [close] listener: the first player registered for the socket. *)
Definition onClose (now : Z) (st : LobbyState)
    (playerStates : gmap string PlayerValidationState) (server : WebSocket)
    : LobbyState * gmap string PlayerValidationState * list Event :=
  match List.find (λ c, bool_decide (c.2 = server)) (connections st) with
  | Some (pid, _) => handlePlayerDisconnect now st playerStates pid
  | None => (st, playerStates, [])
  end.

Definition handleInit (st : LobbyState) (l : Matchmaking.LobbyInfo) : LobbyState :=
  {| lobby := Some l; connections := connections st |}.

(** [handleValidate]: the verdict only, nothing is relayed. *)
Definition handleValidate (playerStates : gmap string PlayerValidationState)
    (now : Z) (packet : GamePacket)
    : gmap string PlayerValidationState * ValidationResult :=
  validatePacket playerStates now packet.

End LobbyOps.

(** ** The remaining mesh operations ([workers-mesh.ts]) *)

Module MeshOps.
Import Mesh.

Inductive Status := Ok200 | BadRequest400 | Unauthorized401 | NotFound404.

Section Ops.
Context {N : Type} `{Number N}.

(** [createSignature(payload, workerId)]: the base64 SHA-256 digest of
    [payload + MESH_SECRET + workerId], taken as given. *)
Variable createSignature : string → string → string.

(** The [type] tag of a sync message together with its [data]. *)
Inductive SyncData :=
| worker_info (info : WorkerInfo N)
| load_update (load : WorkerLoad N)
| transfer (playerId lobbyId : string)
| balance (targetLoad : N)
| other (type : string).

(** [JSON.stringify(data)], taken as given. *)
Variable stringify : SyncData → string.

Record SyncMessage := {
  s_fromWorkerId : string;
  s_data : SyncData;
  s_signature : string }.

Definition with_lastSeen (t : Z) (w : WorkerInfo N) : WorkerInfo N :=
  {| w_id := w_id w; w_region := w_region w; w_endpoint := w_endpoint w;
     w_lastSeen := t; w_load := w_load w; w_publicKey := w_publicKey w |}.

Definition with_load (l : WorkerLoad N) (w : WorkerInfo N) : WorkerInfo N :=
  {| w_id := w_id w; w_region := w_region w; w_endpoint := w_endpoint w;
     w_lastSeen := w_lastSeen w; w_load := l; w_publicKey := w_publicKey w |}.

(** [this.workers.get(k)] and [this.workers.set(k, w)] on the registry in
    insertion order. *)
Definition getWorker (k : string) (workers : list (string * WorkerInfo N))
    : option (WorkerInfo N) :=
  snd <$> List.find (λ e, bool_decide (e.1 = k)) workers.

Fixpoint setWorker (k : string) (w : WorkerInfo N)
    (workers : list (string * WorkerInfo N)) : list (string * WorkerInfo N) :=
  match workers with
  | [] => [(k, w)]
  | e :: workers' =>
      if bool_decide (e.1 = k) then (k, w) :: workers'
      else e :: setWorker k w workers'
  end.

(** [broadcastToMesh]: one POST per known worker other than the local
    one, as [(url, message)]; failures are swallowed. *)
Definition broadcastToMesh (localWorkerId : string)
    (workers : list (string * WorkerInfo N)) (data : SyncData)
    : list (string * SyncMessage) :=
  let message :=
    {| s_fromWorkerId := localWorkerId; s_data := data;
       s_signature := createSignature (stringify data) localWorkerId |} in
  (λ e, (w_endpoint e.2 +:+ "/mesh/trystero-sync", message))
    <$> filter (λ e, e.1 ≠ localWorkerId) workers.

Definition handleWorkerInfoSync (now : Z) (workers : list (string * WorkerInfo N))
    (workerInfo : WorkerInfo N) : list (string * WorkerInfo N) :=
  setWorker (w_id workerInfo) (with_lastSeen now workerInfo) workers.

Definition handleLoadUpdateSync (now : Z) (workers : list (string * WorkerInfo N))
    (workerId : string) (load : WorkerLoad N) : list (string * WorkerInfo N) :=
  match getWorker workerId workers with
  | Some worker => setWorker workerId (with_lastSeen now (with_load load worker)) workers
  | None => workers
  end.

(** [handleTrysteroSync]: the signature is checked before anything else. *)
Definition handleTrysteroSync (now : Z) (workers : list (string * WorkerInfo N))
    (m : SyncMessage) : list (string * WorkerInfo N) * Status :=
  let expectedSignature := createSignature (stringify (s_data m)) (s_fromWorkerId m) in
  if bool_decide (s_signature m ≠ expectedSignature) then (workers, Unauthorized401)
  else
    match s_data m with
    | worker_info info => (handleWorkerInfoSync now workers info, Ok200)
    | load_update load =>
        (handleLoadUpdateSync now workers (s_fromWorkerId m) load, Ok200)
    | transfer _ _ => (workers, Ok200)
    | balance _ => (workers, Ok200)
    | other _ => (workers, BadRequest400)
    end.

Record RegisterResult := {
  g_workers : list (string * WorkerInfo N);
  g_status : Status;
  g_listed : list (WorkerInfo N);
  g_posts : list (string * SyncMessage) }.

(** [handleRegister]; an empty (or missing) id, region or endpoint is
    refused. *)
Definition handleRegister (localWorkerId : string) (now : Z)
    (workers : list (string * WorkerInfo N)) (workerInfo : WorkerInfo N)
    : RegisterResult :=
  if bool_decide (w_id workerInfo = "") || bool_decide (w_region workerInfo = "")
     || bool_decide (w_endpoint workerInfo = "")
  then {| g_workers := workers; g_status := BadRequest400; g_listed := [];
          g_posts := [] |}
  else
    let workerInfo := with_lastSeen now workerInfo in
    let workers := setWorker (w_id workerInfo) workerInfo workers in
    {| g_workers := workers; g_status := Ok200; g_listed := workers.*2;
       g_posts := broadcastToMesh localWorkerId workers (worker_info workerInfo) |}.

(** [handleHeartbeat]: the record is stamped at [now1]; the cleanup at the
    end reads the clock again ([now2]). *)
Definition handleHeartbeat (localWorkerId : string) (now1 now2 : Z)
    (workers : list (string * WorkerInfo N)) (workerId : string)
    (load : WorkerLoad N)
    : list (string * WorkerInfo N) * Status * list (string * SyncMessage) :=
  match getWorker workerId workers with
  | None => (workers, NotFound404, [])
  | Some worker =>
      let worker := with_load load (with_lastSeen now1 worker) in
      let workers := setWorker workerId worker workers in
      let posts := broadcastToMesh localWorkerId workers (load_update load) in
      (cleanupStaleWorkers localWorkerId now2 workers, Ok200, posts)
  end.

End Ops.

End MeshOps.

(** ** Invariants named in the further properties *)

Module Invariants.

(** No position history before a first position, and at most
    [POSITION_HISTORY_SIZE] entries. *)
Definition historyOk (s : Validation.PlayerValidationState) : Prop :=
  (Validation.lastPosition s = None → Validation.positionHistory s = []) ∧
  (length (Validation.positionHistory s) ≤ Validation.POSITION_HISTORY_SIZE)%nat.

(** The validation states after a run of [validatePacket] calls, each
    with its clock reading, starting with no player known. *)
Definition runPackets (calls : list (Z * Validation.GamePacket))
    : gmap string Validation.PlayerValidationState :=
  foldl (λ ps c, (Validation.validatePacket ps c.1 c.2).1) ∅ calls.

(** Ascending latency. *)
Definition byPing (a b : Ping.PlayerInfo) : Prop := Ping.p_ping a ≤ Ping.p_ping b.

(** A latency band: a non-empty group whose members are not below its
    first member and are compatible with it. *)
Definition band (g : list Ping.PlayerInfo) : Prop :=
  match g with
  | [] => False
  | base :: _ =>
      ∀ p, p ∈ g →
        Ping.p_ping base ≤ Ping.p_ping p ∧
        Ping.arePingsCompatible (Ping.p_ping base) (Ping.p_ping p) = true
  end.

(** A group none of whose members is compatible with [s0]. *)
Definition far (s0 : Ping.PlayerInfo) (g : list Ping.PlayerInfo) : Prop :=
  ∀ p, p ∈ g → Ping.arePingsCompatible (Ping.p_ping s0) (Ping.p_ping p) = false.

(** The state of the grouping loop: finished groups, current group, and
    the base [s0] of the very first group. *)
Definition loopOk (s0 : Ping.PlayerInfo) (groups : list (list Ping.PlayerInfo))
    (cur : list Ping.PlayerInfo) : Prop :=
  band cur ∧ Forall band groups ∧
  match groups with
  | [] => head cur = Some s0
  | F :: gs => head F = Some s0 ∧ Forall (far s0) gs ∧ far s0 cur
  end.

End Invariants.

(** ** Concrete inputs used by the examples below *)

Module Samples.
Import Validation.

Definition viol (t : Z) : ValidationViolation :=
  {| v_type := "teleport"; v_severity := Violation; v_timestamp := t;
     v_details := Teleport 60%float |}.

Definition warn (t : Z) : ValidationViolation :=
  {| v_type := "sequence_gap"; v_severity := Warning; v_timestamp := t;
     v_details := SequenceGap 1 20 |}.

Definition stateWith (log : list ValidationViolation) (lastSeq : Z)
    : PlayerValidationState :=
  set_lastSequence lastSeq (set_violations log initialState).

Definition actionPacket (pid : string) (ts seq : Z) : GamePacket :=
  {| playerId := pid; timestamp := ts; sequence := seq;
     data := action_ {| action := "jump"; targetId := None |};
     signature := None |}.

Definition roster : list (string * Lobby.WebSocket) :=
  [("alice", 1%nat); ("bob", 2%nat); ("carol", 3%nat)].

(** Two earlier violations in the window, then a packet stamped far in
    the future from "alice": the third violation. *)
Definition twoStrikes : gmap string PlayerValidationState :=
  {["alice" := stateWith [viol 1; viol 2] 0]}.

(** "alice" last sent sequence 5 and now repeats sequence 3. *)
Definition aliceAtFive : gmap string PlayerValidationState :=
  {["alice" := stateWith [] 5]}.

(** A waiting player with a measured latency. *)
Definition waiting (pid : string) (latency : Z) : Ping.PlayerInfo :=
  {| Ping.p_id := pid; Ping.p_joinedAt := 0; Ping.p_ping := latency;
     Ping.p_region := "eu-west"; Ping.p_lastHeartbeat := 0 |}.

Definition pool4 : list Ping.PlayerInfo :=
  [waiting "p1" 10; waiting "p2" 40; waiting "p3" 90; waiting "p4" 200].

Definition pool5 : list Ping.PlayerInfo := pool4 ++ [waiting "p5" 95].

Definition queueOf (pool : list Ping.PlayerInfo) : Matchmaking.State :=
  {| Matchmaking.players := pool; Matchmaking.lobbies := ∅;
     Matchmaking.connections := ∅ |}.

Definition env0 : Matchmaking.Env :=
  {| Matchmaking.WORKER_ID := "w1"; Matchmaking.WORKER_REGION := "eu-west" |}.

(** A registered worker; lobbies and memory do not enter the score. *)
Definition meshWorker {N} `{Mesh.Number N} (wid region : string) (lastSeen : Z)
    (activePlayers cpuUsage : N) : Mesh.WorkerInfo N :=
  {| Mesh.w_id := wid; Mesh.w_region := region;
     Mesh.w_endpoint := "https://" +:+ wid +:+ ".workers.dev";
     Mesh.w_lastSeen := lastSeen;
     Mesh.w_load := {| Mesh.activePlayers := activePlayers;
                       Mesh.activeLobbies := Mesh.lit 0;
                       Mesh.cpuUsage := cpuUsage;
                       Mesh.memoryUsage := Mesh.lit 0 |};
     Mesh.w_publicKey := "" |}.

(** A registry read at time 200000: "w2" was last seen 150 s ago, the
    local node "w1" 190 s ago, "w3" 10 s ago. *)
Definition registry : list (string * Mesh.WorkerInfo float) :=
  [("w1", meshWorker "w1" "eu-west" 10000 0%float 0%float);
   ("w2", meshWorker "w2" "us-east" 50000 0%float 0%float);
   ("w3", meshWorker "w3" "eu-west" 190000 0%float 0%float)].

End Samples.

(** ** Further concrete inputs *)

Module MoreSamples.

(** Three players waiting, "p1" and "p3" connected by web socket; "p2"
    last gave a heartbeat at time 0, the others at time 50000. *)
Definition beat (pid : string) (latency heartbeat : Z) : Ping.PlayerInfo :=
  {| Ping.p_id := pid; Ping.p_joinedAt := 0; Ping.p_ping := latency;
     Ping.p_region := "eu-west"; Ping.p_lastHeartbeat := heartbeat |}.

(** Integers around the powers of two at which binary64 starts to lose
    integers, of both signs; all of them are binary64 values. *)
Definition probes : list Z :=
  [0; 1; -1; 3; 10; 2^52; 2^52 + 1; 2^53 - 1; 2^53; 2^53 + 2; 2^53 + 4; 2^53 + 14;
   2^54 - 2; 2^54 + 4; 3 * 2^53 - 4; 2^55 - 4; 5 * 2^53 - 8; 5 * 2^50 + 2;
   - 2^53; - (2^53 + 2); - (2^54 - 2); 2^60; - 2^60; 2^62 - 2^9].

Definition agreesAdd (a b : Z) : bool :=
  PrimFloat.eqb (PrimFloat.add (Double.toFloat a) (Double.toFloat b))
                (Double.toFloat (Double.add a b)).

Definition agreesSub (a b : Z) : bool :=
  PrimFloat.eqb (PrimFloat.sub (Double.toFloat a) (Double.toFloat b))
                (Double.toFloat (Double.sub a b)).

Definition agreesDiv (a b : Z) : bool :=
  PrimFloat.eqb (PrimFloat.div (Double.toFloat a) (Double.toFloat b))
                (Double.QtoFloat (Double.div a b)).

(** A player standing still at abscissa [x0]. *)
Definition standingAt (x0 : float) : Validation.PositionData :=
  {| Validation.x := x0; Validation.y := 0; Validation.z := 0;
     Validation.velocityX := 0; Validation.velocityY := 0; Validation.velocityZ := 0;
     Validation.lookX := 0; Validation.lookY := 0; Validation.lookZ := 1 |}.

Definition world3 : Queue.World :=
  {| Queue.queue :=
       {| Matchmaking.players := [beat "p1" 10 50000; beat "p2" 40 0; beat "p3" 90 50000];
          Matchmaking.lobbies := ∅;
          Matchmaking.connections := {["p1" := 1%nat; "p3" := 3%nat]} |};
     Queue.pingHistory := {["p2" := [40]]};
     Queue.validation := ∅ |}.

End MoreSamples.

(** ** Binary64 arithmetic on integers *)

Module DoubleFacts.
Import Double Ping.

(** [nearestEven] is the floor of the quotient or its successor, and is
    within one half of the quotient. *)
Lemma nearestEven_floor (num den : Z) :
  num / den ≤ nearestEven num den ≤ num / den + 1.
Proof. unfold nearestEven. repeat case_match; lia. Qed.

Lemma nearestEven_error (num den : Z) :
  0 < den → Z.abs (2 * (nearestEven num den * den) - 2 * num) ≤ den.
Proof.
  intros Hden. unfold nearestEven.
  pose proof (Z.div_mod num den ltac:(lia)) as Hdm.
  pose proof (Z.mod_pos_bound num den Hden) as Hr.
  destruct (Z.compare_spec (2 * (num mod den)) den); repeat case_match; nia.
Qed.

Lemma nearestEven_exact (num den : Z) :
  0 < den → num mod den = 0 → nearestEven num den = num / den.
Proof.
  intros Hden Hr. unfold nearestEven. rewrite Hr.
  destruct (Z.compare_spec (2 * 0) den); [lia|done|lia].
Qed.

Lemma exponent_integer (n : Z) : n ≠ 0 → exponent n 1 = Z.log2 (Z.abs n).
Proof.
  intros Hn. unfold exponent. change (Z.log2 1) with 0. rewrite Z.sub_0_r.
  pose proof (Z.log2_nonneg (Z.abs n)) as Hnn.
  destruct (Z.log2_spec (Z.abs n) ltac:(lia)) as [Hlo _].
  rewrite (Z.max_l 0 (- _)), (Z.max_r 0 (Z.log2 _)) by lia. rewrite Z.pow_0_r.
  destruct (Z.ltb_spec (Z.abs n * 1) (1 * 2 ^ Z.log2 (Z.abs n))); lia.
Qed.

(** A quotient below [2^B] has an exponent below [B]. *)
Lemma exponent_upper (num den B : Z) :
  num ≠ 0 → 0 < den → 0 ≤ B → Z.abs num < den * 2 ^ B → exponent num den < B.
Proof.
  intros Hnum Hden HB Hlt. unfold exponent.
  set (a := Z.log2 (Z.abs num)). set (b := Z.log2 den).
  destruct (Z.log2_spec (Z.abs num) ltac:(lia)) as [Ha _]. fold a in Ha.
  destruct (Z.log2_spec den Hden) as [_ Hb]. fold b in Hb.
  pose proof (Z.log2_nonneg den) as Hb0. fold b in Hb0.
  assert (H2B : 0 < 2 ^ B) by (apply Z.pow_pos_nonneg; lia).
  destruct (Z.ltb_spec (Z.abs num * 2 ^ Z.max 0 (- (a - b))) (den * 2 ^ Z.max 0 (a - b)))
    as [_|Hge].
  - destruct (Z_le_gt_dec (a - b) B) as [|Hgt]; [lia|exfalso].
    assert (2 ^ (Z.succ b + B) ≤ 2 ^ a) by (apply Z.pow_le_mono_r; lia).
    rewrite Z.pow_add_r in * by lia. nia.
  - destruct (Z_lt_ge_dec (a - b) B) as [|Hgeq]; [lia|exfalso].
    rewrite (Z.max_l 0 (- (a - b))), (Z.max_r 0 (a - b)), Z.pow_0_r in Hge by lia.
    assert (2 ^ B ≤ 2 ^ (a - b)) by (apply Z.pow_le_mono_r; lia).
    nia.
Qed.

(** Binary64 rounding of an integer. *)
Lemma round_integer (n : Z) :
  n ≠ 0 →
  let e := Z.log2 (Z.abs n) - 52 in
  Qfloor (round (inject_Z n))
  = if e <=? 0 then n else nearestEven n (2 ^ e) * 2 ^ e.
Proof.
  intros Hn e. unfold round. cbn [Qnum Qden inject_Z].
  destruct (Z.eqb_spec n 0) as [|_]; [done|].
  rewrite exponent_integer by done. fold e.
  destruct (Z.leb_spec e 0) as [He|He].
  - rewrite (Z.max_r 0 (- e)), (Z.max_l 0 e), Z.pow_0_r by lia.
    assert (HP : 0 < 2 ^ (- e)) by (apply Z.pow_pos_nonneg; lia).
    rewrite !Z.mul_1_r, nearestEven_exact by (rewrite ?Zmod_1_r; lia).
    rewrite Zdiv_1_r. unfold Qfloor. rewrite Z2Pos.id by done.
    by rewrite Z.div_mul by lia.
  - rewrite (Z.max_l 0 (- e)), (Z.max_r 0 e), Z.pow_0_r, Z.mul_1_r, Z.mul_1_l by lia.
    unfold Qfloor. cbn [Z.to_pos]. by rewrite Zdiv_1_r.
Qed.

(** Integers of magnitude up to 2^53 are binary64 values; larger ones
    round to a value of magnitude at least 2^53. *)
Lemma round_safe (n : Z) : Z.abs n ≤ 2 ^ 53 → Qfloor (round (inject_Z n)) = n.
Proof.
  intros Hn. destruct (decide (n = 0)) as [->|H0]; [reflexivity|].
  rewrite round_integer by done.
  destruct (Z.leb_spec (Z.log2 (Z.abs n) - 52) 0) as [|He]; [done|].
  assert (Hlog : Z.log2 (Z.abs n) ≤ 53).
  { rewrite <- (Z.log2_pow2 53) by lia. by apply Z.log2_le_mono. }
  replace (Z.log2 (Z.abs n) - 52) with 1 by lia.
  destruct (Z.log2_spec (Z.abs n) ltac:(lia)) as [Hlo _].
  assert (2 ^ 53 ≤ 2 ^ Z.log2 (Z.abs n)) by (apply Z.pow_le_mono_r; lia).
  assert (Habs : Z.abs n = 2 ^ 53) by lia.
  destruct (Z.abs_eq_or_opp n) as [E|E]; rewrite E in Habs.
  - by rewrite Habs.
  - replace n with (- 2 ^ 53) by lia. reflexivity.
Qed.

Lemma round_large (n : Z) :
  (2 ^ 53 ≤ n → 2 ^ 53 ≤ Qfloor (round (inject_Z n))) ∧
  (n ≤ - 2 ^ 53 → Qfloor (round (inject_Z n)) ≤ - 2 ^ 53).
Proof.
  assert (Hgen : 2 ^ 53 ≤ Z.abs n →
                 let r := Qfloor (round (inject_Z n)) in
                 (0 < n → 2 ^ 53 ≤ r) ∧ (n < 0 → r ≤ - 2 ^ 53)).
  { intros Hn r. subst r. rewrite round_integer by lia.
    set (e := Z.log2 (Z.abs n) - 52).
    destruct (Z.leb_spec e 0) as [He|He]; [lia|].
    destruct (Z.log2_spec (Z.abs n) ltac:(lia)) as [Hlo _].
    replace (Z.log2 (Z.abs n)) with (52 + e) in Hlo by lia.
    rewrite Z.pow_add_r in Hlo by lia.
    assert (HP : 2 ≤ 2 ^ e).
    { change 2 with (2 ^ 1) at 1. apply Z.pow_le_mono_r; lia. }
    pose proof (nearestEven_floor n (2 ^ e)) as [Hfl Hfu].
    pose proof (Z.div_mod n (2 ^ e) ltac:(lia)) as Hdm.
    pose proof (Z.mod_pos_bound n (2 ^ e) ltac:(lia)) as Hr.
    split; intros Hs.
    - assert (2 ^ 52 ≤ n / 2 ^ e).
      { apply Z.div_le_lower_bound; lia. }
      nia.
    - assert (Hm : nearestEven n (2 ^ e) ≤ - 2 ^ 52).
      { unfold nearestEven in *.
        destruct (Z.compare_spec (2 * (n mod 2 ^ e)) (2 ^ e));
          repeat case_match; nia. }
      nia. }
  split; intros Hn; apply Hgen; lia.
Qed.

Lemma add_safe (a b : Z) : Z.abs (a + b) ≤ 2 ^ 53 → add a b = a + b.
Proof. apply round_safe. Qed.

Lemma sub_safe (a b : Z) : Z.abs (a - b) ≤ 2 ^ 53 → sub a b = a - b.
Proof. apply round_safe. Qed.

(** Comparisons of a rounded integer with a bound of magnitude below
    2^53 are the comparisons of the integer. *)
Lemma round_compare (n c : Z) :
  Z.abs c < 2 ^ 53 →
  let r := Qfloor (round (inject_Z n)) in
  (r < c ↔ n < c) ∧ (c < r ↔ c < n) ∧ (r = c ↔ n = c).
Proof.
  intros Hc r. subst r.
  destruct (Z_le_gt_dec (Z.abs n) (2 ^ 53)) as [Hs|Hl].
  - rewrite round_safe by done. tauto.
  - destruct (round_large n) as [Hp Hn]. lia.
Qed.


(** [Math.round] of [m / 2P] is [Math.round] of [s / n] when [m / 2P] is
    within [1 / 4P] of [s / n] and [n < 2P]: the nearest half-integer is
    at least [1 / 2n] away from [s / n], or is [s / n] itself. *)
Lemma Math_round_shift (s n m P : Z) :
  0 < n → n < 2 * P →
  Z.abs (2 * (m * n) - 2 * (s * (2 * P))) ≤ n →
  (m * 2 + 2 * P) / (2 * P * 2) = (s * 2 + n) / (n * 2).
Proof.
  intros Hn HP Herr.
  set (K := (s * 2 + n) / (n * 2)).
  pose proof (Z.div_mod (s * 2 + n) (n * 2) ltac:(lia)) as Hdm.
  pose proof (Z.mod_pos_bound (s * 2 + n) (n * 2) ltac:(lia)) as Hr.
  fold K in Hdm.
  assert (Hlo : n * (2 * K - 1) ≤ 2 * s) by lia.
  assert (Hhi : 2 * s ≤ n * (2 * K + 1) - 1) by lia.
  assert (Hm1 : 0 ≤ n * (2 * m - 2 * (P * (2 * K - 1)) + 1)) by nia.
  assert (Hm2 : n * (2 * m - 2 * (P * (2 * K + 1))) < 0) by nia.
  assert (Hm1' : 0 ≤ 2 * m - 2 * (P * (2 * K - 1)) + 1) by nia.
  assert (Hm2' : 2 * m - 2 * (P * (2 * K + 1)) < 0) by nia.
  symmetry. apply (Z.div_unique _ _ K (m * 2 + 2 * P - 2 * P * 2 * K)); lia.
Qed.

Lemma Math_round_frac (a : Z) (b : positive) :
  Math_round (a # b) = (a * 2 + Z.pos b) / (Z.pos b * 2).
Proof.
  unfold Math_round, Qfloor, Qplus. cbn [Qnum Qden].
  by rewrite Z.mul_1_l, Pos2Z.inj_mul.
Qed.

(** The binary64 quotient of an integer by a count below 8 rounds to the
    same integer as the exact quotient, as long as the quotient is below
    2^50. *)
Lemma div_round (s n : Z) :
  0 < n < 8 → Z.abs s < n * 2 ^ 50 →
  Math_round (div s n) = Math_round (inject_Z s / inject_Z n).
Proof.
  intros Hn Hs. destruct n as [|p|p]; try lia.
  unfold div, round.
  unfold Qdiv, Qinv, Qmult. cbn [Qnum Qden inject_Z].
  rewrite Z.mul_1_r. change (1 * p)%positive with p.
  destruct (Z.eqb_spec s 0) as [->|H0].
  { rewrite !Math_round_frac, !Z.div_small; lia. }
  pose proof (exponent_upper s (Z.pos p) 50 H0 ltac:(lia) ltac:(lia) Hs) as He.
  set (e := exponent s (Z.pos p) - 52) in *.
  rewrite (Z.max_r 0 (- e)), (Z.max_l 0 e), Z.pow_0_r, !Z.mul_1_r by lia.
  set (k := - e - 1).
  assert (Hk : 2 ≤ k) by lia.
  replace (- e) with (Z.succ k) by lia. rewrite Z.pow_succ_r by lia.
  assert (HP : 4 ≤ 2 ^ k).
  { change 4 with (2 ^ 2). apply Z.pow_le_mono_r; lia. }
  rewrite !Math_round_frac, Z2Pos.id by lia.
  apply Math_round_shift; [lia|lia|].
  apply nearestEven_error. lia.
Qed.


(** The gap computed by [validateSequence], for a counter that is a safe
    integer: it has the sign of the exact gap, exceeds 10 when the exact
    gap does, and is the exact gap when it lies between 0 and 10. *)
Lemma gap_compare (last seq : Z) :
  isSafeInteger last →
  let g := sub seq (add last 1) in
  let d := seq - (last + 1) in
  add last 1 = last + 1 ∧
  (g < 0 ↔ d < 0) ∧ (10 < g ↔ 10 < d) ∧ (0 ≤ g ≤ 10 ↔ 0 ≤ d ≤ 10) ∧
  (0 ≤ d ≤ 10 → g = d).
Proof.
  intros Hsafe g d. subst g d. unfold isSafeInteger, MAX_SAFE_INTEGER in Hsafe.
  rewrite add_safe by lia. unfold sub.
  destruct (round_compare (seq - (last + 1)) 0 ltac:(lia)) as (H0 & _ & _).
  destruct (round_compare (seq - (last + 1)) 10 ltac:(lia)) as (_ & H10 & _).
  cbv zeta in H0, H10.
  repeat split; try tauto; try lia.
  intros Hd. apply round_safe. lia.
Qed.

(** On the probes the modelled sum, difference and quotient are the ones
    the machine's binary64 operations give. *)
Example operations_agree_with_binary64 :
  forallb (λ a, forallb (λ b, MoreSamples.agreesAdd a b && MoreSamples.agreesSub a b)
                        MoreSamples.probes) MoreSamples.probes = true ∧
  forallb (λ a, forallb (λ b, MoreSamples.agreesDiv a b) [1; 2; 3; 4; 5; 7; 1000])
          MoreSamples.probes = true.
Proof. by vm_compute. Qed.

(** From 2^53 on an increment can be lost or doubled: [2^53 + 1] is
    [2^53], and [(2^53 + 2) + 1] is [2^53 + 4]. *)
Example add_beyond_safe_integers :
  add (2 ^ 53) 1 = 2 ^ 53 ∧ add (2 ^ 53 + 2) 1 = 2 ^ 53 + 4 ∧
  sub (2 ^ 53 + 14) (add (2 ^ 53 + 2) 1) = 10.
Proof. by vm_compute. Qed.

End DoubleFacts.

(** ** Escalation policy and sequence check *)

Module ValidationFacts.
Import Validation Samples.

Lemma recordViolation_log (now : Z) (state : PlayerValidationState)
    (violation : ValidationViolation) :
  violations (recordViolation now state violation).1
  = recent now (violations state ++ [violation]).
Proof.
  unfold recordViolation; cbn.
  repeat case_match; reflexivity.
Qed.

(** C1. [recordViolation] appends the violation, prunes the log to the
    trailing five minutes and decides on the counts in that window:
    five or more violations give [Ban] with [valid = false]; otherwise
    three or more violations give [Violation] with [valid = false];
    otherwise ten or more warnings give [Violation] with [valid = false];
    otherwise the result is [Warning] with [valid = true]. *)
Theorem recordViolation_escalation (now : Z) (state : PlayerValidationState)
    (violation : ValidationViolation) :
  let window :=
    filter (λ v, now - 300000 < v_timestamp v) (violations state ++ [violation]) in
  let violationCount := length (filter (λ v, v_severity v = Violation) window) in
  let warningCount := length (filter (λ v, v_severity v = Warning) window) in
  let out := recordViolation now state violation in
  violations out.1 = window ∧
  ((5 ≤ violationCount)%nat →
     severity out.2 = Some Ban ∧ valid out.2 = false) ∧
  ((3 ≤ violationCount < 5)%nat →
     severity out.2 = Some Violation ∧ valid out.2 = false) ∧
  ((violationCount < 3)%nat → (10 ≤ warningCount)%nat →
     severity out.2 = Some Violation ∧ valid out.2 = false) ∧
  ((violationCount < 3)%nat → (warningCount < 10)%nat →
     severity out.2 = Some Warning ∧ valid out.2 = true).
Proof.
  intros window violationCount warningCount out.
  split; [apply recordViolation_log|].
  subst out. unfold recordViolation. cbn [violations set_violations].
  fold (recent now (violations state ++ [violation])).
  change (recent now (violations state ++ [violation])) with window.
  fold (countSeverity Violation window) (countSeverity Warning window).
  change (countSeverity Violation window) with violationCount.
  change (countSeverity Warning window) with warningCount.
  destruct (Nat.leb_spec 5 violationCount);
    [cbn [snd severity valid]; repeat split; intros; solve [reflexivity | lia]|].
  destruct (Nat.leb_spec 3 violationCount);
    [cbn [snd severity valid]; repeat split; intros; solve [reflexivity | lia]|].
  destruct (Nat.leb_spec 10 warningCount);
    cbn [snd severity valid]; repeat split; intros; solve [reflexivity | lia].
Qed.

(** The fifth violation inside the window is answered by a ban. *)
Lemma recordViolation_escalation_witness :
  let out := recordViolation 1000 (stateWith [viol 1; viol 2; viol 3; viol 4] 0) (viol 1000) in
  severity out.2 = Some Ban ∧ valid out.2 = false.
Proof.
  destruct (recordViolation_escalation 1000
              (stateWith [viol 1; viol 2; viol 3; viol 4] 0) (viol 1000))
    as (_ & Hban & _).
  apply Hban. vm_compute. lia.
Defined.

(** C3, as amended. The first packet (sequence counter still [-1]) is
    accepted and seeds the counter. Otherwise, for a counter that is a
    safe integer (of magnitude below 2^53) and with
    [g = sequence - (lastSequence + 1)]: for [g < 0] the packet is rejected
    with [valid = false], no severity, and the state is untouched; for
    [0 <= g <= 10] it is accepted, nothing is logged and [lastSequence]
    becomes [packet.sequence]; for [g > 10] a [Warning] entry of type
    [sequence_gap] is appended to the log, the log is pruned to the
    trailing five minutes, and the answer is the escalation result of
    [recordViolation] for that entry. *)
Theorem validateSequence_gap (now : Z) (packet : GamePacket)
    (state : PlayerValidationState) :
  Double.isSafeInteger (lastSequence state) →
  let g := sequence packet - (lastSequence state + 1) in
  let out := validateSequence now packet state in
  (lastSequence state = -1 →
     valid out.2 = true ∧ severity out.2 = None ∧
     lastSequence out.1 = sequence packet ∧ violations out.1 = violations state) ∧
  (lastSequence state ≠ -1 → g < 0 →
     valid out.2 = false ∧ severity out.2 = None ∧ out.1 = state) ∧
  (lastSequence state ≠ -1 → 0 ≤ g ≤ 10 →
     valid out.2 = true ∧ severity out.2 = None ∧
     lastSequence out.1 = sequence packet ∧ violations out.1 = violations state) ∧
  (lastSequence state ≠ -1 → 10 < g →
     v_severity (gapViolation now packet state) = Warning ∧
     v_details (gapViolation now packet state)
     = SequenceGap (lastSequence state + 1) (sequence packet) ∧
     violations out.1
     = filter (λ v, now - 300000 < v_timestamp v)
         (violations state ++ [gapViolation now packet state]) ∧
     out.2 = (recordViolation now state (gapViolation now packet state)).2).
Proof.
  intros Hsafe g out. subst g out.
  destruct (DoubleFacts.gap_compare (lastSequence state) (sequence packet) Hsafe)
    as (Hexp & Hneg & Hbig & _).
  cbv zeta in Hneg, Hbig.
  unfold validateSequence, gapViolation, MAX_SEQUENCE_GAP.
  destruct (Z.eqb_spec (lastSequence state) (-1)) as [Hfirst|Hfirst].
  { repeat split; intros; try contradiction; reflexivity. }
  cbv zeta.
  destruct (Z.ltb_spec 10
              (Double.sub (sequence packet) (Double.add (lastSequence state) 1)))
    as [Hb|Hb].
  { repeat split; intros; try lia; try contradiction; try (by rewrite Hexp).
    apply recordViolation_log. }
  destruct (Z.ltb_spec
              (Double.sub (sequence packet) (Double.add (lastSequence state) 1)) 0)
    as [Hn|Hn];
    repeat split; intros; try lia; try contradiction; try reflexivity;
    by rewrite Hexp.
Qed.

(** A packet three ahead of the counter: accepted, counter advanced. *)
Lemma validateSequence_gap_witness :
  let out := validateSequence 1000 (actionPacket "alice" 1000 8) (stateWith [] 5) in
  valid out.2 = true ∧ severity out.2 = None ∧
  lastSequence out.1 = 8 ∧ violations out.1 = [].
Proof.
  destruct (validateSequence_gap 1000 (actionPacket "alice" 1000 8) (stateWith [] 5))
    as (_ & _ & Hsmall & _); [by vm_compute|].
  apply Hsmall; vm_compute; [discriminate | split; discriminate].
Defined.

(** C3 as stated fails: a packet with gap [g = 2] is accepted, yet no
    warning (nor anything else) is logged for it. *)
Lemma validateSequence_small_gap_not_logged :
  let state := stateWith [] 5 in
  let packet := actionPacket "alice" 1000 8 in
  let out := validateSequence 1000 packet state in
  sequence packet - (lastSequence state + 1) = 2 ∧
  valid out.2 = true ∧
  ¬ (∃ v, v ∈ violations out.1 ∧ v_severity v = Warning).
Proof.
  vm_compute. repeat split. intros (v & Hv & _). inversion Hv.
Qed.

(** The oversized gap leaves the counter where it was: after a packet
    with [g = 20] the next expected number is still [6]. *)
Example validateSequence_large_gap_keeps_counter :
  let out := validateSequence 1000 (actionPacket "alice" 1000 26) (stateWith [] 5) in
  valid out.2 = true ∧ severity out.2 = Some Warning ∧ lastSequence out.1 = 5.
Proof. vm_compute. repeat split. Qed.

(** Beyond the safe integers the counter no longer tells packets apart:
    with the counter at 2^53 the packet numbered 2^53 is accepted once
    more, since the expected number 2^53 + 1 is 2^53 in binary64. *)
Example validateSequence_beyond_safe_integers :
  let out := validateSequence 1000 (actionPacket "alice" 1000 (2 ^ 53))
               (stateWith [] (2 ^ 53)) in
  valid out.2 = true ∧ lastSequence out.1 = 2 ^ 53.
Proof. by vm_compute. Qed.

(** C10. [getViolationSummary] counts the warnings and violations of the
    trailing five minutes and sets [shouldBan] exactly when there are at
    least five violations, or at least three violations together with at
    least five warnings; an unknown player gets zeros and [false]. The
    predicate is not the one of [recordViolation]: with three violations
    and five warnings in the window [recordViolation] answers [Violation],
    not [Ban], while the summary of the very same state says
    [shouldBan]. *)
Theorem getViolationSummary_shouldBan :
  (∀ (playerStates : gmap string PlayerValidationState) (now : Z) (pid : string),
     let s := getViolationSummary playerStates now pid in
     match playerStates !! pid with
     | None => warnings s = 0%nat ∧ violationsCount s = 0%nat ∧ shouldBan s = false
     | Some state =>
         let window := filter (λ v, now - 300000 < v_timestamp v) (violations state) in
         let vc := length (filter (λ v, v_severity v = Violation) window) in
         let wc := length (filter (λ v, v_severity v = Warning) window) in
         warnings s = wc ∧ violationsCount s = vc ∧
         (shouldBan s = true ↔ (5 ≤ vc)%nat ∨ ((3 ≤ vc)%nat ∧ (5 ≤ wc)%nat))
     end) ∧
  (∃ (now : Z) (state : PlayerValidationState) (violation : ValidationViolation)
     (pid : string),
     let out := recordViolation now state violation in
     severity out.2 = Some Violation ∧
     shouldBan (getViolationSummary {[pid := out.1]} now pid) = true).
Proof.
  split.
  - intros playerStates now pid s. subst s. unfold getViolationSummary.
    destruct (playerStates !! pid) as [state|]; [|repeat split].
    cbn [warnings violationsCount shouldBan].
    unfold countSeverity, recent.
    repeat split; try reflexivity.
    + intros Hb. apply orb_true_iff in Hb as [Hb|Hb].
      * left. by apply Nat.leb_le.
      * right. apply andb_true_iff in Hb as [H3 H5].
        split; by apply Nat.leb_le.
    + intros [Hb|[H3 H5]]; apply orb_true_iff.
      * left. by apply Nat.leb_le.
      * right. apply andb_true_iff. split; by apply Nat.leb_le.
  - exists 1000,
      (stateWith [warn 1; warn 2; warn 3; warn 4; warn 5; viol 6; viol 7] 0),
      (viol 1000), "alice".
    vm_compute. split; reflexivity.
Qed.

End ValidationFacts.

(** ** The lobby relay *)

Module LobbyFacts.
Import Validation Lobby Samples.

Lemma recordViolation_coherent (now : Z) (state : PlayerValidationState)
    (violation : ValidationViolation) :
  coherent (recordViolation now state violation).2.
Proof.
  unfold recordViolation, coherent. repeat case_match; cbn in *; congruence.
Qed.

Lemma validateTimestamp_coherent now packet state :
  coherent (validateTimestamp now packet state).2.
Proof.
  unfold validateTimestamp. repeat case_match; try apply recordViolation_coherent.
  exact I.
Qed.

Lemma validateSequence_coherent now packet state :
  coherent (validateSequence now packet state).2.
Proof.
  unfold validateSequence. repeat case_match; try apply recordViolation_coherent;
    exact I.
Qed.

Lemma validatePosition_coherent now pos state :
  coherent (validatePosition now pos state).2.
Proof.
  unfold validatePosition. repeat case_match; subst; cbn [snd]; try exact I;
    match goal with
    | H : recordViolation ?n ?s ?v = (_, ?r) |- coherent ?r =>
        pose proof (recordViolation_coherent n s v) as Hc; rewrite H in Hc; exact Hc
    end.
Qed.

Lemma validateShoot_coherent now sh state :
  coherent (validateShoot now sh state).2.
Proof.
  unfold validateShoot. repeat case_match; subst; cbn [snd]; try exact I;
    try apply recordViolation_coherent;
    match goal with
    | H : recordViolation ?n ?s ?v = (_, ?r) |- coherent ?r =>
        pose proof (recordViolation_coherent n s v) as Hc; rewrite H in Hc; exact Hc
    end.
Qed.

Lemma validatePacket_coherent playerStates now packet :
  coherent (validatePacket playerStates now packet).2.
Proof.
  unfold validatePacket.
  pose proof (validateTimestamp_coherent now packet
                (getPlayerState playerStates (playerId packet))) as Ht.
  destruct (validateTimestamp now packet _) as [s1 r1]. cbn [snd] in Ht.
  destruct (negb (valid r1)); [exact Ht|].
  pose proof (validateSequence_coherent now packet s1) as Hs.
  destruct (validateSequence now packet s1) as [s2 r2]. cbn [snd] in Hs.
  destruct (negb (valid r2)); [exact Hs|].
  destruct (data packet) as [d|d|d].
  - pose proof (validatePosition_coherent now d s2) as Hp.
    destruct (validatePosition now d s2). exact Hp.
  - pose proof (validateShoot_coherent now d s2) as Hp.
    destruct (validateShoot now d s2). exact Hp.
  - exact I.
Qed.

Lemma broadcast_relayed connections senderId packet :
  relayedTo (broadcastToOthers connections senderId packet)
  = (λ ws, (ws, packet)) <$> others connections senderId.
Proof.
  unfold broadcastToOthers, others, relayedTo.
  induction (filter (λ c, c.1 ≠ senderId) connections) as [|c l IH]; [reflexivity|].
  cbn. by rewrite IH.
Qed.

Lemma broadcast_closed connections senderId packet :
  closed (broadcastToOthers connections senderId packet) = [] ∧
  kickedSockets (broadcastToOthers connections senderId packet) = [].
Proof.
  unfold broadcastToOthers, closed, kickedSockets.
  induction (filter (λ c, c.1 ≠ senderId) connections) as [|c l [IH1 IH2]];
    [split; reflexivity|].
  cbn. by rewrite IH1, IH2.
Qed.

(** Every result other than an invalid [Ban] is relayed. *)
Lemma dispatch_relays connections ws packet r :
  ¬ (valid r = false ∧ severity r = Some Ban) →
  relayedTo (dispatch connections ws packet r)
  = (λ s, (s, packet)) <$> others connections (playerId packet) ∧
  closed (dispatch connections ws packet r) = [] ∧
  kickedSockets (dispatch connections ws packet r) = [].
Proof.
  intros Hnb. unfold dispatch.
  destruct (broadcast_closed connections (playerId packet) packet) as [Hc Hk].
  destruct (valid r) eqn:Hv; cbn [negb].
  { by rewrite broadcast_relayed. }
  case_bool_decide as Hban; [exfalso; by apply Hnb|].
  case_bool_decide; cbn; by rewrite ?broadcast_relayed.
Qed.

(** C2, as amended. A [Ban] result sends the kick notice to the sender's
    socket, closes it and relays nothing. Every other result, a non-ban
    [Violation] included, relays the packet unchanged to the socket of
    every connected member whose id differs from [packet.playerId], in
    roster order, and closes no socket. *)
Theorem handleGamePacket_outcome (connections : list (string * WebSocket))
    (playerStates : gmap string PlayerValidationState) (now : Z)
    (ws : WebSocket) (packet : GamePacket) :
  let result := (validatePacket playerStates now packet).2 in
  let evs := (handleGamePacket connections playerStates now ws packet).2 in
  (severity result = Some Ban →
     evs = [Send ws (kicked (reason result)); Close ws] ∧ relayedTo evs = []) ∧
  (severity result ≠ Some Ban →
     relayedTo evs = (λ s, (s, packet)) <$> others connections (playerId packet) ∧
     closed evs = [] ∧ kickedSockets evs = []).
Proof.
  intros result evs. subst result evs. unfold handleGamePacket.
  pose proof (validatePacket_coherent playerStates now packet) as Hc.
  destruct (validatePacket playerStates now packet) as [ps r]. cbn [snd] in *.
  split.
  - intros Hban. unfold coherent in Hc. rewrite Hban in Hc.
    unfold dispatch. rewrite Hc, Hban. cbn [negb].
    rewrite bool_decide_eq_true_2 by reflexivity. by split.
  - intros Hnb. apply dispatch_relays. by intros [_ ?].
Qed.

Lemma handleGamePacket_outcome_witness :
  let packet := actionPacket "alice" 999999 1 in
  let evs := (handleGamePacket roster twoStrikes 1000 1%nat packet).2 in
  relayedTo evs = [(2%nat, packet); (3%nat, packet)] ∧
  closed evs = [] ∧ kickedSockets evs = [].
Proof.
  apply (handleGamePacket_outcome roster twoStrikes 1000 1%nat
           (actionPacket "alice" 999999 1)).
  vm_compute. discriminate.
Defined.

(** C2 as stated fails: the result is a non-ban [Violation] with
    [valid = false], and the packet still reaches "bob" and "carol". *)
Lemma handleGamePacket_violation_is_relayed :
  let packet := actionPacket "alice" 999999 1 in
  let result := (validatePacket twoStrikes 1000 packet).2 in
  let evs := (handleGamePacket roster twoStrikes 1000 1%nat packet).2 in
  valid result = false ∧ severity result = Some Violation ∧
  relayedTo evs = [(2%nat, packet); (3%nat, packet)] ∧ relayedTo evs ≠ [].
Proof. vm_compute. repeat split. discriminate. Qed.

(** C9. A result with [valid = false] and no severity (the hard reject of
    a duplicate or out-of-order packet) does not stop the relay: the packet
    goes unchanged to every connected member other than the sender and no
    socket is closed. *)
Theorem handleGamePacket_plain_reject_is_relayed
    (connections : list (string * WebSocket))
    (playerStates : gmap string PlayerValidationState) (now : Z)
    (ws : WebSocket) (packet : GamePacket) :
  let result := (validatePacket playerStates now packet).2 in
  let evs := (handleGamePacket connections playerStates now ws packet).2 in
  valid result = false → severity result = None →
  relayedTo evs = (λ s, (s, packet)) <$> others connections (playerId packet) ∧
  closed evs = [] ∧ kickedSockets evs = [].
Proof.
  intros result evs Hv Hs. subst result evs. unfold handleGamePacket.
  destruct (validatePacket playerStates now packet) as [ps r]. cbn [snd] in *.
  apply dispatch_relays. intros [_ Hban]. congruence.
Qed.

Lemma handleGamePacket_plain_reject_witness :
  let packet := actionPacket "alice" 1000 3 in
  let result := (validatePacket aliceAtFive 1000 packet).2 in
  let evs := (handleGamePacket roster aliceAtFive 1000 1%nat packet).2 in
  reason result = Some DuplicateOrOutOfOrder ∧
  relayedTo evs = [(2%nat, packet); (3%nat, packet)] ∧
  closed evs = [] ∧ kickedSockets evs = [].
Proof.
  split; [vm_compute; reflexivity|].
  apply (handleGamePacket_plain_reject_is_relayed roster aliceAtFive 1000 1%nat
           (actionPacket "alice" 1000 3)); vm_compute; reflexivity.
Defined.

End LobbyFacts.

(** ** The latency window *)

Module PingFacts.
Import Ping.

Lemma foldl_add_shift (l : list Z) (a : Z) : foldl Z.add a l = a + foldr Z.add 0 l.
Proof.
  revert a; induction l as [|b l IH]; intros a; cbn; [lia|]. rewrite IH. lia.
Qed.

Lemma lastN_length {A} (n : nat) (l : list A) : (length (lastN n l) ≤ n)%nat.
Proof. unfold lastN. rewrite length_drop. lia. Qed.

Lemma lastN_nonempty {A} (n : nat) (l : list A) :
  (0 < n)%nat → l ≠ [] → lastN n l ≠ [].
Proof.
  intros Hn Hl Hd. apply (f_equal length) in Hd.
  unfold lastN in Hd. rewrite length_drop in Hd. cbn in Hd.
  destruct l; [done|]. cbn in Hd. lia.
Qed.

(** Pushing a sample and dropping the oldest one when six are held keeps
    the window equal to the last five samples. *)
Lemma window_push (samples : list Z) (ping : Z) :
  (let history := lastN 5 samples ++ [ping] in
   if (PING_SAMPLE_COUNT <? length history)%nat then tail history else history)
  = lastN 5 (samples ++ [ping]).
Proof.
  cbv zeta. unfold lastN, PING_SAMPLE_COUNT.
  rewrite !length_app, length_drop. cbn [length].
  destruct (Nat.ltb_spec 5 (length samples - (length samples - 5) + 1)) as [Hlt|Hge].
  - replace (length samples + 1 - 5)%nat with (length samples - 5 + 1)%nat by lia.
    rewrite drop_app_le by lia.
    rewrite <- (drop_drop samples 1 (length samples - 5))%nat.
    destruct (drop (length samples - 5) samples) as [|a t] eqn:Hd.
    + apply (f_equal length) in Hd. rewrite length_drop in Hd. cbn in Hd. lia.
    + cbn. by rewrite drop_0.
  - replace (length samples - 5)%nat with 0%nat by lia.
    replace (length samples + 1 - 5)%nat with 0%nat by lia.
    reflexivity.
Qed.

Lemma recordAll_snoc (calls : list (string * Z)) (c : string * Z) :
  recordAll (calls ++ [c]) = recordPingSample (recordAll calls) c.1 c.2.
Proof. unfold recordAll. by rewrite foldl_app. Qed.

Lemma samplesOf_snoc (pid : string) (calls : list (string * Z)) (c : string * Z) :
  samplesOf pid (calls ++ [c])
  = samplesOf pid calls ++ (if decide (c.1 = pid) then [c.2] else []).
Proof.
  unfold samplesOf. rewrite filter_app, fmap_app. f_equal.
  rewrite filter_cons, filter_nil. by case_decide.
Qed.

(** The history map holds, for every player, the last five of that
    player's samples, and no entry before the first sample. *)
Lemma recordAll_lookup (calls : list (string * Z)) (pid : string) :
  recordAll calls !! pid
  = if decide (samplesOf pid calls = []) then None
    else Some (lastN 5 (samplesOf pid calls)).
Proof.
  induction calls as [|c calls IH] using rev_ind; [reflexivity|].
  rewrite recordAll_snoc, samplesOf_snoc. unfold recordPingSample.
  destruct (decide (c.1 = pid)) as [->|Hne].
  - rewrite lookup_insert_eq.
    rewrite decide_False by (intros [_ ?]%app_eq_nil; discriminate).
    f_equal. rewrite <- window_push. rewrite IH.
    by destruct (decide (samplesOf pid calls = [])) as [->|].
  - rewrite lookup_insert_ne by done. by rewrite app_nil_r.
Qed.

Lemma Math_round_nearest (q : Q) : (Qabs (inject_Z (Math_round q) - q) <= 1 # 2)%Q.
Proof.
  unfold Math_round.
  pose proof (Qfloor_le (q + (1 # 2))) as Hlo.
  pose proof (Qlt_floor (q + (1 # 2))) as Hhi.
  rewrite inject_Z_plus in Hhi. change (inject_Z 1) with 1%Q in Hhi.
  apply Qabs_Qle_condition. split; lra.
Qed.

(** Below 2^50 a window of at most five samples is summed without
    rounding. *)
Lemma foldl_add_exact (l : list Z) (a : Z) :
  Forall (λ x, Z.abs x < 2 ^ 50) l →
  Z.abs a + Z.of_nat (length l) * 2 ^ 50 ≤ 2 ^ 53 →
  foldl Double.add a l = a + foldr Z.add 0 l.
Proof.
  revert a. induction l as [|b l IH]; intros a Hall Hbound; cbn [foldl foldr]; [lia|].
  apply Forall_cons in Hall as [Hb Hall].
  rewrite length_cons, Nat2Z.inj_succ in Hbound.
  rewrite DoubleFacts.add_safe by lia.
  rewrite IH; [lia|done|lia].
Qed.

Lemma sum_magnitude (l : list Z) :
  Forall (λ x, Z.abs x < 2 ^ 50) l → l ≠ [] →
  Z.abs (foldr Z.add 0 l) < Z.of_nat (length l) * 2 ^ 50.
Proof.
  intros Hall Hne.
  assert (Hle : Z.abs (foldr Z.add 0 l) ≤ Z.of_nat (length l) * (2 ^ 50 - 1)).
  { clear Hne. induction Hall as [|b l Hb Hall IH]; cbn [foldr length]; lia. }
  destruct l; [done|]. cbn [length] in *. lia.
Qed.

(** For a window of at most five samples of magnitude below 2^50 the
    binary64 average rounds to the same integer as the exact mean. *)
Lemma average_exact (window : list Z) :
  window ≠ [] → (length window ≤ 5)%nat →
  Forall (λ x, Z.abs x < 2 ^ 50) window →
  Math_round (Double.div (foldl Double.add 0 window) (Z.of_nat (length window)))
  = Math_round (mean window).
Proof.
  intros Hne Hlen Hall.
  rewrite foldl_add_exact, Z.add_0_l by (done || lia).
  unfold mean. apply DoubleFacts.div_round.
  - destruct window; [done|]. cbn [length] in *. lia.
  - by apply sum_magnitude.
Qed.

(** C8, as amended. After any run of [recordPingSample] calls, for a
    player whose last five samples are of magnitude below 2^50,
    [getAveragePing] is the mean of those samples (of all of them when
    fewer were recorded) rounded to the nearest integer, and it is [-1]
    when no sample was recorded for the player. *)
Theorem getAveragePing_window (calls : list (string * Z)) (pid : string) :
  Forall (λ x, Z.abs x < 2 ^ 50) (lastN 5 (samplesOf pid calls)) →
  let window := lastN 5 (samplesOf pid calls) in
  let avg := getAveragePing (recordAll calls) pid in
  (length window ≤ 5)%nat ∧
  (samplesOf pid calls = [] → avg = -1) ∧
  (samplesOf pid calls ≠ [] →
     window ≠ [] ∧ avg = Math_round (mean window) ∧
     (Qabs (inject_Z avg - mean window) <= 1 # 2)%Q).
Proof.
  intros Hsmall window avg. split; [apply lastN_length|].
  subst avg. unfold getAveragePing. rewrite recordAll_lookup.
  split.
  - intros Hnone. by rewrite decide_True.
  - intros Hsome. rewrite decide_False by done.
    assert (Hw : window ≠ []) by (apply lastN_nonempty; [lia|done]).
    fold window. split; [done|].
    destruct (Nat.eqb_spec (length window) 0) as [H0|_];
      [by destruct window|].
    rewrite average_exact by (done || apply lastN_length).
    split; [reflexivity|apply Math_round_nearest].
Qed.

(** Seven samples of "alice" interleaved with one of "bob": the window is
    the last five, [30 40 50 60 71], whose mean 50.2 rounds to 50. *)
Lemma getAveragePing_window_witness :
  let calls := [("alice", 10); ("alice", 20); ("bob", 500); ("alice", 30);
                ("alice", 40); ("alice", 50); ("alice", 60); ("alice", 71)] in
  lastN 5 (samplesOf "alice" calls) = [30; 40; 50; 60; 71] ∧
  getAveragePing (recordAll calls) "alice" = 50 ∧
  getAveragePing (recordAll calls) "carol" = -1.
Proof.
  split; [reflexivity|]. split.
  - destruct (getAveragePing_window
                [("alice", 10); ("alice", 20); ("bob", 500); ("alice", 30);
                 ("alice", 40); ("alice", 50); ("alice", 60); ("alice", 71)] "alice")
      as (_ & _ & Hsome).
    { apply (bool_decide_unpack _). vm_compute. exact I. }
    destruct Hsome as (_ & -> & _); [vm_compute; discriminate|].
    vm_compute. reflexivity.
  - apply (getAveragePing_window
             [("alice", 10); ("alice", 20); ("bob", 500); ("alice", 30);
              ("alice", 40); ("alice", 50); ("alice", 60); ("alice", 71)] "carol").
    + apply (bool_decide_unpack _). vm_compute. exact I.
    + vm_compute. reflexivity.
Defined.

(** C8 as stated fails for large samples: the code sums and divides in
    binary64. Four samples 2^50 and one sample 2^50 + 2 have the mean
    2^50 + 0.4, which rounds to 2^50; the quotient computed by the code
    is 2^50 + 0.5 and [getAveragePing] returns 2^50 + 1, more than one
    half away from the mean. *)
Lemma getAveragePing_large_samples :
  let calls := [("alice", 2 ^ 50); ("alice", 2 ^ 50); ("alice", 2 ^ 50);
                ("alice", 2 ^ 50); ("alice", 2 ^ 50 + 2)] in
  let window := lastN 5 (samplesOf "alice" calls) in
  let avg := getAveragePing (recordAll calls) "alice" in
  window = calls.*2 ∧
  Math_round (mean window) = 2 ^ 50 ∧
  avg = 2 ^ 50 + 1 ∧
  (1 # 2 < Qabs (inject_Z avg - mean window))%Q.
Proof. by vm_compute. Qed.

End PingFacts.

(** ** Lobby formation *)

Module MatchmakingFacts.
Import Ping Matchmaking Samples.

Lemma insertByPing_perm (p : PlayerInfo) (l : list PlayerInfo) :
  insertByPing p l ≡ₚ p :: l.
Proof.
  induction l as [|q l IH]; cbn; [done|].
  case_match; [done|]. rewrite IH. apply perm_swap.
Qed.

Lemma sortByPing_perm (l : list PlayerInfo) : sortByPing l ≡ₚ l.
Proof.
  unfold sortByPing.
  assert (Hgen : ∀ acc, foldl (λ acc p, insertByPing p acc) acc l ≡ₚ l ++ acc).
  { induction l as [|a l IH]; intros acc; cbn; [done|].
    rewrite IH, insertByPing_perm. by rewrite Permutation_middle. }
  by rewrite Hgen, app_nil_r.
Qed.

(** The groups, laid end to end, are the sorted pool. *)
Lemma groupStep_concat (rest : list PlayerInfo) (groups : list (list PlayerInfo))
    (cur : list PlayerInfo) :
  concat (foldl groupStep (groups, cur) rest).1 ++ (foldl groupStep (groups, cur) rest).2
  = concat groups ++ cur ++ rest.
Proof.
  revert groups cur. induction rest as [|p rest IH]; intros groups cur; cbn [foldl].
  { cbn. by rewrite app_nil_r. }
  unfold groupStep at 2 4. destruct cur as [|base cur].
  { by rewrite IH. }
  case_match; rewrite IH.
  - by rewrite <- !app_assoc.
  - rewrite concat_app. cbn. by rewrite app_nil_r, <- !app_assoc.
Qed.

Lemma groups_concat (l : list PlayerInfo) :
  concat (groupPlayersByPing l) = sortByPing l.
Proof.
  unfold groupPlayersByPing. destruct (sortByPing l) as [|first rest]; [done|].
  pose proof (groupStep_concat rest [] [first]) as Hc.
  destruct (foldl groupStep ([], [first]) rest) as [groups cur]. cbn in Hc.
  destruct cur as [|c cur]; cbn [length Nat.ltb Nat.leb].
  - by rewrite app_nil_r in Hc.
  - rewrite concat_app. cbn. by rewrite app_nil_r.
Qed.

Lemma find_sublist {A} (f : list A → bool) (groups : list (list A)) (g : list A) :
  List.find f groups = Some g → g `sublist_of` concat groups.
Proof.
  induction groups as [|h groups IH]; cbn; [done|].
  destruct (f h).
  - intros [= ->]. by apply sublist_inserts_r.
  - intros Hg. by apply sublist_inserts_l, IH.
Qed.

Lemma mergeStep_sublist (n : nat) (sel g X : list PlayerInfo) :
  sel `sublist_of` X → mergeStep n sel g `sublist_of` X ++ g.
Proof.
  intros Hs. unfold mergeStep. case_match.
  - by apply sublist_inserts_r.
  - apply sublist_app; [done|].
    etrans; [apply sublist_take|apply sublist_filter].
Qed.

Lemma merge_sublist (n : nat) (groups : list (list PlayerInfo))
    (sel X : list PlayerInfo) :
  sel `sublist_of` X →
  foldl (mergeStep n) sel groups `sublist_of` X ++ concat groups.
Proof.
  revert sel X. induction groups as [|g groups IH]; intros sel X Hs; cbn.
  { by rewrite app_nil_r. }
  rewrite app_assoc. by apply IH, mergeStep_sublist.
Qed.

(** Whatever [selectPlayersForLobby] returns is drawn from the pool,
    each player at most once. *)
Lemma select_submseteq (pool : list PlayerInfo) (n : nat) :
  selectPlayersForLobby pool n ⊆+ pool.
Proof.
  unfold selectPlayersForLobby. case_match; [done|].
  trans (sortByPing pool); [|apply Permutation_submseteq, sortByPing_perm].
  rewrite <- groups_concat.
  apply sublist_submseteq. case_match eqn:Hfind.
  - etrans; [apply sublist_take|by eapply find_sublist].
  - apply (merge_sublist n _ [] []). done.
Qed.

Lemma deleteAll (sel pool : list PlayerInfo) :
  foldl (λ pool p, deletePlayer (p_id p) pool) pool sel
  = filter (λ q, p_id q ∉ p_id <$> sel) pool.
Proof.
  revert pool. induction sel as [|a sel IH]; intros pool; cbn [foldl].
  { induction pool as [|q pool IHp]; [done|].
    rewrite filter_cons_True by (cbn; apply not_elem_of_nil). by rewrite <- IHp. }
  rewrite IH. unfold deletePlayer. rewrite list_filter_filter.
  apply list_filter_iff. intros q. rewrite fmap_cons, not_elem_of_cons. tauto.
Qed.

Lemma notify_pool conns lobby (sel pool : list PlayerInfo) sent :
  (foldl (notifyStep conns lobby) (pool, sent) sel).1
  = foldl (λ pool p, deletePlayer (p_id p) pool) pool sel.
Proof.
  revert pool sent. induction sel as [|a sel IH]; intros pool sent; cbn [foldl]; [done|].
  unfold notifyStep at 2. by rewrite IH.
Qed.

(** [createLobby] on a non-empty selection stores the lobby under its id
    and deletes the selected ids from the pool. *)
Lemma createLobby_some env lobbyId now st (host : PlayerInfo) (rest : list PlayerInfo) :
  ∃ st' sent,
    createLobby env lobbyId now st (host :: rest) = Some (st', sent) ∧
    players st' = filter (λ q, p_id q ∉ p_id <$> host :: rest) (players st) ∧
    connections st' = connections st ∧
    ∃ lobby, lobbies st' = <[lobbyId := lobby]> (lobbies st) ∧
             l_id lobby = lobbyId ∧
             l_players lobby = p_id <$> host :: rest ∧
             l_hostId lobby = p_id host ∧
             l_maxPlayers lobby = LOBBY_SIZE.
Proof.
  unfold createLobby.
  pose proof (notify_pool (connections st)
    {| l_id := lobbyId; l_players := p_id <$> host :: rest; l_hostId := p_id host;
       l_maxPlayers := LOBBY_SIZE; l_createdAt := now; l_gameStarted := false;
       l_workerId := WORKER_ID env; l_region := WORKER_REGION env |}
    (host :: rest) (players st) []) as Hpool.
  destruct (foldl _ (players st, []) (host :: rest)) as [pool sent]. cbn [fst] in Hpool.
  eexists _, sent. split; [reflexivity|]. cbn [players connections lobbies].
  split; [by rewrite Hpool, deleteAll|]. split; [done|].
  eexists. split; [reflexivity|]. by cbn.
Qed.

(** Deleting the ids of [sel] removes exactly [length sel] players when
    [sel] is drawn from a pool with distinct ids. *)
Lemma delete_count (sel pool : list PlayerInfo) :
  sel ⊆+ pool → NoDup (p_id <$> pool) →
  (length (filter (λ q, p_id q ∉ p_id <$> sel) pool) + length sel)%nat = length pool
  ∧ NoDup (p_id <$> sel).
Proof.
  intros [k Hk]%submseteq_Permutation Hnd.
  rewrite Hk in Hnd |- *. rewrite fmap_app in Hnd.
  apply NoDup_app in Hnd as (Hsel & Hdisj & _).
  split; [|done].
  rewrite filter_app, !length_app.
  assert (filter (λ q, p_id q ∉ p_id <$> sel) sel = []) as ->.
  { assert (∀ l, (∀ q, q ∈ l → p_id q ∈ p_id <$> sel) →
                 filter (λ q, p_id q ∉ p_id <$> sel) l = []) as Hall.
    { induction l as [|q l IH]; intros Hin; [done|].
      rewrite filter_cons_False; [apply IH|].
      - intros r Hr. apply Hin. by right.
      - intros Hq. apply Hq, Hin. by left. }
    apply Hall. intros q Hq. by apply list_elem_of_fmap_2. }
  assert (filter (λ q, p_id q ∉ p_id <$> sel) k = k) as ->.
  { assert (∀ l : list PlayerInfo, (∀ q, q ∈ l → p_id q ∉ p_id <$> sel) →
                 filter (λ q, p_id q ∉ p_id <$> sel) l = l) as Hall.
    { induction l as [|q l IH]; intros Hin; [done|].
      rewrite filter_cons_True; [f_equal; apply IH|].
      - intros r Hr. apply Hin. by right.
      - apply Hin. by left. }
    apply Hall. intros q Hq Hs. eapply Hdisj; [exact Hs|].
    by apply list_elem_of_fmap_2. }
  cbn. lia.
Qed.

(** C5. A sweep over a pool with distinct ids always returns, and it
    either leaves the queue as it is or stores one lobby whose member list
    has exactly [LOBBY_SIZE = 4] distinct ids, all taken from the pool;
    exactly the players with those ids leave the pool, so the pool shrinks
    by exactly four. *)
Theorem tryCreateLobbies_capacity (env : Env) (lobbyId : string) (now : Z)
    (st : State) :
  NoDup (p_id <$> players st) →
  ∃ st' sent,
    tryCreateLobbies env lobbyId now st = Some (st', sent) ∧
    ((st' = st ∧ sent = []) ∨
     ∃ lobby,
       lobbies st' = <[lobbyId := lobby]> (lobbies st) ∧
       length (l_players lobby) = 4%nat ∧
       l_maxPlayers lobby = 4%nat ∧
       NoDup (l_players lobby) ∧
       (∀ pid, pid ∈ l_players lobby → pid ∈ p_id <$> players st) ∧
       players st' = filter (λ q, p_id q ∉ l_players lobby) (players st) ∧
       (length (players st') + 4)%nat = length (players st)).
Proof.
  intros Hnd. unfold tryCreateLobbies.
  case_match; [by eexists _, _; split; [|left]|].
  destruct (Nat.leb_spec LOBBY_SIZE
              (length (selectPlayersForLobby (players st) LOBBY_SIZE))) as [Hfull|Hshort];
    [|by eexists _, _; split; [|left]].
  set (sel := take LOBBY_SIZE (selectPlayersForLobby (players st) LOBBY_SIZE)).
  assert (Hlen : length sel = 4%nat) by (subst sel; by rewrite length_take_le).
  assert (Hsub : sel ⊆+ players st).
  { trans (selectPlayersForLobby (players st) LOBBY_SIZE);
      [apply sublist_submseteq, sublist_take|apply select_submseteq]. }
  destruct (delete_count sel (players st) Hsub Hnd) as [Hcount Hsel].
  destruct sel as [|host rest] eqn:Hs; [done|].
  destruct (createLobby_some env lobbyId now st host rest)
    as (st' & sent & -> & Hpool & _ & lobby & Hl & _ & Hp & _ & Hmax).
  exists st', sent. split; [done|]. right. exists lobby.
  rewrite Hp, Hpool, length_fmap, Hlen.
  repeat split; try done.
  - intros pid Hpid. eapply elem_of_submseteq; [exact Hpid|].
    by apply fmap_submseteq.
  - rewrite <- Hcount, Hlen. done.
Qed.

Lemma tryCreateLobbies_capacity_witness :
  ∃ st' sent,
    tryCreateLobbies env0 "L" 0 (queueOf pool5) = Some (st', sent) ∧
    ((st' = queueOf pool5 ∧ sent = []) ∨
     ∃ lobby,
       lobbies st' = <["L" := lobby]> (lobbies (queueOf pool5)) ∧
       length (l_players lobby) = 4%nat ∧
       l_maxPlayers lobby = 4%nat ∧
       NoDup (l_players lobby) ∧
       (∀ pid, pid ∈ l_players lobby → pid ∈ p_id <$> players (queueOf pool5)) ∧
       players st' = filter (λ q, p_id q ∉ l_players lobby) (players (queueOf pool5)) ∧
       (length (players st') + 4)%nat = length (players (queueOf pool5))).
Proof.
  apply (tryCreateLobbies_capacity env0 "L" 0 (queueOf pool5)).
  apply (bool_decide_unpack _). vm_compute. exact I.
Defined.

(** C4, as amended. Take waiting players [a b c d] with latencies
    10, 40, 90, 200 (tolerance 100). [groupPlayersByPing] puts [a b c] in
    one group and [d] in a group of its own. A pool of exactly four is
    nevertheless not grouped by the selection: [selectPlayersForLobby]
    returns a pool no larger than the capacity as it is, so the sweep
    forms a lobby of all four, [d] included. With a fifth player [e] of
    latency 95 in the pool the groups are [a b c e] and [d], and the
    sweep forms a lobby of exactly [a b c e]. *)
Theorem lobby_formation_by_latency (a b c d e : PlayerInfo) (env : Env)
    (lobbyId : string) (now : Z) (ls : gmap string LobbyInfo)
    (conns : gmap string WebSocket) :
  p_ping a = 10 → p_ping b = 40 → p_ping c = 90 → p_ping d = 200 → p_ping e = 95 →
  let queue pool := {| players := pool; lobbies := ls; connections := conns |} in
  groupPlayersByPing [a; b; c; d] = [[a; b; c]; [d]] ∧
  (∃ st' sent lobby,
     tryCreateLobbies env lobbyId now (queue [a; b; c; d]) = Some (st', sent) ∧
     lobbies st' !! lobbyId = Some lobby ∧
     l_players lobby = p_id <$> [a; b; c; d]) ∧
  groupPlayersByPing [a; b; c; d; e] = [[a; b; c; e]; [d]] ∧
  (∃ st' sent lobby,
     tryCreateLobbies env lobbyId now (queue [a; b; c; d; e]) = Some (st', sent) ∧
     lobbies st' !! lobbyId = Some lobby ∧
     l_players lobby = p_id <$> [a; b; c; e]).
Proof.
  intros Ha Hb Hc Hd He queue.
  destruct a as [ia ja pa ra ha], b as [ib jb pb rb hb], c as [ic jc pc rc hc],
    d as [id_ jd pd rd hd], e as [ie je pe re he].
  cbn [p_ping] in Ha, Hb, Hc, Hd, He. subst pa pb pc pd pe.
  assert (Hg4 : groupPlayersByPing
                  [Build_PlayerInfo ia ja 10 ra ha; Build_PlayerInfo ib jb 40 rb hb;
                   Build_PlayerInfo ic jc 90 rc hc; Build_PlayerInfo id_ jd 200 rd hd]
                = [[Build_PlayerInfo ia ja 10 ra ha; Build_PlayerInfo ib jb 40 rb hb;
                    Build_PlayerInfo ic jc 90 rc hc];
                   [Build_PlayerInfo id_ jd 200 rd hd]])
    by (vm_compute; reflexivity).
  assert (Hg5 : groupPlayersByPing
                  [Build_PlayerInfo ia ja 10 ra ha; Build_PlayerInfo ib jb 40 rb hb;
                   Build_PlayerInfo ic jc 90 rc hc; Build_PlayerInfo id_ jd 200 rd hd;
                   Build_PlayerInfo ie je 95 re he]
                = [[Build_PlayerInfo ia ja 10 ra ha; Build_PlayerInfo ib jb 40 rb hb;
                    Build_PlayerInfo ic jc 90 rc hc; Build_PlayerInfo ie je 95 re he];
                   [Build_PlayerInfo id_ jd 200 rd hd]])
    by (vm_compute; reflexivity).
  split; [exact Hg4|]. split; [|split; [exact Hg5|]].
  - destruct (createLobby_some env lobbyId now
                (queue [Build_PlayerInfo ia ja 10 ra ha; Build_PlayerInfo ib jb 40 rb hb;
                        Build_PlayerInfo ic jc 90 rc hc; Build_PlayerInfo id_ jd 200 rd hd])
                (Build_PlayerInfo ia ja 10 ra ha)
                [Build_PlayerInfo ib jb 40 rb hb; Build_PlayerInfo ic jc 90 rc hc;
                 Build_PlayerInfo id_ jd 200 rd hd])
      as (st' & sent & Hcreate & _ & _ & lobby & Hl & _ & Hp & _).
    exists st', sent, lobby. split; [exact Hcreate|].
    rewrite Hl. split; [apply lookup_insert_eq|exact Hp].
  - destruct (createLobby_some env lobbyId now
                (queue [Build_PlayerInfo ia ja 10 ra ha; Build_PlayerInfo ib jb 40 rb hb;
                        Build_PlayerInfo ic jc 90 rc hc; Build_PlayerInfo id_ jd 200 rd hd;
                        Build_PlayerInfo ie je 95 re he])
                (Build_PlayerInfo ia ja 10 ra ha)
                [Build_PlayerInfo ib jb 40 rb hb; Build_PlayerInfo ic jc 90 rc hc;
                 Build_PlayerInfo ie je 95 re he])
      as (st' & sent & Hcreate & _ & _ & lobby & Hl & _ & Hp & _).
    exists st', sent, lobby. split.
    + unfold tryCreateLobbies, selectPlayersForLobby. cbn [players queue length].
      rewrite Hg5. exact Hcreate.
    + rewrite Hl. split; [apply lookup_insert_eq|exact Hp].
Qed.

Lemma lobby_formation_by_latency_witness :
  groupPlayersByPing pool4 = [[waiting "p1" 10; waiting "p2" 40; waiting "p3" 90];
                              [waiting "p4" 200]] ∧
  ∃ st' sent lobby,
    tryCreateLobbies env0 "L" 0 (queueOf pool5) = Some (st', sent) ∧
    lobbies st' !! "L" = Some lobby ∧
    l_players lobby = ["p1"; "p2"; "p3"; "p5"].
Proof.
  destruct (lobby_formation_by_latency
              (waiting "p1" 10) (waiting "p2" 40) (waiting "p3" 90)
              (waiting "p4" 200) (waiting "p5" 95) env0 "L" 0 ∅ ∅
              eq_refl eq_refl eq_refl eq_refl eq_refl)
    as (Hg & _ & _ & Hfive).
  split; [exact Hg|exact Hfive].
Defined.

(** C4 as stated fails: with the four players alone in the pool the sweep
    does form a lobby of capacity four, and the player of latency 200 is
    one of its members. *)
Lemma four_player_pool_is_not_grouped :
  ∃ st' sent lobby,
    tryCreateLobbies env0 "L" 0 (queueOf pool4) = Some (st', sent) ∧
    lobbies st' !! "L" = Some lobby ∧
    l_players lobby = ["p1"; "p2"; "p3"; "p4"] ∧
    p_id (waiting "p4" 200) ∈ l_players lobby ∧
    players st' = [].
Proof.
  destruct (createLobby_some env0 "L" 0 (queueOf pool4) (waiting "p1" 10)
              [waiting "p2" 40; waiting "p3" 90; waiting "p4" 200])
    as (st' & sent & Hcreate & Hpool & _ & lobby & Hl & _ & Hp & _).
  exists st', sent, lobby. split; [exact Hcreate|].
  rewrite Hl, Hp, Hpool. split; [apply lookup_insert_eq|].
  split; [reflexivity|]. split; [|vm_compute; reflexivity].
  apply (bool_decide_unpack _). vm_compute. exact I.
Qed.

End MatchmakingFacts.

(** ** The worker registry and the scoring of workers *)

Module MeshFacts.
Import Mesh Samples.

Section Registry.
Context {N : Type}.

Lemma cleanup_elem (localWorkerId : string) (now : Z)
    (workers : list (string * WorkerInfo N)) (k : string) (w : WorkerInfo N) :
  (k, w) ∈ cleanupStaleWorkers localWorkerId now workers
  ↔ (k, w) ∈ workers ∧ ¬ (WORKER_TIMEOUT < now - w_lastSeen w ∧ k ≠ localWorkerId).
Proof. unfold cleanupStaleWorkers. rewrite list_elem_of_filter. cbn. tauto. Qed.

Lemma active_elem (now : Z) (workers : list (string * WorkerInfo N))
    (w : WorkerInfo N) :
  w ∈ activeWorkers now workers
  ↔ now - w_lastSeen w < WORKER_TIMEOUT ∧ ∃ k, (k, w) ∈ workers.
Proof.
  unfold activeWorkers. rewrite list_elem_of_filter, list_elem_of_fmap.
  split.
  - intros [Hf ([k w'] & -> & Hin)]. split; [done|]. by exists k.
  - intros [Hf [k Hin]]. split; [done|]. by exists (k, w).
Qed.

(** C7. When [listWorkers] runs at time [now1] (the filter reading the
    clock at [now2], not earlier), a record stored under an id other than
    the local node's and last seen more than 90 s before [now1] is deleted
    from the registry and is not in the returned list; a record seen
    within the 90 s stays in the registry; the local node's own record is
    never deleted by the cleanup. *)
Theorem handleGetWorkers_evicts_stale (localWorkerId : string) (now1 now2 : Z)
    (workers : list (string * WorkerInfo N)) :
  now1 ≤ now2 →
  let out := handleGetWorkers localWorkerId now1 now2 workers in
  (∀ k w, (k, w) ∈ workers → k ≠ localWorkerId → 90000 < now1 - w_lastSeen w →
     ((k, w) ∉ out.1) ∧ (w ∉ out.2)) ∧
  (∀ k w, (k, w) ∈ workers → now1 - w_lastSeen w ≤ 90000 → (k, w) ∈ out.1) ∧
  (∀ w, (localWorkerId, w) ∈ workers →
     (localWorkerId, w) ∈ cleanupStaleWorkers localWorkerId now1 workers ∧
     (localWorkerId, w) ∈ out.1).
Proof.
  intros Hclock out. subst out. unfold handleGetWorkers. cbn [fst snd].
  unfold WORKER_TIMEOUT in *. repeat split.
  - rewrite cleanup_elem. unfold WORKER_TIMEOUT. tauto.
  - rewrite active_elem. unfold WORKER_TIMEOUT. lia.
  - intros k w Hin Hfresh. apply cleanup_elem. unfold WORKER_TIMEOUT.
    split; [done|lia].
  - apply cleanup_elem. split; [done|]. tauto.
  - apply cleanup_elem. split; [done|]. tauto.
Qed.

End Registry.

(** At time 200000 the stale "w2" is gone from the registry and from the
    answer; the equally stale local node "w1" is still registered. *)
Lemma handleGetWorkers_evicts_stale_witness :
  let out := handleGetWorkers "w1" 200000 200000 registry in
  let w2 := meshWorker "w2" "us-east" 50000 0%float 0%float in
  let w1 := meshWorker "w1" "eu-west" 10000 0%float 0%float in
  ((("w2", w2) ∉ out.1) ∧ (w2 ∉ out.2)) ∧ (("w1", w1) ∈ out.1).
Proof.
  destruct (handleGetWorkers_evicts_stale "w1" 200000 200000 registry)
    as (Hstale & _ & Hlocal); [lia|].
  split.
  - apply Hstale; [|discriminate|vm_compute; reflexivity].
    unfold registry. apply list_elem_of_further, list_elem_of_here.
  - apply Hlocal. unfold registry. apply list_elem_of_here.
Defined.

Lemma float_base_with_bonus :
  add (lit (N := float) 100) (lit 50) = 150%float
  ∧ lit (N := float) 100 = 100%float ∧ lit (N := float) 1000 = 1000%float
  ∧ lit (N := float) 30 = 30%float.
Proof. vm_compute. repeat split. Qed.

(** C6, as amended. A region match raises the base of the score from
    100 to 150 before the same two penalties are subtracted, in the
    binary64 arithmetic of the code as in exact arithmetic. Read over the
    rationals, the region-matching one of two workers of identical load
    scores exactly 50 more, and of two workers that differ only in
    [activePlayers], by 1000, the busier one scores exactly 30 less. *)
Theorem scoreWorker_region_and_load :
  (∀ (playerRegion : string) (w1 w2 : WorkerInfo Q),
     w_region w1 = playerRegion → w_region w2 ≠ playerRegion →
     w_load w1 = w_load w2 →
     (scoreWorker playerRegion w1 == scoreWorker playerRegion w2 + 50)%Q) ∧
  (∀ (playerRegion : string) (w1 w2 : WorkerInfo Q),
     w_region w1 = w_region w2 →
     (cpuUsage (w_load w1) == cpuUsage (w_load w2))%Q →
     (activePlayers (w_load w1) == activePlayers (w_load w2) + 1000)%Q →
     (scoreWorker playerRegion w1 == scoreWorker playerRegion w2 - 30)%Q) ∧
  (∀ (playerRegion : string) (w1 w2 : WorkerInfo float),
     w_region w1 = playerRegion → w_region w2 ≠ playerRegion →
     w_load w1 = w_load w2 →
     let loadPenalty :=
       PrimFloat.mul (PrimFloat.div (activePlayers (w_load w1)) 1000) 30 in
     let cpuPenalty := PrimFloat.mul (cpuUsage (w_load w1)) 0x1.999999999999ap-3 in
     scoreWorker playerRegion w1
     = PrimFloat.sub (PrimFloat.sub 150 loadPenalty) cpuPenalty ∧
     scoreWorker playerRegion w2
     = PrimFloat.sub (PrimFloat.sub 100 loadPenalty) cpuPenalty).
Proof.
  split; [|split].
  - intros r w1 w2 Hr1 Hr2 Hload. unfold scoreWorker.
    rewrite bool_decide_eq_true_2, bool_decide_eq_false_2, Hload by done.
    cbn [lit lit_0_2 add sub mul div Q_Number]. ring.
  - intros r w1 w2 Hr Hcpu Hplayers. unfold scoreWorker. rewrite Hr.
    cbn [lit lit_0_2 add sub mul div Q_Number].
    rewrite Hcpu, Hplayers. case_bool_decide; field.
  - intros r w1 w2 Hr1 Hr2 Hload loadPenalty cpuPenalty.
    subst loadPenalty cpuPenalty. unfold scoreWorker.
    rewrite bool_decide_eq_true_2, bool_decide_eq_false_2, Hload by done.
    destruct float_base_with_bonus as (H150 & H100 & H1000 & H30).
    cbn [lit_0_2 add sub mul div float_Number] in *.
    by rewrite H150, H100, H1000, H30.
Qed.

(** Two workers of the same load, one of them in the player's region. *)
Lemma scoreWorker_region_and_load_witness :
  (scoreWorker "eu-west" (meshWorker "a" "eu-west" 0 (7 # 1)%Q (1 # 2)%Q)
   == scoreWorker "eu-west" (meshWorker "b" "us-east" 0 (7 # 1)%Q (1 # 2)%Q) + 50)%Q.
Proof.
  destruct scoreWorker_region_and_load as (Hregion & _).
  apply Hregion; [reflexivity|discriminate|reflexivity].
Defined.

(** C6 as stated fails in the arithmetic of the code. With 5 active
    players and 1 % CPU the two scores are 149.65000000000001 and
    99.649999999999991: their difference is not 50 and the lower one plus
    50 is not the higher one. With 8 against 1008 active players the
    scores are 99.760000000000005 and 69.759999999999991, which are not
    30 apart. *)
Lemma scoreWorker_binary64_not_exact :
  let near := meshWorker "a" "eu-west" 0 5%float 1%float in
  let far := meshWorker "b" "us-east" 0 5%float 1%float in
  let idle := meshWorker "c" "us-east" 0 8%float 0%float in
  let busy := meshWorker "d" "us-east" 0 1008%float 0%float in
  w_load near = w_load far ∧
  PrimFloat.eqb (PrimFloat.sub (scoreWorker "eu-west" near) (scoreWorker "eu-west" far))
                50 = false ∧
  PrimFloat.eqb (PrimFloat.add (scoreWorker "eu-west" far) 50)
                (scoreWorker "eu-west" near) = false ∧
  PrimFloat.eqb (PrimFloat.sub (scoreWorker "eu-west" idle) (scoreWorker "eu-west" busy))
                30 = false ∧
  PrimFloat.eqb (PrimFloat.sub (scoreWorker "eu-west" idle) 30)
                (scoreWorker "eu-west" busy) = false.
Proof. vm_compute. repeat split. Qed.

End MeshFacts.

(** ** Further properties of the packet validator *)

Module ValidationExtras.
Import Validation.

Lemma recordViolation_state (now : Z) (state : PlayerValidationState)
    (violation : ValidationViolation) :
  (recordViolation now state violation).1
  = set_violations (recent now (violations state ++ [violation])) state.
Proof. unfold recordViolation. repeat case_match; reflexivity. Qed.

(** Names the state and result of every [recordViolation] in sight. *)
Ltac name_records :=
  repeat match goal with
  | H : recordViolation ?n ?s ?v = (?s', ?r) |- _ =>
      let E := fresh "E" in
      pose proof (recordViolation_state n s v) as E;
      rewrite H in E; cbn [fst] in E; subst s'; clear H
  end.

Lemma recent_idem (now : Z) (log : list ValidationViolation) :
  recent now (recent now log) = recent now log.
Proof.
  unfold recent. rewrite list_filter_filter. apply list_filter_iff. tauto.
Qed.

Lemma recent_in_window (now : Z) (log : list ValidationViolation) (v : ValidationViolation) :
  v ∈ recent now log → now - 300000 < v_timestamp v.
Proof. unfold recent. rewrite list_elem_of_filter. tauto. Qed.

Lemma countSeverity_le (s : Severity) (log : list ValidationViolation) :
  (countSeverity s log ≤ length log)%nat.
Proof. unfold countSeverity. apply length_filter. Qed.

Lemma recent_length (now : Z) (log : list ValidationViolation) :
  (length (recent now log) ≤ length log)%nat.
Proof. unfold recent. apply length_filter. Qed.

(** A state with at most one logged entry cannot be escalated by one
    more. *)
Lemma recordViolation_short_log (now : Z) (state : PlayerValidationState)
    (violation : ValidationViolation) :
  (length (violations state) ≤ 1)%nat →
  valid (recordViolation now state violation).2 = true ∧
  (length (violations (recordViolation now state violation).1) ≤ 2)%nat.
Proof.
  intros Hlen. rewrite recordViolation_state. cbn [violations set_violations].
  pose proof (recent_length now (violations state ++ [violation])) as Hr.
  rewrite length_app in Hr. cbn [length] in Hr.
  split; [|lia].
  unfold recordViolation. cbn [violations set_violations].
  pose proof (countSeverity_le Violation (recent now (violations state ++ [violation]))).
  pose proof (countSeverity_le Warning (recent now (violations state ++ [violation]))).
  destruct (Nat.leb_spec 5 (countSeverity Violation
              (recent now (violations state ++ [violation])))); [lia|].
  destruct (Nat.leb_spec 3 (countSeverity Violation
              (recent now (violations state ++ [violation])))); [lia|].
  destruct (Nat.leb_spec 10 (countSeverity Warning
              (recent now (violations state ++ [violation])))); [lia|].
  reflexivity.
Qed.

Import Invariants.

Lemma tail_snoc_length {A} (l : list A) (a : A) :
  length (tail (l ++ [a])) = length l.
Proof. destruct l; cbn; [done|]. rewrite length_app. cbn. lia. Qed.

(** Unfolds the pipeline and splits it into its paths. *)
Ltac pipeline :=
  unfold validatePacket, validateTimestamp, validateSequence, validatePosition,
    validateShoot, MAX_SEQUENCE_GAP, MIN_SHOOT_INTERVAL, POSITION_HISTORY_SIZE;
  repeat case_match; name_records; simplify_eq;
  cbn [fst snd lastPosition lastShootTime lastSequence lastTimestamp positionHistory
       violations warningCount set_lastPosition set_lastShootTime set_lastSequence
       set_lastTimestamp set_positionHistory set_violations] in *.

Ltac arith_facts :=
  repeat match goal with
  | H : (_ <? _) = true |- _ => apply Z.ltb_lt in H
  | H : (_ <? _) = false |- _ => apply Z.ltb_ge in H
  | H : (_ =? _) = true |- _ => apply Z.eqb_eq in H
  | H : (_ =? _) = false |- _ => apply Z.eqb_neq in H
  | H : (_ <? _)%nat = true |- _ => apply Nat.ltb_lt in H
  | H : (_ <? _)%nat = false |- _ => apply Nat.ltb_ge in H
  end.

(** What one call of [validatePacket] can do to the sender's state. *)
Lemma validatePacket_sender (playerStates : gmap string PlayerValidationState)
    (now : Z) (packet : GamePacket) :
  let s0 := getPlayerState playerStates (playerId packet) in
  ∃ s1,
    (validatePacket playerStates now packet).1 = <[playerId packet := s1]> playerStates ∧
    warningCount s1 = warningCount s0 ∧
    (lastSequence s1 = lastSequence s0 ∨
     (lastSequence s1 = sequence packet ∧
      (lastSequence s0 = -1 ∨
       0 ≤ Double.sub (sequence packet) (Double.add (lastSequence s0) 1) ≤ 10))) ∧
    (lastTimestamp s1 = lastTimestamp s0 ∨
     (lastTimestamp s1 = timestamp packet ∧
      lastTimestamp s0 - 1000 ≤ timestamp packet ≤ now + 5000)) ∧
    (lastShootTime s1 = lastShootTime s0 ∨ lastShootTime s1 = now) ∧
    (historyOk s0 → historyOk s1).
Proof.
  intros s0. unfold validatePacket. cbv zeta.
  change (getPlayerState playerStates (playerId packet)) with s0. clearbody s0.
  unfold historyOk.
  pipeline; arith_facts;
    (eexists; split; [reflexivity|]);
    cbn [lastPosition lastShootTime lastSequence lastTimestamp positionHistory
         violations warningCount set_lastPosition set_lastShootTime set_lastSequence
         set_lastTimestamp set_positionHistory set_violations];
    (split; [reflexivity|]);
    (split; [first [by left | right; split; [reflexivity | lia]]|]);
    (split; [first [by left | right; split; [reflexivity | lia]]|]);
    (split; [first [by left | by right]|]);
    intros [Hnone Hlen]; unfold POSITION_HISTORY_SIZE in *;
    (split; [first [done | intros; simplify_eq; auto]|]);
    rewrite ?tail_snoc_length, ?length_app; cbn [length];
    repeat match goal with
    | H : None = None → ?l = [] |- _ => rewrite (H eq_refl) in *
    | Hn : lastPosition ?s = None, H : lastPosition ?s = None → _ = [] |- _ =>
        rewrite (H Hn) in *; clear H
    | H : context [length (_ ++ _)] |- _ => rewrite length_app in H; cbn [length] in H
    end; cbn [length]; lia.
Qed.

(** X1. One call of [validatePacket] touches the sender's entry only:
    the entry exists afterwards (it is created on the first packet), the
    entries of all other players are as before, and the sender's
    [warningCount] field is never changed. *)
Theorem validatePacket_touches_only_sender
    (playerStates : gmap string PlayerValidationState) (now : Z) (packet : GamePacket) :
  let after := (validatePacket playerStates now packet).1 in
  is_Some (after !! playerId packet) ∧
  (∀ other, other ≠ playerId packet → after !! other = playerStates !! other) ∧
  (∀ s1, after !! playerId packet = Some s1 →
     warningCount s1 = warningCount (getPlayerState playerStates (playerId packet))).
Proof.
  destruct (validatePacket_sender playerStates now packet) as (s1 & -> & Hw & _).
  cbn zeta. rewrite lookup_insert_eq. split; [by eexists|]. split.
  - intros other Hne. by rewrite lookup_insert_ne.
  - by intros ? [= <-].
Qed.

(** X2. Once a player's sequence counter is seeded, and as long as it
    is a safe integer (of magnitude below 2^53), a call of
    [validatePacket] never moves it back and never advances it by more
    than 11. *)
Theorem validatePacket_sequence_monotone
    (playerStates : gmap string PlayerValidationState) (now : Z) (packet : GamePacket)
    (s0 s1 : PlayerValidationState) :
  playerStates !! playerId packet = Some s0 →
  (validatePacket playerStates now packet).1 !! playerId packet = Some s1 →
  lastSequence s0 ≠ -1 →
  Double.isSafeInteger (lastSequence s0) →
  lastSequence s0 ≤ lastSequence s1 ≤ lastSequence s0 + 11.
Proof.
  intros Hs0 Hs1 Hseeded Hsafe.
  destruct (validatePacket_sender playerStates now packet) as (s & Heq & _ & Hseq & _).
  rewrite Heq, lookup_insert_eq in Hs1. injection Hs1 as ->.
  unfold getPlayerState in Hseq. rewrite Hs0 in Hseq. cbn [default from_option id] in Hseq.
  destruct (DoubleFacts.gap_compare (lastSequence s0) (sequence packet) Hsafe)
    as (_ & _ & _ & Hin & _).
  cbv zeta in Hin. lia.
Qed.

(** Without the bound the counter can jump by 12: from 2^53 + 2 the
    packet numbered 2^53 + 14 is accepted, the expected number
    2^53 + 3 being 2^53 + 4 in binary64. *)
Example validatePacket_sequence_jump_beyond_safe_integers :
  let states := {["alice" := Samples.stateWith [] (2 ^ 53 + 2)]} in
  let packet := Samples.actionPacket "alice" 1000 (2 ^ 53 + 14) in
  valid (validatePacket states 1000 packet).2 = true ∧
  lastSequence <$> (validatePacket states 1000 packet).1 !! "alice"
  = Some (2 ^ 53 + 2 + 12).
Proof. by vm_compute. Qed.


Lemma historyOk_initial : historyOk initialState.
Proof. split; cbn; [done|]. unfold POSITION_HISTORY_SIZE. lia. Qed.

Lemma runPackets_snoc (calls : list (Z * GamePacket)) (c : Z * GamePacket) :
  runPackets (calls ++ [c]) = (validatePacket (runPackets calls) c.1 c.2).1.
Proof. unfold runPackets. by rewrite foldl_app. Qed.

(** X4. In every state reached by any run of [validatePacket] calls the
    position history of a player holds at most 20 entries and is empty as
    long as no position was recorded, and [warningCount] is still [0]:
    the field is never maintained. *)
Theorem runPackets_invariant (calls : list (Z * GamePacket)) (pid : string)
    (s : PlayerValidationState) :
  runPackets calls !! pid = Some s →
  (length (positionHistory s) ≤ 20)%nat ∧
  (lastPosition s = None → positionHistory s = []) ∧
  warningCount s = 0.
Proof.
  assert (Hall : ∀ pid s, runPackets calls !! pid = Some s →
                          historyOk s ∧ warningCount s = 0).
  { induction calls as [|c calls IH] using rev_ind; [done|].
    intros q t. rewrite runPackets_snoc.
    destruct (validatePacket_sender (runPackets calls) c.1 c.2)
      as (s1 & -> & Hw & _ & _ & _ & Hh).
    destruct (decide (q = playerId c.2)) as [->|Hne].
    - rewrite lookup_insert_eq. intros [= <-].
      unfold getPlayerState in *.
      destruct (runPackets calls !! playerId c.2) as [s0|] eqn:Hs0; cbn in *.
      + destruct (IH _ _ Hs0). split; [auto|congruence].
      + split; [apply Hh, historyOk_initial|done].
    - rewrite lookup_insert_ne by done. apply IH. }
  intros Hs. destruct (Hall pid s Hs) as [[Hnone Hlen] Hw]. done.
Qed.

Lemma runPackets_invariant_witness :
  let calls := [(1000, Samples.actionPacket "alice" 1000 1);
                (1001, Samples.actionPacket "alice" 999999 2)] in
  ∃ s, runPackets calls !! "alice" = Some s ∧
       (length (positionHistory s) ≤ 20)%nat ∧ warningCount s = 0 ∧
       length (violations s) = 1%nat.
Proof.
  eexists. split; [vm_compute; reflexivity|].
  split; [|split; [|vm_compute; reflexivity]].
  - eapply (runPackets_invariant
              [(1000, Samples.actionPacket "alice" 1000 1);
               (1001, Samples.actionPacket "alice" 999999 2)] "alice").
    vm_compute. reflexivity.
  - eapply (runPackets_invariant
              [(1000, Samples.actionPacket "alice" 1000 1);
               (1001, Samples.actionPacket "alice" 999999 2)] "alice").
    vm_compute. reflexivity.
Defined.

Lemma validatePacket_sender_witness_state :
  validatePacket Samples.aliceAtFive 1000 (Samples.actionPacket "alice" 1000 8)
  = (<["alice" := set_lastTimestamp 1000 (Samples.stateWith [] 8)]> Samples.aliceAtFive, ok).
Proof. vm_compute. reflexivity. Qed.

Lemma validatePacket_sequence_monotone_witness :
  ∃ s1,
    (validatePacket Samples.aliceAtFive 1000 (Samples.actionPacket "alice" 1000 8)).1
      !! "alice" = Some s1 ∧
    5 ≤ lastSequence s1 ≤ 5 + 11.
Proof.
  eexists. split; [vm_compute; reflexivity|].
  apply (validatePacket_sequence_monotone Samples.aliceAtFive 1000
           (Samples.actionPacket "alice" 1000 8) (Samples.stateWith [] 5));
    [by vm_compute|by vm_compute|by vm_compute|].
  apply (bool_decide_unpack _). vm_compute. exact I.
Defined.


(** Like [name_records], keeping the result of each call. *)
Ltac keep_records :=
  repeat match goal with
  | H : recordViolation ?n ?s ?v = (?s', ?r) |- _ =>
      let E1 := fresh "E" in
      let E2 := fresh "E" in
      pose proof (recordViolation_state n s v) as E1;
      pose proof (recordViolation_short_log n s v) as E2;
      rewrite H in E1, E2; cbn [fst snd] in E1, E2; subst s'; clear H
  end.

Ltac pipeline_keep :=
  unfold validatePacket, validateTimestamp, validateSequence, validatePosition,
    validateShoot, MAX_SEQUENCE_GAP, MIN_SHOOT_INTERVAL, POSITION_HISTORY_SIZE;
  repeat case_match; keep_records; simplify_eq;
  cbn [fst snd lastPosition lastShootTime lastSequence lastTimestamp positionHistory
       violations warningCount set_lastPosition set_lastShootTime set_lastSequence
       set_lastTimestamp set_positionHistory set_violations valid ok negb] in *.

(** X5. The first packet of a player without validation state (a new
    player, or one whose state was cleared on disconnect) is never
    rejected: whatever it carries, the verdict has [valid = true]. *)
Theorem validatePacket_first_packet_passes
    (playerStates : gmap string PlayerValidationState) (now : Z) (packet : GamePacket) :
  valid (validatePacket (clearValidationState playerStates (playerId packet))
           now packet).2 = true.
Proof.
  unfold validatePacket, getPlayerState, clearValidationState.
  rewrite lookup_delete_eq. cbn [default]. cbv zeta.
  generalize (delete (playerId packet) playerStates). intros ps.
  assert (H0 : violations initialState = []) by reflexivity.
  assert (Hseq : lastSequence initialState = -1) by reflexivity.
  assert (Hpos : lastPosition initialState = None) by reflexivity.
  revert H0 Hseq Hpos. generalize initialState. intros s0 H0 Hseq Hpos.
  pipeline_keep; arith_facts; rewrite ?H0 in *; cbn [app] in *;
    try reflexivity; try lia; try congruence;
    repeat match goal with
    | H : (length ?l ≤ 1)%nat → _ |- _ =>
        let Hl := fresh in
        assert (Hl : (length l ≤ 1)%nat)
          by first [cbn [length]; lia
                   | etrans; [apply recent_length|cbn [length]; lia]];
        specialize (H Hl); destruct H
    end; try congruence;
    repeat match goal with
    | H : negb ?b = true |- _ => apply negb_true_iff in H
    | H : negb ?b = false |- _ => apply negb_false_iff in H
    end; try congruence.
Qed.

Ltac bool_facts :=
  repeat match goal with
  | H : negb ?b = true |- _ => apply negb_true_iff in H
  | H : negb ?b = false |- _ => apply negb_false_iff in H
  end.

Lemma accepted_in_order_sets_counter
    (playerStates : gmap string PlayerValidationState) (now : Z) (packet : GamePacket) :
  let s0 := getPlayerState playerStates (playerId packet) in
  (lastSequence s0 = -1 ∨
   0 ≤ Double.sub (sequence packet) (Double.add (lastSequence s0) 1) ≤ 10) →
  valid (validatePacket playerStates now packet).2 = true →
  ∃ s1,
    (validatePacket playerStates now packet).1 = <[playerId packet := s1]> playerStates ∧
    lastSequence s1 = sequence packet.
Proof.
  intros s0. unfold validatePacket. cbv zeta.
  change (getPlayerState playerStates (playerId packet)) with s0. clearbody s0.
  intros Hrange.
  pipeline; arith_facts; bool_facts; intros Hvalid;
    try congruence; try lia;
    (eexists; split; [reflexivity|]);
    cbn [lastSequence set_lastPosition set_lastShootTime set_lastSequence
         set_lastTimestamp set_positionHistory set_violations];
    first [reflexivity | lia].
Qed.

Lemma repeated_sequence_is_rejected
    (playerStates : gmap string PlayerValidationState) (now : Z) (packet : GamePacket)
    (s1 : PlayerValidationState) :
  playerStates !! playerId packet = Some s1 →
  lastSequence s1 = sequence packet → sequence packet ≠ -1 →
  Double.isSafeInteger (sequence packet) →
  valid (validatePacket playerStates now packet).2 = false.
Proof.
  intros Hs1 Hseq Hne Hsafe. rewrite <- Hseq in Hsafe.
  destruct (DoubleFacts.gap_compare (lastSequence s1) (sequence packet) Hsafe)
    as (_ & Hneg & Hbig & _).
  cbv zeta in Hneg, Hbig.
  unfold validatePacket, getPlayerState. rewrite Hs1.
  cbn [default from_option id]. cbv zeta.
  pipeline; arith_facts; bool_facts; try congruence; try reflexivity; lia.
Qed.

(** X6. With sequence numbers that are safe integers (of magnitude
    below 2^53), a packet that arrived in order (first packet, or at most
    10 ahead of the counter) and was let through cannot be let through a
    second time: presenting the same packet again, at any later or
    earlier clock reading, gives [valid = false]. *)
Theorem validatePacket_replay_is_rejected
    (playerStates : gmap string PlayerValidationState) (now1 now2 : Z)
    (packet : GamePacket) :
  let s0 := getPlayerState playerStates (playerId packet) in
  sequence packet ≠ -1 →
  Double.isSafeInteger (sequence packet) →
  Double.isSafeInteger (lastSequence s0) →
  (lastSequence s0 = -1 ∨ 0 ≤ sequence packet - (lastSequence s0 + 1) ≤ 10) →
  valid (validatePacket playerStates now1 packet).2 = true →
  valid (validatePacket (validatePacket playerStates now1 packet).1 now2 packet).2
  = false.
Proof.
  intros s0 Hne Hsafe Hsafe0 Hrange Hvalid.
  destruct (DoubleFacts.gap_compare (lastSequence s0) (sequence packet) Hsafe0)
    as (_ & _ & _ & Hin & _).
  cbv zeta in Hin.
  destruct (accepted_in_order_sets_counter playerStates now1 packet) as (s1 & -> & Hseq);
    [fold s0; tauto|done|].
  eapply repeated_sequence_is_rejected; [apply lookup_insert_eq|done|done|done].
Qed.

(** Without the bound a replay gets through: the first packet of a
    player, numbered 2^53, is accepted, and so is its copy. *)
Example validatePacket_replay_beyond_safe_integers :
  let packet := Samples.actionPacket "alice" 1000 (2 ^ 53) in
  valid (validatePacket ∅ 1000 packet).2 = true ∧
  valid (validatePacket (validatePacket ∅ 1000 packet).1 1000 packet).2 = true.
Proof. by vm_compute. Qed.

Lemma validatePacket_replay_is_rejected_witness :
  let packet := Samples.actionPacket "alice" 1000 8 in
  valid (validatePacket (validatePacket Samples.aliceAtFive 1000 packet).1 1500 packet).2
  = false.
Proof.
  apply (validatePacket_replay_is_rejected Samples.aliceAtFive 1000 1500
           (Samples.actionPacket "alice" 1000 8)).
  - vm_compute. discriminate.
  - apply (bool_decide_unpack _). vm_compute. exact I.
  - apply (bool_decide_unpack _). vm_compute. exact I.
  - right. vm_compute. split; discriminate.
  - vm_compute. reflexivity.
Defined.

(** X7. Right after [recordViolation] the summary of the stored state,
    read at the same clock value, shows the counts the decision was taken
    on. A [Ban] verdict is given exactly when the summary counts five or
    more violations, so every ban comes with [shouldBan]; and a verdict
    with [valid = false] means three violations or ten warnings are on
    record. *)
Theorem recordViolation_then_summary
    (playerStates : gmap string PlayerValidationState) (now : Z)
    (state : PlayerValidationState) (violation : ValidationViolation) (pid : string) :
  let out := recordViolation now state violation in
  let summary := getViolationSummary (<[pid := out.1]> playerStates) now pid in
  violationsCount summary = countSeverity Violation (violations out.1) ∧
  warnings summary = countSeverity Warning (violations out.1) ∧
  (severity out.2 = Some Ban ↔ (5 ≤ violationsCount summary)%nat) ∧
  (severity out.2 = Some Ban → shouldBan summary = true) ∧
  (valid out.2 = false ↔
     (3 ≤ violationsCount summary)%nat ∨ (10 ≤ warnings summary)%nat).
Proof.
  intros out summary. subst summary. unfold getViolationSummary.
  rewrite lookup_insert_eq. cbn [violationsCount warnings shouldBan].
  subst out. rewrite recordViolation_state. cbn [violations set_violations].
  rewrite recent_idem.
  unfold recordViolation. cbn [violations set_violations].
  set (vc := countSeverity Violation (recent now (violations state ++ [violation]))).
  set (wc := countSeverity Warning (recent now (violations state ++ [violation]))).
  split; [done|]. split; [done|].
  destruct (Nat.leb_spec 5 vc); [|destruct (Nat.leb_spec 3 vc);
    [|destruct (Nat.leb_spec 10 wc)]];
    cbn [snd severity valid orb andb]; repeat split; intros;
    try done; try lia; try congruence.
  all: try (destruct (Nat.leb_spec 5 wc); done).
  all: try (left; lia); try (right; lia).
Qed.

(** X8. [validatePosition] stores the received position as the last
    position on every path, flagged or not, and a flagged position is
    not added to the history. *)
Theorem validatePosition_always_moves (now : Z) (pos : PositionData)
    (state : PlayerValidationState) :
  let out := validatePosition now pos state in
  lastPosition out.1 = Some pos ∧
  (severity out.2 ≠ None → positionHistory out.1 = positionHistory state) ∧
  lastSequence out.1 = lastSequence state ∧
  lastShootTime out.1 = lastShootTime state.
Proof.
  unfold validatePosition. cbv zeta.
  repeat case_match; name_records; simplify_eq;
    cbn [fst snd lastPosition positionHistory lastSequence lastShootTime severity ok
         set_lastPosition set_positionHistory set_violations];
    repeat split; try done.
Qed.

(** A jump of 100 units in one packet is flagged, the player is moved
    to the new position all the same, and the history keeps its single
    entry. *)
Example validatePosition_teleport_moves :
  let state :=
    (validatePosition 1000 (MoreSamples.standingAt 0) initialState).1 in
  let out := validatePosition 1016 (MoreSamples.standingAt 100) state in
  severity out.2 = Some Warning ∧
  lastPosition out.1 = Some (MoreSamples.standingAt 100) ∧
  positionHistory out.1 = [MoreSamples.standingAt 0].
Proof. by vm_compute. Qed.

End ValidationExtras.

(** ** Further properties of the latency tracking *)

Module PingExtras.
Import Ping.

(** X9. Ping compatibility is symmetric; a negative (unknown) ping is
    compatible with every ping; two known pings are compatible exactly
    when they differ by at most 100; and compatibility is not transitive
    (0 with 100 and 100 with 200, but not 0 with 200). *)
Theorem arePingsCompatible_relation :
  (∀ a b, arePingsCompatible a b = arePingsCompatible b a) ∧
  (∀ a b, a < 0 → arePingsCompatible a b = true) ∧
  (∀ a b, 0 ≤ a → 0 ≤ b →
     (arePingsCompatible a b = true ↔ -100 ≤ a - b ≤ 100)) ∧
  (arePingsCompatible 0 100 = true ∧ arePingsCompatible 100 200 = true ∧
   arePingsCompatible 0 200 = false).
Proof.
  unfold arePingsCompatible, MAX_PING_DIFFERENCE.
  split; [|split; [|split; [|by vm_compute]]].
  - intros a b.
    destruct (Z.ltb_spec a 0), (Z.ltb_spec b 0); cbn [orb]; try reflexivity.
    replace (b - a) with (- (a - b)) by lia. by rewrite Z.abs_opp.
  - intros a b Ha. by destruct (Z.ltb_spec a 0); [|lia].
  - intros a b Ha Hb.
    destruct (Z.ltb_spec a 0), (Z.ltb_spec b 0); try lia. cbn [orb].
    rewrite Z.leb_le. lia.
Qed.

Lemma sum_bounds (l : list Z) (lo hi : Z) :
  (∀ x, x ∈ l → lo ≤ x ≤ hi) →
  lo * Z.of_nat (length l) ≤ foldr Z.add 0 l ≤ hi * Z.of_nat (length l).
Proof.
  induction l as [|a l IH]; intros Hall; cbn [foldr length]; [lia|].
  assert (lo ≤ a ≤ hi) by (apply Hall; by left).
  assert (lo * Z.of_nat (length l) ≤ foldr Z.add 0 l ≤ hi * Z.of_nat (length l))
    by (apply IH; intros; apply Hall; by right).
  lia.
Qed.

Lemma Math_round_bounds (q : Q) (lo hi : Z) :
  (inject_Z lo <= q)%Q → (q <= inject_Z hi)%Q → lo ≤ Math_round q ≤ hi.
Proof.
  intros Hlo Hhi. unfold Math_round. split.
  - rewrite <- (Qfloor_Z lo). apply Qfloor_resp_le. lra.
  - assert (Hh : Qfloor (inject_Z hi + (1 # 2)) = hi).
    { unfold Qfloor, Qplus, inject_Z. cbn.
      change (Z.pos (1 * 2)) with 2.
      replace (hi * 2 + 1 * 1) with (1 + hi * 2) by lia.
      rewrite Z.div_add by lia. reflexivity. }
    trans (Qfloor (inject_Z hi + (1 # 2))); [apply Qfloor_resp_le; lra|by rewrite Hh].
Qed.

Lemma mean_bounds (l : list Z) (lo hi : Z) :
  l ≠ [] → (∀ x, x ∈ l → lo ≤ x ≤ hi) →
  (inject_Z lo <= mean l)%Q ∧ (mean l <= inject_Z hi)%Q.
Proof.
  intros Hne Hall. pose proof (sum_bounds l lo hi Hall) as [Hlo Hhi].
  assert (Hn : (0 < inject_Z (Z.of_nat (length l)))%Q).
  { change 0%Q with (inject_Z 0). rewrite <- Zlt_Qlt. destruct l; [done|]. cbn. lia. }
  unfold mean. split.
  - apply Qle_shift_div_l; [done|]. rewrite <- inject_Z_mult, <- Zle_Qle. lia.
  - apply Qle_shift_div_r; [done|]. rewrite <- inject_Z_mult, <- Zle_Qle. lia.
Qed.

(** X10. Below 2^50 the average never leaves the range of the recorded
    samples: if all samples of a player lie between [lo] and [hi], of
    magnitude below 2^50, so does [getAveragePing]. In particular
    non-negative samples never average to the sentinel [-1]. *)
Theorem getAveragePing_within_samples (calls : list (string * Z)) (pid : string)
    (lo hi : Z) :
  samplesOf pid calls ≠ [] →
  - 2 ^ 50 < lo → hi < 2 ^ 50 →
  (∀ x, x ∈ samplesOf pid calls → lo ≤ x ≤ hi) →
  lo ≤ getAveragePing (recordAll calls) pid ≤ hi.
Proof.
  intros Hne Hlo50 Hhi50 Hall. unfold getAveragePing.
  rewrite PingFacts.recordAll_lookup, decide_False by done.
  set (window := lastN 5 (samplesOf pid calls)).
  assert (Hw : window ≠ []) by (apply PingFacts.lastN_nonempty; [lia|done]).
  assert (Hin : ∀ x, x ∈ window → lo ≤ x ≤ hi).
  { intros x Hx. apply Hall. eapply elem_of_sublist; [exact Hx|apply sublist_drop]. }
  destruct (Nat.eqb_spec (length window) 0) as [H0|_]; [by destruct window|].
  rewrite PingFacts.average_exact; [|done|apply PingFacts.lastN_length|].
  - destruct (mean_bounds window lo hi Hw Hin) as [Hlo Hhi].
    by apply Math_round_bounds.
  - apply Forall_forall. intros x Hx. specialize (Hin x Hx). lia.
Qed.

Lemma getAveragePing_within_samples_witness :
  0 ≤ getAveragePing (recordAll [("alice", 30); ("bob", 500); ("alice", 45)]) "alice" ≤ 45.
Proof.
  apply (getAveragePing_within_samples
           [("alice", 30); ("bob", 500); ("alice", 45)] "alice" 0 45).
  - vm_compute. discriminate.
  - lia.
  - lia.
  - intros x Hx. vm_compute in Hx.
    apply list_elem_of_In in Hx. cbn in Hx. intuition lia.
Defined.

(** Beyond 2^53 the sum is rounded at every step: five samples
    2^53 - 1 average to 2^53 - 2, below every one of them. *)
Example getAveragePing_below_every_sample :
  getAveragePing
    (recordAll (replicate 5 ("alice", 2 ^ 53 - 1))) "alice" = 2 ^ 53 - 2.
Proof. by vm_compute. Qed.

Lemma Math_round_integer (x : Z) : Math_round (inject_Z x / inject_Z 1) = x.
Proof.
  destruct (Math_round_bounds (inject_Z x / inject_Z 1) x x) as [Hlo Hhi].
  - assert (inject_Z x / inject_Z 1 == inject_Z x)%Q as -> by (field; done).
    apply Qle_refl.
  - assert (inject_Z x / inject_Z 1 == inject_Z x)%Q as -> by (field; done).
    apply Qle_refl.
  - lia.
Qed.

End PingExtras.

(** ** Further properties of grouping and selection *)

Module GroupingExtras.
Import Ping Matchmaking Invariants.

Lemma insertByPing_sorted (p : PlayerInfo) (l : list PlayerInfo) :
  StronglySorted byPing l → StronglySorted byPing (insertByPing p l).
Proof.
  induction l as [|q l IH]; intros Hs; cbn [insertByPing].
  { repeat constructor. }
  apply StronglySorted_inv in Hs as [Hl Hq].
  destruct (Z.ltb_spec (p_ping p) (p_ping q)) as [Hlt|Hge].
  - constructor; [by constructor|]. constructor; [unfold byPing; lia|].
    eapply Forall_impl; [exact Hq|]. unfold byPing. intros; lia.
  - constructor; [by apply IH|].
    rewrite (MatchmakingFacts.insertByPing_perm p l). by constructor.
Qed.

Lemma sortByPing_sorted (l : list PlayerInfo) : StronglySorted byPing (sortByPing l).
Proof.
  unfold sortByPing.
  assert (Hgen : ∀ acc, StronglySorted byPing acc →
            StronglySorted byPing (foldl (λ acc p, insertByPing p acc) acc l)).
  { induction l as [|a l IH]; intros acc Hacc; cbn [foldl]; [done|].
    by apply IH, insertByPing_sorted. }
  apply Hgen. constructor.
Qed.

Lemma compatible_refl (a : Z) : arePingsCompatible a a = true.
Proof.
  unfold arePingsCompatible, MAX_PING_DIFFERENCE.
  destruct (Z.ltb_spec a 0); cbn [orb]; [done|].
  rewrite Z.sub_diag. reflexivity.
Qed.

Lemma far_further (s0 b p : Z) :
  arePingsCompatible s0 b = false → s0 ≤ b → b ≤ p →
  arePingsCompatible s0 p = false.
Proof.
  unfold arePingsCompatible, MAX_PING_DIFFERENCE.
  destruct (Z.ltb_spec s0 0), (Z.ltb_spec b 0), (Z.ltb_spec p 0);
    cbn [orb]; try done; lia.
Qed.

Lemma group_loop (rest : list PlayerInfo) :
  ∀ (groups : list (list PlayerInfo)) (cur : list PlayerInfo) (s0 : PlayerInfo),
    StronglySorted byPing (concat groups ++ cur ++ rest) →
    loopOk s0 groups cur →
    loopOk s0 (foldl groupStep (groups, cur) rest).1 (foldl groupStep (groups, cur) rest).2.
Proof.
  induction rest as [|player rest IH]; intros groups cur s0 Hsorted Hok; [done|].
  cbn [foldl]. destruct Hok as (Hcur & Hgroups & Hfirst).
  destruct cur as [|base t]; [done|].
  assert (Hbase : p_ping base ≤ p_ping player).
  { eapply (StronglySorted_app_1_elem_of byPing (concat groups ++ [base])
              (t ++ player :: rest) base player).
    - by rewrite <- !app_assoc.
    - rewrite elem_of_app. right. by left.
    - rewrite elem_of_app. right. by left. }
  assert (Hfar : ∀ F gs, groups = F :: gs → head F = Some s0 → far s0 (base :: t) →
                         arePingsCompatible (p_ping s0) (p_ping player) = false).
  { intros F gs -> HF Hf. apply head_Some in HF as [F' ->].
    apply (far_further _ (p_ping base)); [apply Hf; by left| |done].
    eapply (StronglySorted_app_1_elem_of byPing [s0]
              (F' ++ concat gs ++ (base :: t) ++ player :: rest) s0 base).
    - revert Hsorted. cbn. by rewrite <- !app_assoc.
    - by left.
    - rewrite !elem_of_app. right. right. left. by left. }
  unfold groupStep at 2 4.
  destruct (arePingsCompatible (p_ping base) (p_ping player)) eqn:Hc.
  - apply IH.
    + revert Hsorted. by rewrite <- !app_assoc.
    + split; [|split; [done|]].
      * cbn. intros p [Hp|Hp]%elem_of_cons.
        { subst p. apply Hcur. by left. }
        apply elem_of_app in Hp as [Hp|Hp].
        { apply Hcur. by right. }
        apply list_elem_of_singleton in Hp as ->. done.
      * destruct groups as [|F gs]; [done|].
        destruct Hfirst as (HF & Hgs & Hfc). split; [done|]. split; [done|].
        intros p [Hp|Hp]%elem_of_app; [by apply Hfc|].
        apply list_elem_of_singleton in Hp as ->. by eapply Hfar.
  - apply IH.
    + revert Hsorted. rewrite concat_app. cbn. by rewrite app_nil_r, <- !app_assoc.
    + split; [|split].
      * cbn. intros p Hp. apply list_elem_of_singleton in Hp as ->.
        split; [lia|apply compatible_refl].
      * apply Forall_app. split; [done|]. by constructor.
      * destruct groups as [|F gs]; cbn [app].
        { split; [done|]. split; [constructor|].
          intros p Hp. apply list_elem_of_singleton in Hp as ->.
          cbn in Hfirst. by injection Hfirst as <-. }
        destruct Hfirst as (HF & Hgs & Hfc). split; [done|]. split.
        { apply Forall_app. split; [done|]. by constructor. }
        intros p Hp. apply list_elem_of_singleton in Hp as ->. by eapply Hfar.
Qed.

(** The groups of a non-empty pool: a first group with base [s0], all
    groups latency bands, and every later group out of reach of [s0]. *)
Lemma groups_shape (pool : list PlayerInfo) :
  pool ≠ [] →
  ∃ F gs s0,
    groupPlayersByPing pool = F :: gs ∧ head F = Some s0 ∧
    Forall band (F :: gs) ∧ Forall (far s0) gs.
Proof.
  intros Hne. unfold groupPlayersByPing.
  pose proof (sortByPing_sorted pool) as Hsorted.
  pose proof (MatchmakingFacts.sortByPing_perm pool) as Hperm.
  destruct (sortByPing pool) as [|first rest].
  { apply Permutation_nil_l in Hperm. done. }
  pose proof (group_loop rest [] [first] first) as Hloop.
  destruct (foldl groupStep ([], [first]) rest) as [groups cur].
  cbn [fst snd] in Hloop.
  destruct Hloop as (Hcur & Hgroups & Hfirst).
  { exact Hsorted. }
  { split; [|split; [constructor|done]].
    cbn. intros p Hp. apply list_elem_of_singleton in Hp as ->.
    split; [lia|apply compatible_refl]. }
  destruct cur as [|c cur]; [done|]. cbn [length Nat.ltb Nat.leb].
  destruct groups as [|F gs]; cbn [app].
  - exists (c :: cur), [], first.
    split; [done|]. split; [done|]. split; [by constructor|constructor].
  - destruct Hfirst as (HF & Hgs & Hfc).
    apply Forall_cons in Hgroups as [HbF Hbgs].
    exists F, (gs ++ [c :: cur]), first. split; [done|]. split; [done|]. split.
    + constructor; [done|]. apply Forall_app. split; [done|]. by constructor.
    + apply Forall_app. split; [done|]. by constructor.
Qed.

Lemma band_spread (g : list PlayerInfo) :
  band g → (∀ p, p ∈ g → 0 ≤ p_ping p) →
  ∀ p q, p ∈ g → q ∈ g → -100 ≤ p_ping p - p_ping q ≤ 100.
Proof.
  destruct g as [|base t]; [done|]. cbn [band]. intros Hband Hknown p q Hp Hq.
  assert (Hb : 0 ≤ p_ping base) by (apply Hknown; by left).
  destruct (Hband p Hp) as [Hp1 Hp2], (Hband q Hq) as [Hq1 Hq2].
  revert Hp2 Hq2. unfold arePingsCompatible, MAX_PING_DIFFERENCE.
  destruct (Z.ltb_spec (p_ping base) 0), (Z.ltb_spec (p_ping p) 0),
    (Z.ltb_spec (p_ping q) 0); cbn [orb]; lia.
Qed.


Lemma merge_length (n : nat) (groups : list (list PlayerInfo)) (sel : list PlayerInfo) :
  (length sel ≤ n)%nat → (length (foldl (mergeStep n) sel groups) ≤ n)%nat.
Proof.
  revert sel. induction groups as [|g groups IH]; intros sel Hsel; cbn [foldl]; [done|].
  apply IH. unfold mergeStep. case_match; [done|].
  rewrite length_app, length_take. lia.
Qed.

(** X12. [selectPlayersForLobby] never returns more than [lobbySize]
    players, and what it returns is drawn from the pool, no player
    twice. *)
Theorem selectPlayersForLobby_bounded (pool : list PlayerInfo) (lobbySize : nat) :
  selectPlayersForLobby pool lobbySize ⊆+ pool ∧
  (length (selectPlayersForLobby pool lobbySize) ≤ lobbySize)%nat.
Proof.
  split; [apply MatchmakingFacts.select_submseteq|].
  unfold selectPlayersForLobby.
  destruct (Nat.leb_spec (length pool) lobbySize); [done|].
  case_match.
  - rewrite length_take. lia.
  - apply merge_length. cbn. lia.
Qed.

Lemma merge_far (n : nat) (F : list PlayerInfo) (s0 : PlayerInfo)
    (gs : list (list PlayerInfo)) :
  head F = Some s0 → Forall (far s0) gs → foldl (mergeStep n) F gs = F.
Proof.
  intros HF. induction 1 as [|g gs Hg _ IH]; cbn [foldl]; [done|].
  assert (mergeStep n F g = F) as ->; [|done].
  unfold mergeStep. case_match; [done|].
  apply head_Some in HF as [F' ->].
  assert (filter (λ p, compatibleWithFirst (s0 :: F') p) g = []) as ->.
  { clear -Hg. induction g as [|p g IHg]; [done|].
    rewrite filter_cons_False.
    - apply IHg. intros q Hq. apply Hg. by right.
    - intros Hc. cbn in Hc. rewrite (Hg p) in Hc by (by left). done. }
  by rewrite take_nil, app_nil_r.
Qed.

(** What the selection returns for a pool larger than the lobby: the
    first [lobbySize] players of the first group that is large enough, or,
    when no group is, the first group as it is. *)
Lemma select_cases (pool : list PlayerInfo) (n : nat) :
  (n < length pool)%nat →
  (∃ g, g ∈ groupPlayersByPing pool ∧ (n ≤ length g)%nat ∧ band g ∧
        selectPlayersForLobby pool n = take n g) ∨
  (∃ F gs, groupPlayersByPing pool = F :: gs ∧ band F ∧
           (∀ g, g ∈ groupPlayersByPing pool → (length g < n)%nat) ∧
           selectPlayersForLobby pool n = F).
Proof.
  intros Hlen. unfold selectPlayersForLobby.
  destruct (Nat.leb_spec (length pool) n); [lia|].
  destruct (groups_shape pool) as (F & gs & s0 & Hgroups & HF & Hbands & Hfar).
  { by destruct pool; [cbn in Hlen; lia|]. }
  destruct (List.find _ (groupPlayersByPing pool)) as [g|] eqn:Hfind.
  - left. apply List.find_some in Hfind as [Hin Hfit].
    apply list_elem_of_In in Hin. apply Nat.leb_le in Hfit.
    exists g. repeat split; try done.
    rewrite Hgroups in Hin. by eapply Forall_forall in Hbands.
  - right. exists F, gs.
    assert (Hsmall : ∀ g, g ∈ groupPlayersByPing pool → (length g < n)%nat).
    { intros g Hg. apply list_elem_of_In in Hg.
      pose proof (List.find_none _ _ Hfind g Hg) as Hn. cbn in Hn.
      by apply Nat.leb_gt in Hn. }
    split; [done|]. split; [by apply Forall_cons in Hbands as [? _]|].
    split; [done|].
    rewrite Hgroups. cbn [foldl].
    assert (HFn : (length F < n)%nat) by (apply Hsmall; rewrite Hgroups; by left).
    assert (mergeStep n [] F = F) as ->.
    { unfold mergeStep. cbn [length app].
      destruct (Z.leb_spec (Z.of_nat n - Z.of_nat 0) 0); [lia|].
      assert (filter (λ p, compatibleWithFirst [] p) F = F) as ->.
      { clear. induction F as [|p F IH]; [done|].
        rewrite filter_cons_True by done. by rewrite IH. }
      apply take_ge. lia. }
    by eapply merge_far.
Qed.



(** X14. For a pool larger than the lobby in which every latency is
    measured (non-negative), any two selected players are within 100 ms
    of each other. *)
Theorem selectPlayersForLobby_spread (pool : list PlayerInfo) (lobbySize : nat) :
  (lobbySize < length pool)%nat →
  (∀ p, p ∈ pool → 0 ≤ p_ping p) →
  ∀ p q, p ∈ selectPlayersForLobby pool lobbySize →
         q ∈ selectPlayersForLobby pool lobbySize →
         -100 ≤ p_ping p - p_ping q ≤ 100.
Proof.
  intros Hlen Hknown.
  assert (Hin : ∀ g p, g ∈ groupPlayersByPing pool → p ∈ g → p ∈ pool).
  { intros g p Hg Hp.
    rewrite <- (MatchmakingFacts.sortByPing_perm pool), <- MatchmakingFacts.groups_concat.
    apply list_elem_of_In, in_concat. exists g.
    split; by apply list_elem_of_In. }
  destruct (select_cases pool lobbySize Hlen)
    as [(g & Hg & _ & Hband & ->)|(F & gs & Hgroups & Hband & _ & ->)].
  - intros p q Hp Hq. apply (band_spread g Hband).
    + intros r Hr. by eapply Hknown, Hin.
    + eapply elem_of_sublist; [exact Hp|apply sublist_take].
    + eapply elem_of_sublist; [exact Hq|apply sublist_take].
  - apply (band_spread F Hband). intros r Hr. eapply Hknown, Hin; [|exact Hr].
    rewrite Hgroups. by left.
Qed.

Lemma selectPlayersForLobby_spread_witness :
  -100 ≤ Ping.p_ping (Samples.waiting "p5" 95) - Ping.p_ping (Samples.waiting "p1" 10) ≤ 100.
Proof.
  apply (selectPlayersForLobby_spread Samples.pool5 4).
  - vm_compute. lia.
  - intros p Hp. apply list_elem_of_In in Hp. cbn in Hp.
    intuition (subst; cbn; lia).
  - apply list_elem_of_In. vm_compute. tauto.
  - apply list_elem_of_In. vm_compute. tauto.
Defined.

End GroupingExtras.

(** ** Further properties of the queue coordinator *)

Module QueueExtras.
Import Ping Matchmaking Queue.

Lemma getPlayer_set_eq (info : PlayerInfo) (pool : list PlayerInfo) :
  getPlayer (p_id info) (setPlayer info pool) = Some info.
Proof.
  unfold getPlayer. induction pool as [|q pool IH]; cbn.
  { by rewrite bool_decide_eq_true_2. }
  case_bool_decide as Hq; cbn.
  - by rewrite bool_decide_eq_true_2.
  - by rewrite bool_decide_eq_false_2.
Qed.

Lemma getPlayer_set_ne (info : PlayerInfo) (pool : list PlayerInfo) (pid : string) :
  pid ≠ p_id info → getPlayer pid (setPlayer info pool) = getPlayer pid pool.
Proof.
  intros Hne. unfold getPlayer. induction pool as [|q pool IH]; cbn.
  { by rewrite bool_decide_eq_false_2. }
  case_bool_decide as Hq; cbn.
  - rewrite bool_decide_eq_false_2 by done.
    by rewrite bool_decide_eq_false_2 by congruence.
  - by rewrite IH.
Qed.

Lemma getPlayer_Some (pid : string) (pool : list PlayerInfo) (p : PlayerInfo) :
  getPlayer pid pool = Some p → p ∈ pool ∧ p_id p = pid.
Proof.
  unfold getPlayer. intros [Hin Hid]%List.find_some.
  split; [by apply list_elem_of_In|]. by apply bool_decide_eq_true in Hid.
Qed.

Lemma getPlayer_None (pid : string) (pool : list PlayerInfo) :
  getPlayer pid pool = None ↔ pid ∉ p_id <$> pool.
Proof.
  unfold getPlayer. induction pool as [|q pool IH]; cbn.
  { split; [intros _; apply not_elem_of_nil|done]. }
  case_bool_decide as Hq.
  - split; [done|]. intros Hn. exfalso. apply Hn. subst. by left.
  - rewrite IH, not_elem_of_cons. split; [by intros ?; split; [congruence|]|tauto].
Qed.

Lemma setPlayer_ids (info : PlayerInfo) (pool : list PlayerInfo) :
  p_id <$> setPlayer info pool
  = if decide (p_id info ∈ p_id <$> pool) then p_id <$> pool
    else (p_id <$> pool) ++ [p_id info].
Proof.
  induction pool as [|q pool IH]; cbn.
  { rewrite decide_False; [done|apply not_elem_of_nil]. }
  case_bool_decide as Hq; cbn.
  - rewrite decide_True; [by rewrite Hq|]. rewrite Hq. by left.
  - rewrite IH. destruct (decide (p_id info ∈ p_id <$> pool)) as [Hin|Hn].
    + rewrite decide_True; [done|by right].
    + rewrite decide_False; [done|]. rewrite not_elem_of_cons. naive_solver.
Qed.

Lemma setPlayer_NoDup (info : PlayerInfo) (pool : list PlayerInfo) :
  NoDup (p_id <$> pool) → NoDup (p_id <$> setPlayer info pool).
Proof.
  intros Hnd. rewrite setPlayer_ids. case_decide; [done|].
  apply NoDup_app. split; [done|]. split; [|apply NoDup_singleton].
  intros x Hx Hx'. apply list_elem_of_singleton in Hx'. by subst.
Qed.

Lemma deletePlayer_NoDup (pid : string) (pool : list PlayerInfo) :
  NoDup (p_id <$> pool) → NoDup (p_id <$> deletePlayer pid pool).
Proof.
  intros Hnd. eapply sublist_NoDup; [exact Hnd|].
  apply fmap_sublist. unfold deletePlayer. apply sublist_filter.
Qed.

Lemma filter_none {A} (P : A → Prop) `{∀ x, Decision (P x)} (l : list A) :
  (∀ x, x ∈ l → ¬ P x) → filter P l = [].
Proof.
  induction l as [|a l IH]; intros Hall; [done|].
  rewrite filter_cons_False by (apply Hall; by left).
  apply IH. intros x Hx. apply Hall. by right.
Qed.

Lemma four_pool_sweep (env : Env) (lobbyId : string) (now : Z) (st : State) :
  length (players st) = 4%nat →
  ∃ st' sent lobby,
    tryCreateLobbies env lobbyId now st = Some (st', sent) ∧
    lobbies st' = <[lobbyId := lobby]> (lobbies st) ∧
    connections st' = connections st ∧
    l_players lobby = p_id <$> players st ∧
    Some (l_hostId lobby) = head (p_id <$> players st) ∧
    players st' = [].
Proof.
  intros Hlen. unfold tryCreateLobbies, selectPlayersForLobby, LOBBY_SIZE.
  rewrite !Hlen. cbn [Nat.ltb Nat.leb]. rewrite !Hlen. cbn [Nat.leb].
  rewrite take_ge by lia.
  destruct (players st) as [|host rest] eqn:Hpool; [done|].
  destruct (MatchmakingFacts.createLobby_some env lobbyId now st host rest)
    as (st' & sent & Hc & Hp & Hcn & lobby & Hl & _ & Hm & Hh & _).
  exists st', sent, lobby. split; [done|]. split; [done|]. split; [done|].
  split; [done|]. split; [by rewrite Hh|].
  rewrite Hp, Hpool. apply filter_none. intros x Hx Hn. apply Hn.
  by apply list_elem_of_fmap_2.
Qed.

(** X15. A pool of exactly four players always forms a lobby, whatever
    the latencies: the lobby lists the four in queue order, the longest
    waiting one is the host, and the pool is empty afterwards. *)
Theorem tryCreateLobbies_exactly_four (env : Env) (lobbyId : string) (now : Z)
    (st : State) :
  length (players st) = 4%nat →
  ∃ st' sent lobby,
    tryCreateLobbies env lobbyId now st = Some (st', sent) ∧
    lobbies st' = <[lobbyId := lobby]> (lobbies st) ∧
    l_players lobby = p_id <$> players st ∧
    Some (l_hostId lobby) = head (p_id <$> players st) ∧
    players st' = [].
Proof.
  intros Hlen.
  destruct (four_pool_sweep env lobbyId now st Hlen)
    as (st' & sent & lobby & H1 & H2 & _ & H3 & H4 & H5).
  by exists st', sent, lobby.
Qed.

Lemma tryCreateLobbies_exactly_four_witness :
  ∃ st' sent lobby,
    tryCreateLobbies Samples.env0 "L" 0 (Samples.queueOf Samples.pool4) = Some (st', sent) ∧
    lobbies st' = <["L" := lobby]> (lobbies (Samples.queueOf Samples.pool4)) ∧
    l_players lobby = p_id <$> players (Samples.queueOf Samples.pool4) ∧
    Some (l_hostId lobby) = head (p_id <$> players (Samples.queueOf Samples.pool4)) ∧
    players st' = [].
Proof.
  apply (tryCreateLobbies_exactly_four Samples.env0 "L" 0 (Samples.queueOf Samples.pool4)).
  reflexivity.
Defined.

Lemma notify_sent (conns : gmap string WebSocket) (lobby : LobbyInfo)
    (sel pool : list PlayerInfo) (sent : list (WebSocket * LobbyCreated)) :
  (foldl (notifyStep conns lobby) (pool, sent) sel).2
  = sent ++ omap (λ p, (λ ws, (ws, {| n_lobbyId := l_id lobby;
                                       n_players := l_players lobby;
                                       n_hostId := l_hostId lobby;
                                       n_isHost := bool_decide (p_id p = l_hostId lobby);
                                       n_roomId := "official-lobby-" +:+ l_id lobby |}))
                        <$> conns !! p_id p) sel.
Proof.
  revert pool sent. induction sel as [|a sel IH]; intros pool sent; cbn [foldl omap].
  { by rewrite app_nil_r. }
  unfold notifyStep at 2. rewrite IH.
  destruct (conns !! p_id a) as [ws|] eqn:Hc; simpl; rewrite Hc; simpl; [|done].
  by rewrite <- app_assoc.
Qed.

Lemma omap_fst {A B C} (f : A → option (B * C)) (g : A → option B) (l : list A) :
  (∀ a, fst <$> f a = g a) → (omap f l).*1 = omap g l.
Proof.
  intros Hfg. induction l as [|a l IH]; [done|]. csimpl.
  rewrite <- Hfg. destruct (f a) as [[b c]|]; csimpl; [by rewrite IH|done].
Qed.

(** X16. [createLobby] on a non-empty selection always returns, and the
    notices it writes go to the sockets of exactly the selected players
    that have one, in member order (a player who joined over REST gets
    none). Every notice carries the lobby id, the full member list, the
    host and the room name, and the host flag is set only on the notice
    written to the host's socket. *)
Theorem createLobby_notices (env : Env) (lobbyId : string) (now : Z) (st : State)
    (host : PlayerInfo) (rest : list PlayerInfo) :
  ∃ st' sent,
    createLobby env lobbyId now st (host :: rest) = Some (st', sent) ∧
    sent.*1 = omap (λ p, connections st !! p_id p) (host :: rest) ∧
    (∀ ws m, (ws, m) ∈ sent →
       n_lobbyId m = lobbyId ∧ n_players m = p_id <$> host :: rest ∧
       n_hostId m = p_id host ∧ n_roomId m = "official-lobby-" +:+ lobbyId) ∧
    (∀ ws m, (ws, m) ∈ sent → n_isHost m = true →
       connections st !! p_id host = Some ws).
Proof.
  unfold createLobby.
  match goal with |- context [foldl (notifyStep ?c ?l) ?a ?s] =>
    pose proof (notify_sent c l s (players st) []) as Hsent;
    destruct (foldl (notifyStep c l) a s) as [pool sent] eqn:Hfold
  end.
  cbn [snd app] in Hsent. cbn [l_id l_players l_hostId] in Hsent.
  eexists _, sent. split; [reflexivity|]. subst sent. split; [|split].
  - apply omap_fst. intros p. by destruct (connections st !! p_id p).
  - intros ws m (p & Hp & Hm)%list_elem_of_omap.
    destruct (connections st !! p_id p); cbn in Hm; [|done].
    by injection Hm as <- <-.
  - intros ws m (p & Hp & Hm)%list_elem_of_omap Hhost.
    destruct (connections st !! p_id p) as [ws'|] eqn:Hc; cbn in Hm; [|done].
    injection Hm as <- <-. cbn in Hhost.
    apply bool_decide_eq_true in Hhost. by rewrite <- Hhost.
Qed.

Lemma setPlayer_length (info : PlayerInfo) (pool : list PlayerInfo) :
  length (setPlayer info pool)
  = if decide (p_id info ∈ p_id <$> pool) then length pool else S (length pool).
Proof.
  rewrite <- (length_fmap p_id (setPlayer info pool)), setPlayer_ids.
  case_decide; rewrite ?length_app, length_fmap; cbn; lia.
Qed.

Lemma getPlayer_filter (P : PlayerInfo → Prop) `{∀ p, Decision (P p)}
    (pid : string) (pool : list PlayerInfo) (p : PlayerInfo) :
  getPlayer pid pool = Some p → P p → getPlayer pid (filter P pool) = Some p.
Proof.
  unfold getPlayer. induction pool as [|q pool IH]; [done|]. cbn [List.find].
  case_bool_decide as Hq.
  - intros [= ->] HP. rewrite filter_cons_True by done. cbn [List.find].
    by rewrite bool_decide_eq_true_2.
  - intros Hfind HP. rewrite filter_cons. case_decide; [|by apply IH].
    cbn [List.find]. rewrite bool_decide_eq_false_2 by done. by apply IH.
Qed.

(** A sweep always returns; it only removes players and leaves the
    sockets alone. *)
Lemma sweep_pool (env : Env) (lobbyId : string) (now : Z) (st : State) :
  ∃ st' sent,
    tryCreateLobbies env lobbyId now st = Some (st', sent) ∧
    players st' `sublist_of` players st ∧ connections st' = connections st ∧
    ((length (players st) < 4)%nat → st' = st ∧ sent = []).
Proof.
  unfold tryCreateLobbies, LOBBY_SIZE.
  destruct (Nat.ltb_spec (length (players st)) 4).
  { eexists _, _. by repeat split. }
  destruct (Nat.leb_spec 4 (length (selectPlayersForLobby (players st) 4)));
    [|eexists _, _; repeat split; try done; lia].
  destruct (take 4 (selectPlayersForLobby (players st) 4)) as [|host rest] eqn:Ht.
  { apply (f_equal length) in Ht. rewrite length_take_le in Ht by done. done. }
  destruct (MatchmakingFacts.createLobby_some env lobbyId now st host rest)
    as (st' & sent & -> & Hp & Hc & _).
  exists st', sent. split; [done|]. rewrite Hp.
  split; [apply sublist_filter|]. split; [done|lia].
Qed.

Lemma cleanup_fold (now : Z) (l : list PlayerInfo) :
  ∀ w : World,
    let gone := p_id <$> filter (λ p, HEARTBEAT_TIMEOUT < now - p_lastHeartbeat p) l in
    let w' := foldl (cleanupStep now) w l in
    players (queue w') = filter (λ p, p_id p ∉ gone) (players (queue w)) ∧
    lobbies (queue w') = lobbies (queue w) ∧
    validation w' = validation w ∧
    (∀ q, connections (queue w') !! q
          = if decide (q ∈ gone) then None else connections (queue w) !! q) ∧
    (∀ q, pingHistory w' !! q = if decide (q ∈ gone) then None else pingHistory w !! q).
Proof.
  induction l as [|a l IH]; intros w; cbn zeta.
  { cbn [foldl]. rewrite filter_nil, fmap_nil. repeat split; try done.
    symmetry. induction (players (queue w)) as [|p pool IHp]; [done|].
    rewrite filter_cons_True by apply not_elem_of_nil. by rewrite IHp. }
  cbn [foldl]. destruct (IH (cleanupStep now w a)) as (Hp & Hl & Hv & Hc & Hh).
  rewrite Hp, Hl, Hv. unfold cleanupStep in *. rewrite filter_cons.
  destruct (Z.ltb_spec HEARTBEAT_TIMEOUT (now - p_lastHeartbeat a)) as [Hs|Hs].
  - rewrite decide_True by done.
    cbn [queue players lobbies connections pingHistory validation] in *.
    split; [|split; [done|split; [done|split]]].
    + unfold deletePlayer. rewrite list_filter_filter. apply list_filter_iff.
      intros p. rewrite fmap_cons, not_elem_of_cons. tauto.
    + intros q. rewrite Hc, fmap_cons.
      destruct (decide (q = p_id a)) as [->|Hne].
      * rewrite lookup_delete_eq. rewrite (decide_True (P := _ ∈ _ :: _)) by (by left).
        by case_decide.
      * rewrite lookup_delete_ne by done.
        repeat case_decide; try done;
          exfalso; rewrite ?elem_of_cons in *; tauto.
    + intros q. rewrite Hh, fmap_cons. unfold clearPingHistory.
      destruct (decide (q = p_id a)) as [->|Hne].
      * rewrite lookup_delete_eq. rewrite (decide_True (P := _ ∈ _ :: _)) by (by left).
        by case_decide.
      * rewrite lookup_delete_ne by done.
        repeat case_decide; try done;
          exfalso; rewrite ?elem_of_cons in *; tauto.
  - rewrite decide_False by lia. done.
Qed.

Lemma ids_inj (pool : list PlayerInfo) (p q : PlayerInfo) :
  NoDup (p_id <$> pool) → p ∈ pool → q ∈ pool → p_id p = p_id q → p = q.
Proof.
  induction pool as [|a pool IH]; [by intros _ ?%elem_of_nil|].
  rewrite fmap_cons, NoDup_cons. intros [Ha Hnd] Hp Hq Heq.
  apply elem_of_cons in Hp as [->|Hp], Hq as [->|Hq]; try done.
  - exfalso. apply Ha. rewrite Heq. by apply list_elem_of_fmap_2.
  - exfalso. apply Ha. rewrite <- Heq. by apply list_elem_of_fmap_2.
  - by apply IH.
Qed.

(** X17. The ids in the waiting pool stay distinct under every queue
    operation: web-socket and REST join, leave, heartbeat, REST ping, the
    liveness cleanup, and the alarm (cleanup followed by a sweep). *)
Theorem queue_ids_stay_distinct (env : Env) (lobbyId : string) (now : Z) (w : World)
    (pid region : string) (ws : WebSocket) (request : PingRequest) :
  NoDup (p_id <$> players (queue w)) →
  (∀ w' sent, addPlayer env lobbyId now w pid ws region = Some (w', sent) →
     NoDup (p_id <$> players (queue w'))) ∧
  NoDup (p_id <$> players (queue (handleJoin now w pid region).1)) ∧
  NoDup (p_id <$> players (queue (removePlayer w pid))) ∧
  NoDup (p_id <$> players (queue (updateHeartbeat now w pid))) ∧
  NoDup (p_id <$> players (queue (handlePing now w request).1)) ∧
  NoDup (p_id <$> players (queue (cleanupInactivePlayers now w))) ∧
  (∀ w' sent, alarm env lobbyId now w = Some (w', sent) →
     NoDup (p_id <$> players (queue w'))).
Proof.
  intros Hnd.
  assert (Hsweep : ∀ w0 w' sent, NoDup (p_id <$> players (queue w0)) →
            sweep env lobbyId now w0 = Some (w', sent) →
            NoDup (p_id <$> players (queue w'))).
  { intros w0 w' sent Hnd0. unfold sweep.
    destruct (sweep_pool env lobbyId now (queue w0)) as (st' & s & -> & Hsub & _).
    intros [= <- _]. cbn. eapply sublist_NoDup; [exact Hnd0|by apply fmap_sublist]. }
  assert (Hclean : NoDup (p_id <$> players (queue (cleanupInactivePlayers now w)))).
  { unfold cleanupInactivePlayers.
    destruct (cleanup_fold now (players (queue w)) w) as (-> & _).
    eapply sublist_NoDup; [exact Hnd|]. apply fmap_sublist, sublist_filter. }
  split; [|split; [|split; [|split; [|split; [|split]]]]].
  - intros w' sent. unfold addPlayer.
    destruct (sweep _ _ _ _) as [[w1 s]|] eqn:Hs; [|done]. intros [= <- _].
    eapply Hsweep; [|exact Hs]. cbn. by apply setPlayer_NoDup.
  - cbn. by apply setPlayer_NoDup.
  - cbn. by apply deletePlayer_NoDup.
  - unfold updateHeartbeat. destruct (getPlayer _ _); [|done].
    cbn. by apply setPlayer_NoDup.
  - unfold handlePing. destruct (getPlayer _ _); [|done].
    cbn. by apply setPlayer_NoDup.
  - done.
  - intros w' sent. unfold alarm. by apply Hsweep.
Qed.

Lemma queue_ids_stay_distinct_witness :
  NoDup (p_id <$> players (queue (cleanupInactivePlayers 60000 MoreSamples.world3))).
Proof.
  apply (queue_ids_stay_distinct Samples.env0 "L" 60000 MoreSamples.world3 "p9" "eu-west"
           9%nat {| q_timestamp := 0; q_playerId := "p9" |}).
  apply (bool_decide_unpack _). vm_compute. exact I.
Defined.

(** X18. The REST join stores the player with unknown latency [-1] and
    both time stamps at [now]; a re-join replaces the record in place. The
    reported queue position is the size of the pool, every other player's
    record is as before, and no socket is registered for the player. *)
Theorem handleJoin_effect (now : Z) (w : World) (pid region : string) :
  let out := handleJoin now w pid region in
  let pool' := players (queue out.1) in
  getPlayer pid pool'
  = Some {| p_id := pid; p_joinedAt := now; p_ping := -1;
            p_region := if bool_decide (region = "") then "unknown" else region;
            p_lastHeartbeat := now |} ∧
  (∀ q, q ≠ pid → getPlayer q pool' = getPlayer q (players (queue w))) ∧
  j_queuePosition out.2 = length pool' ∧
  length pool'
  = (if decide (pid ∈ p_id <$> players (queue w)) then length (players (queue w))
     else S (length (players (queue w)))) ∧
  connections (queue out.1) = connections (queue w) ∧
  pingHistory out.1 = pingHistory w.
Proof.
  cbn. split; [|split; [|split; [done|split; [|done]]]].
  - apply (getPlayer_set_eq
             {| p_id := pid; p_joinedAt := now; p_ping := -1;
                p_region := if bool_decide (region = "") then "unknown" else region;
                p_lastHeartbeat := now |}).
  - intros q Hq. by apply getPlayer_set_ne.
  - apply setPlayer_length.
Qed.

(** X19. A web-socket join into a pool of at most three leaves at most
    three waiting: the joiner is told the pool size, and if that makes
    four the join itself forms a lobby of exactly those four and empties
    the pool; otherwise nobody else is notified. *)
Theorem addPlayer_drains_at_four (env : Env) (lobbyId : string) (now : Z) (w : World)
    (pid region : string) (ws : WebSocket) :
  (length (players (queue w)) ≤ 3)%nat →
  let pool' :=
    setPlayer {| p_id := pid; p_joinedAt := now; p_ping := -1; p_region := region;
                 p_lastHeartbeat := now |} (players (queue w)) in
  ∃ w' sent,
    addPlayer env lobbyId now w pid ws region
    = Some (w', (ws, joined pid (length pool')) :: sent) ∧
    (length (players (queue w')) ≤ 3)%nat ∧
    (length pool' = 4%nat →
       players (queue w') = [] ∧
       ∃ lobby, lobbies (queue w') !! lobbyId = Some lobby ∧
                l_players lobby = p_id <$> pool') ∧
    ((length pool' < 4)%nat →
       players (queue w') = pool' ∧ sent = [] ∧
       lobbies (queue w') = lobbies (queue w)).
Proof.
  intros Hlen pool'.
  pose proof (setPlayer_length
    {| p_id := pid; p_joinedAt := now; p_ping := -1; p_region := region;
       p_lastHeartbeat := now |} (players (queue w))) as Hl.
  fold pool' in Hl.
  assert (Hl4 : (length pool' ≤ 4)%nat) by (case_decide; lia).
  unfold addPlayer, sweep. fold pool'. cbn [queue with_queue players].
  destruct (decide (length pool' = 4%nat)) as [H4|Hn4].
  - destruct (four_pool_sweep env lobbyId now
                {| players := pool'; lobbies := lobbies (queue w);
                   connections := <[pid := ws]> (connections (queue w)) |} H4)
      as (st' & sent & lobby & Hs & Hlob & _ & Hp & _ & Hempty).
    cbn [players lobbies] in *. rewrite Hs.
    eexists _, _. split; [reflexivity|]. cbn [queue with_queue].
    rewrite Hempty. split; [cbn; lia|]. split; [|lia].
    intros _. split; [done|]. exists lobby. rewrite Hlob.
    split; [apply lookup_insert_eq|done].
  - destruct (sweep_pool env lobbyId now
                {| players := pool'; lobbies := lobbies (queue w);
                   connections := <[pid := ws]> (connections (queue w)) |})
      as (st' & sent & Hs & _ & _ & Hsmall).
    cbn [players] in *. destruct Hsmall as [-> ->]; [lia|]. rewrite Hs.
    eexists _, _. split; [reflexivity|]. cbn. split; [lia|]. split; [lia|done].
Qed.

Lemma addPlayer_drains_at_four_witness :
  ∃ w' sent,
    addPlayer Samples.env0 "L" 60000 MoreSamples.world3 "p4" 4%nat "us-east"
    = Some (w', (4%nat, joined "p4" 4) :: sent) ∧
    players (queue w') = [] ∧
    ∃ lobby, lobbies (queue w') !! "L" = Some lobby ∧
             l_players lobby = ["p1"; "p2"; "p3"; "p4"].
Proof.
  destruct (addPlayer_drains_at_four Samples.env0 "L" 60000 MoreSamples.world3
              "p4" "us-east" 4%nat) as (w' & sent & Ha & _ & Hfour & _).
  { vm_compute. lia. }
  exists w', sent. split; [exact Ha|]. apply Hfour. reflexivity.
Defined.

Lemma filter_ext_in {A} (P Q : A → Prop) `{∀ x, Decision (P x)} `{∀ x, Decision (Q x)}
    (l : list A) :
  (∀ x, x ∈ l → P x ↔ Q x) → filter P l = filter Q l.
Proof.
  induction l as [|a l IH]; intros Hall; [done|].
  rewrite !filter_cons. rewrite IH by (intros x Hx; apply Hall; by right).
  destruct (Hall a) as [H1 H2]; [by left|].
  repeat case_decide; try done; tauto.
Qed.

Lemma cleanupInactivePlayers_closed (now : Z) (w : World) :
  NoDup (p_id <$> players (queue w)) →
  players (queue (cleanupInactivePlayers now w))
  = filter (λ p, now - p_lastHeartbeat p ≤ 30000) (players (queue w)) ∧
  (∀ q,
     q ∈ p_id <$> filter (λ p, 30000 < now - p_lastHeartbeat p) (players (queue w))
     ↔ ∃ p, p ∈ players (queue w) ∧ p_id p = q ∧ 30000 < now - p_lastHeartbeat p).
Proof.
  intros Hnd. unfold cleanupInactivePlayers.
  destruct (cleanup_fold now (players (queue w)) w) as (Hp & _).
  unfold HEARTBEAT_TIMEOUT in *.
  assert (Hgone : ∀ q,
    q ∈ p_id <$> filter (λ p, 30000 < now - p_lastHeartbeat p) (players (queue w))
    ↔ ∃ p, p ∈ players (queue w) ∧ p_id p = q ∧ 30000 < now - p_lastHeartbeat p).
  { intros q. rewrite list_elem_of_fmap. split.
    - intros (p & -> & [Hs Hin]%list_elem_of_filter). by exists p.
    - intros (p & Hin & <- & Hs). exists p. split; [done|].
      by apply list_elem_of_filter. }
  split; [|done]. rewrite Hp.
  apply filter_ext_in. intros p Hin.
  rewrite Hgone. split.
  - intros Hne. destruct (Z.le_gt_cases (now - p_lastHeartbeat p) 30000); [done|].
    exfalso. apply Hne. exists p. split; [done|]. split; [done|lia].
  - intros Hfresh (p' & Hin' & Hid & Hs).
    assert (p' = p) as -> by (eapply ids_inj; eauto). lia.
Qed.

(** X20. The liveness cleanup keeps exactly the players whose last
    heartbeat is at most 30 s old, in queue order. The socket and the ping
    history of every removed player are deleted, those of everyone else
    are untouched; the validation states and the lobbies are not
    touched. *)
Theorem cleanupInactivePlayers_effect (now : Z) (w : World) :
  NoDup (p_id <$> players (queue w)) →
  let w' := cleanupInactivePlayers now w in
  let expired q :=
    ∃ p, p ∈ players (queue w) ∧ p_id p = q ∧ 30000 < now - p_lastHeartbeat p in
  players (queue w')
  = filter (λ p, now - p_lastHeartbeat p ≤ 30000) (players (queue w)) ∧
  (∀ q, expired q →
     connections (queue w') !! q = None ∧ pingHistory w' !! q = None) ∧
  (∀ q, ¬ expired q →
     connections (queue w') !! q = connections (queue w) !! q ∧
     pingHistory w' !! q = pingHistory w !! q) ∧
  validation w' = validation w ∧
  lobbies (queue w') = lobbies (queue w).
Proof.
  intros Hnd w' expired. subst w'.
  destruct (cleanupInactivePlayers_closed now w Hnd) as (Hp & Hgone).
  unfold cleanupInactivePlayers in *.
  destruct (cleanup_fold now (players (queue w)) w) as (_ & Hl & Hv & Hc & Hh).
  unfold HEARTBEAT_TIMEOUT in *.
  split; [done|]. split; [|split; [|done]].
  - intros q Hq. rewrite Hc, Hh. apply Hgone in Hq. by rewrite !decide_True.
  - intros q Hq. rewrite Hc, Hh. unfold expired in Hq. rewrite <- Hgone in Hq.
    by rewrite !decide_False.
Qed.

Lemma cleanupInactivePlayers_effect_witness :
  players (queue (cleanupInactivePlayers 60000 MoreSamples.world3))
  = [MoreSamples.beat "p1" 10 50000; MoreSamples.beat "p3" 90 50000].
Proof.
  destruct (cleanupInactivePlayers_effect 60000 MoreSamples.world3) as (-> & _).
  - apply (bool_decide_unpack _). vm_compute. exact I.
  - vm_compute. reflexivity.
Defined.

(** X21. A heartbeat keeps a waiting player in the queue: after
    [updateHeartbeat] at [now], a cleanup run no more than 30 s later
    still finds the player, with the new heartbeat time. A heartbeat for
    an unknown player changes nothing. *)
Theorem heartbeat_keeps_alive (now later : Z) (w : World) (pid : string) :
  NoDup (p_id <$> players (queue w)) →
  later - now ≤ 30000 →
  (∀ player, getPlayer pid (players (queue w)) = Some player →
     ∃ player',
       getPlayer pid (players (queue (cleanupInactivePlayers later
                                        (updateHeartbeat now w pid))))
       = Some player' ∧
       p_lastHeartbeat player' = now ∧ p_ping player' = p_ping player ∧
       p_joinedAt player' = p_joinedAt player) ∧
  (getPlayer pid (players (queue w)) = None → updateHeartbeat now w pid = w).
Proof.
  intros Hnd Hsoon. split.
  - intros player Hget. unfold updateHeartbeat. rewrite Hget.
    destruct (getPlayer_Some _ _ _ Hget) as [_ Hid].
    set (player' := {| p_id := p_id player; p_joinedAt := p_joinedAt player;
                       p_ping := p_ping player; p_region := p_region player;
                       p_lastHeartbeat := now |}).
    set (w1 := with_queue _ w).
    destruct (cleanupInactivePlayers_closed later w1) as (-> & _).
    { subst w1. cbn. by apply setPlayer_NoDup. }
    exists player'. split; [|done].
    apply getPlayer_filter; [|cbn; lia].
    subst w1. cbn. rewrite <- Hid. apply (getPlayer_set_eq player').
  - intros Hnone. unfold updateHeartbeat. by rewrite Hnone.
Qed.

Lemma heartbeat_keeps_alive_witness :
  ∃ player',
    getPlayer "p2" (players (queue (cleanupInactivePlayers 60000
                                      (updateHeartbeat 59000 MoreSamples.world3 "p2"))))
    = Some player' ∧
    p_lastHeartbeat player' = 59000.
Proof.
  destruct (heartbeat_keeps_alive 59000 60000 MoreSamples.world3 "p2") as [Hkeep _].
  - apply (bool_decide_unpack _). vm_compute. exact I.
  - lia.
  - destruct (Hkeep (MoreSamples.beat "p2" 40 0)) as (p' & Hget & Hhb & _).
    + vm_compute. reflexivity.
    + by exists p'.
Defined.

(** X22. The REST ping of a player who is not in the queue records
    nothing. For a queued player it appends the round trip, the binary64
    difference of the clock and the request's timestamp (their exact
    difference when that is of magnitude at most 2^53), to the player's
    history and stores [getAveragePing] of the new history as the
    player's latency, which is the round trip itself when it is the
    player's first sample and below 2^50; the other players' records are
    not changed. *)
Theorem handlePing_effect (now : Z) (w : World) (request : PingRequest) :
  let pid := q_playerId request in
  let out := handlePing now w request in
  let sample := Double.sub now (q_timestamp request) in
  (getPlayer pid (players (queue w)) = None → out.1 = w) ∧
  (Z.abs (now - q_timestamp request) ≤ 2 ^ 53 → sample = now - q_timestamp request) ∧
  (∀ player, getPlayer pid (players (queue w)) = Some player →
     pingHistory out.1 = recordPingSample (pingHistory w) pid sample ∧
     (∃ player',
        getPlayer pid (players (queue out.1)) = Some player' ∧
        p_ping player' = getAveragePing (pingHistory out.1) pid ∧
        (pingHistory w !! pid = None → Z.abs (now - q_timestamp request) < 2 ^ 50 →
         p_ping player' = now - q_timestamp request)) ∧
     (∀ q, q ≠ pid →
        getPlayer q (players (queue out.1)) = getPlayer q (players (queue w)))).
Proof.
  intros pid out sample. subst out. unfold handlePing. fold pid sample.
  split; [by intros ->|]. split; [apply DoubleFacts.sub_safe|].
  intros player Hget. rewrite Hget. cbn [fst pingHistory queue players with_players].
  destruct (getPlayer_Some _ _ _ Hget) as [_ Hid].
  split; [done|]. split.
  - eexists. split.
    + rewrite <- Hid. apply (getPlayer_set_eq
        {| p_id := p_id player; p_joinedAt := p_joinedAt player;
           p_ping := getAveragePing
                       (recordPingSample (pingHistory w) (p_id player) sample)
                       (p_id player);
           p_region := p_region player;
           p_lastHeartbeat := p_lastHeartbeat player |}).
    + cbn [p_ping]. rewrite Hid. split; [done|].
      intros Hnone Hsmall. unfold getAveragePing, recordPingSample.
      rewrite Hnone, lookup_insert_eq. cbn [default app length Nat.ltb Nat.leb
        PING_SAMPLE_COUNT Nat.eqb].
      subst sample. rewrite DoubleFacts.sub_safe by lia.
      change (Z.of_nat 1) with (Z.of_nat (length [now - q_timestamp request])).
      rewrite (PingFacts.average_exact [now - q_timestamp request]);
        [|done|cbn; lia|by apply Forall_singleton].
      unfold mean. cbn [foldr length]. rewrite Z.add_0_r.
      apply PingExtras.Math_round_integer.
  - intros q Hq. apply getPlayer_set_ne. cbn. congruence.
Qed.

(** "p2" is queued with one sample of 40 on record; a ping answered after
    100 ms puts 100 on record and 70 in the player's entry. *)
Lemma handlePing_effect_witness :
  let request := {| q_timestamp := 900; q_playerId := "p2" |} in
  let out := handlePing 1000 MoreSamples.world3 request in
  pingHistory out.1 !! "p2" = Some [40; 100] ∧
  ∃ player', getPlayer "p2" (players (queue out.1)) = Some player' ∧
             p_ping player' = 70.
Proof.
  destruct (handlePing_effect 1000 MoreSamples.world3
              {| q_timestamp := 900; q_playerId := "p2" |}) as (_ & _ & Hqueued).
  destruct (Hqueued (MoreSamples.beat "p2" 40 0)) as (Hhist & (p' & Hget & Hping & _) & _);
    [by vm_compute|].
  cbv zeta. split.
  - rewrite Hhist. by vm_compute.
  - exists p'. split; [done|]. rewrite Hping. by vm_compute.
Defined.

End QueueExtras.

(** ** Further properties of the lobby coordinator *)

Module LobbyExtras.
Import Validation Lobby LobbyOps.

Lemma filter_twice {A} (P : A → Prop) `{∀ x, Decision (P x)} (l : list A) :
  filter P (filter P l) = filter P l.
Proof. rewrite list_filter_filter. apply list_filter_iff. tauto. Qed.

(** X23. When a player disconnects, the player's socket entry and
    validation state are removed and every other player's are kept. With
    a lobby initialised, the player leaves the member list and each
    remaining connected member is sent exactly one disconnect notice
    (an [action] packet with sequence 0 in the player's name); no socket
    is closed. Without a lobby nobody is notified. *)
Theorem handlePlayerDisconnect_effect (now : Z) (st : LobbyState)
    (playerStates : gmap string PlayerValidationState) (pid : string) :
  let out := handlePlayerDisconnect now st playerStates pid in
  let st' := out.1.1 in
  let evs := out.2 in
  connections st' = filter (λ c, c.1 ≠ pid) (connections st) ∧
  out.1.2 !! pid = None ∧
  (∀ q, q ≠ pid → out.1.2 !! q = playerStates !! q) ∧
  (∀ l, lobby st = Some l →
     ∃ l', lobby st' = Some l' ∧
           Matchmaking.l_players l' = filter (λ id, id ≠ pid) (Matchmaking.l_players l) ∧
           relayedTo evs
           = (λ ws, (ws, disconnectPacket now pid)) <$> others (connections st) pid ∧
           closed evs = [] ∧ kickedSockets evs = []) ∧
  (lobby st = None → lobby st' = None ∧ evs = []).
Proof.
  unfold handlePlayerDisconnect, clearValidationState.
  destruct (lobby st) as [l|]; cbn [fst snd connections lobby].
  - split; [done|]. split; [apply lookup_delete_eq|].
    split; [by intros q Hq; apply lookup_delete_ne|]. split; [|done].
    intros l0 [= <-]. eexists. split; [reflexivity|]. split; [done|].
    rewrite LobbyFacts.broadcast_relayed. unfold others. rewrite filter_twice.
    split; [done|]. apply LobbyFacts.broadcast_closed.
  - split; [done|]. split; [apply lookup_delete_eq|].
    split; [by intros q Hq; apply lookup_delete_ne|]. split; [done|]. done.
Qed.

End LobbyExtras.

(** ** Further properties of the mesh coordinator *)

Module MeshExtras.
Import Mesh MeshOps.

Section Registry.
Context {N : Type} `{Number N}.
Variable createSignature : string → string → string.
Variable stringify : SyncData (N := N) → string.

Lemma getWorker_set_eq (k : string) (w : WorkerInfo N)
    (workers : list (string * WorkerInfo N)) :
  getWorker k (setWorker k w workers) = Some w.
Proof.
  unfold getWorker. induction workers as [|e workers IH]; cbn.
  { by rewrite bool_decide_eq_true_2. }
  case_bool_decide as He; cbn.
  - by rewrite bool_decide_eq_true_2.
  - by rewrite bool_decide_eq_false_2.
Qed.

Lemma getWorker_set_ne (k k' : string) (w : WorkerInfo N)
    (workers : list (string * WorkerInfo N)) :
  k' ≠ k → getWorker k' (setWorker k w workers) = getWorker k' workers.
Proof.
  intros Hne. unfold getWorker. induction workers as [|e workers IH]; cbn.
  { by rewrite bool_decide_eq_false_2. }
  case_bool_decide as He; cbn.
  - rewrite bool_decide_eq_false_2 by done.
    by rewrite bool_decide_eq_false_2 by congruence.
  - destruct (bool_decide (e.1 = k')); [done|]. exact IH.
Qed.

Lemma setWorker_set (k : string) (w1 w2 : WorkerInfo N)
    (workers : list (string * WorkerInfo N)) :
  setWorker k w2 (setWorker k w1 workers) = setWorker k w2 workers.
Proof.
  induction workers as [|e workers IH]; cbn.
  { by rewrite bool_decide_eq_true_2. }
  case_bool_decide as He; cbn.
  - by rewrite bool_decide_eq_true_2.
  - rewrite bool_decide_eq_false_2 by done. by rewrite IH.
Qed.

Lemma setWorker_keys (k : string) (w : WorkerInfo N)
    (workers : list (string * WorkerInfo N)) :
  (setWorker k w workers).*1
  = if decide (k ∈ workers.*1) then workers.*1 else workers.*1 ++ [k].
Proof.
  induction workers as [|e workers IH]; cbn.
  { rewrite decide_False; [done|apply not_elem_of_nil]. }
  case_bool_decide as He; cbn.
  - rewrite decide_True; [by rewrite He|]. rewrite He. by left.
  - rewrite IH. destruct (decide (k ∈ workers.*1)) as [Hin|Hn].
    + rewrite decide_True; [done|by right].
    + rewrite decide_False; [done|]. rewrite not_elem_of_cons. naive_solver.
Qed.

Lemma setWorker_NoDup (k : string) (w : WorkerInfo N)
    (workers : list (string * WorkerInfo N)) :
  NoDup workers.*1 → NoDup (setWorker k w workers).*1.
Proof.
  intros Hnd. rewrite setWorker_keys. case_decide; [done|].
  apply NoDup_app. split; [done|]. split; [|apply NoDup_singleton].
  intros x Hx Hx'. apply list_elem_of_singleton in Hx'. by subst.
Qed.

Lemma getWorker_Some (k : string) (workers : list (string * WorkerInfo N))
    (w : WorkerInfo N) :
  getWorker k workers = Some w → (k, w) ∈ workers.
Proof.
  unfold getWorker. destruct (List.find _ workers) as [[k' w']|] eqn:Hf; [|done].
  intros [= <-]. apply List.find_some in Hf as [Hin Hk].
  apply bool_decide_eq_true in Hk. cbn in Hk. subst. by apply list_elem_of_In.
Qed.

Lemma getWorker_cleanup (localWorkerId : string) (now : Z) (k : string)
    (workers : list (string * WorkerInfo N)) (w : WorkerInfo N) :
  getWorker k workers = Some w →
  ¬ (WORKER_TIMEOUT < now - w_lastSeen w ∧ k ≠ localWorkerId) →
  getWorker k (cleanupStaleWorkers localWorkerId now workers) = Some w.
Proof.
  unfold getWorker, cleanupStaleWorkers.
  induction workers as [|e workers IH]; [done|]. cbn [List.find].
  case_bool_decide as He.
  - intros [= <-] Hkeep. rewrite filter_cons_True by (by rewrite He).
    cbn [List.find]. by rewrite bool_decide_eq_true_2.
  - intros Hfind Hkeep. rewrite filter_cons. case_decide; [|by apply IH].
    cbn [List.find]. rewrite bool_decide_eq_false_2 by done. by apply IH.
Qed.

(** X24. [handleRegister] refuses a record with an empty id, region or
    endpoint with status 400 and changes nothing. Otherwise it stores the
    record under its id with [lastSeen = now] (replacing an older record
    of that id in place), leaves every other record alone, keeps the ids
    distinct, lists the whole registry in the answer, and posts one
    signed [worker-info] message to the endpoint of every registered
    worker other than the local one. *)
Theorem handleRegister_effect (localWorkerId : string) (now : Z)
    (workers : list (string * WorkerInfo N)) (info : WorkerInfo N) :
  let r := handleRegister createSignature stringify localWorkerId now workers info in
  (w_id info = "" ∨ w_region info = "" ∨ w_endpoint info = "" →
     g_status r = BadRequest400 ∧ g_workers r = workers ∧ g_posts r = [] ∧
     g_listed r = []) ∧
  (w_id info ≠ "" → w_region info ≠ "" → w_endpoint info ≠ "" →
     g_status r = Ok200 ∧
     getWorker (w_id info) (g_workers r) = Some (with_lastSeen now info) ∧
     (∀ k, k ≠ w_id info → getWorker k (g_workers r) = getWorker k workers) ∧
     (NoDup workers.*1 → NoDup (g_workers r).*1) ∧
     g_listed r = (g_workers r).*2 ∧
     (g_posts r).*1
     = (λ e, w_endpoint e.2 +:+ "/mesh/trystero-sync")
         <$> filter (λ e, e.1 ≠ localWorkerId) (g_workers r) ∧
     (∀ post, post ∈ g_posts r →
        s_fromWorkerId post.2 = localWorkerId ∧
        s_data post.2 = worker_info (with_lastSeen now info) ∧
        s_signature post.2
        = createSignature (stringify (worker_info (with_lastSeen now info)))
            localWorkerId)).
Proof.
  intros r. subst r. unfold handleRegister. split.
  - intros Hbad.
    assert (bool_decide (w_id info = "") || bool_decide (w_region info = "")
            || bool_decide (w_endpoint info = "") = true) as ->; [|done].
    destruct Hbad as [Hb|[Hb|Hb]]; rewrite Hb; cbn;
      rewrite ?orb_true_r; done.
  - intros H1 H2 H3.
    rewrite !bool_decide_eq_false_2 by done. cbn [orb].
    cbn [g_status g_workers g_listed g_posts w_id with_lastSeen].
    split; [done|]. split; [apply getWorker_set_eq|].
    split; [by intros k Hk; apply getWorker_set_ne|].
    split; [apply setWorker_NoDup|]. split; [done|].
    unfold broadcastToMesh. split.
    + by rewrite <- list_fmap_compose.
    + intros post (e & -> & _)%list_elem_of_fmap. done.
Qed.

(** X25. A heartbeat from an unregistered worker is answered 404 and
    changes nothing. A heartbeat from a registered worker stamps its
    record with the time of the call and the reported load, and that
    record survives the cleanup that follows as long as the cleanup runs
    within 90 s of the stamp. *)
Theorem handleHeartbeat_effect (localWorkerId : string) (now1 now2 : Z)
    (workers : list (string * WorkerInfo N)) (workerId : string)
    (load : WorkerLoad N) :
  let out :=
    handleHeartbeat createSignature stringify localWorkerId now1 now2 workers
      workerId load in
  (getWorker workerId workers = None → out = (workers, NotFound404, [])) ∧
  (∀ worker, getWorker workerId workers = Some worker → now2 - now1 ≤ 90000 →
     out.1.2 = Ok200 ∧
     getWorker workerId out.1.1 = Some (with_load load (with_lastSeen now1 worker)) ∧
     (NoDup workers.*1 → NoDup out.1.1.*1)).
Proof.
  intros out. subst out. unfold handleHeartbeat. split.
  - by intros ->.
  - intros worker -> Hsoon. cbn [fst snd]. split; [done|]. split.
    + apply getWorker_cleanup; [apply getWorker_set_eq|].
      cbn. unfold WORKER_TIMEOUT. lia.
    + intros Hnd. eapply sublist_NoDup; [by apply setWorker_NoDup|].
      apply fmap_sublist. unfold cleanupStaleWorkers. apply sublist_filter.
Qed.

(** X26. A sync message whose signature is not the expected one is
    answered 401 and changes nothing; [transfer], [balance] and unknown
    kinds never change the registry. Replaying a message is harmless:
    handling the same message a second time gives the registry that
    handling it once, at the later time, gives. *)
Theorem handleTrysteroSync_replay (now1 now2 : Z)
    (workers : list (string * WorkerInfo N)) (m : SyncMessage) :
  let once := handleTrysteroSync createSignature stringify in
  (s_signature m ≠ createSignature (stringify (s_data m)) (s_fromWorkerId m) →
     once now1 workers m = (workers, Unauthorized401)) ∧
  ((∀ info, s_data m ≠ worker_info info) → (∀ load, s_data m ≠ load_update load) →
   (once now1 workers m).1 = workers) ∧
  once now2 (once now1 workers m).1 m = once now2 workers m.
Proof.
  intros once. subst once. unfold handleTrysteroSync. split; [|split].
  - intros Hsig. by rewrite bool_decide_eq_true_2.
  - intros Hi Hl. case_bool_decide; [done|].
    destruct (s_data m) as [i|l| | |]; try done.
    + by destruct (Hi i).
    + by destruct (Hl l).
  - case_bool_decide; [done|].
    destruct (s_data m) as [info|load| | |]; cbn [fst]; try done.
    + unfold handleWorkerInfoSync. by rewrite setWorker_set.
    + unfold handleLoadUpdateSync.
      destruct (getWorker (s_fromWorkerId m) workers) as [w|] eqn:Hw.
      * rewrite getWorker_set_eq, setWorker_set. done.
      * by rewrite Hw.
Qed.

(** X27. The stale-worker cleanup only removes entries (the order and
    the distinctness of the ids are kept), and a later cleanup subsumes an
    earlier one: cleaning at [now1] and then at [now2 >= now1] leaves
    what cleaning once at [now2] leaves. *)
Theorem cleanupStaleWorkers_composes (localWorkerId : string) (now1 now2 : Z)
    (workers : list (string * WorkerInfo N)) :
  now1 ≤ now2 →
  cleanupStaleWorkers localWorkerId now1 workers `sublist_of` workers ∧
  (NoDup workers.*1 → NoDup (cleanupStaleWorkers localWorkerId now1 workers).*1) ∧
  cleanupStaleWorkers localWorkerId now2 (cleanupStaleWorkers localWorkerId now1 workers)
  = cleanupStaleWorkers localWorkerId now2 workers.
Proof using Type.
  clear createSignature stringify.
  intros Hle. unfold cleanupStaleWorkers. split; [apply sublist_filter|]. split.
  - intros Hnd. eapply sublist_NoDup; [exact Hnd|].
    apply fmap_sublist, sublist_filter.
  - rewrite list_filter_filter. apply list_filter_iff. intros [k w]. cbn.
    unfold WORKER_TIMEOUT. split; [tauto|]. intros Hk. split; [done|].
    intros [Hs Hne]. apply Hk. split; [lia|done].
Qed.

End Registry.

Lemma cleanupStaleWorkers_composes_witness :
  cleanupStaleWorkers "w1" 250000 (cleanupStaleWorkers "w1" 200000 Samples.registry)
  = cleanupStaleWorkers "w1" 250000 Samples.registry.
Proof.
  apply (cleanupStaleWorkers_composes "w1" 200000 250000 Samples.registry). lia.
Defined.

Lemma handleHeartbeat_effect_witness :
  getWorker "w2"
    (handleHeartbeat (λ payload wid, payload +:+ wid) (λ _, "load") "w1" 200000 200001
       Samples.registry "w2"
       {| activePlayers := 12%float; activeLobbies := 3%float;
          cpuUsage := 7%float; memoryUsage := 9%float |}).1.1
  = Some (with_load {| activePlayers := 12%float; activeLobbies := 3%float;
                       cpuUsage := 7%float; memoryUsage := 9%float |}
            (with_lastSeen 200000
               (Samples.meshWorker "w2" "us-east" 50000 0%float 0%float))).
Proof.
  destruct (handleHeartbeat_effect (λ payload wid, payload +:+ wid) (λ _, "load")
              "w1" 200000 200001 Samples.registry "w2"
              {| activePlayers := 12%float; activeLobbies := 3%float;
                 cpuUsage := 7%float; memoryUsage := 9%float |}) as [_ Hknown].
  apply Hknown; [reflexivity|lia].
Defined.

(** A new worker "w4" registers with the local node "w1": it is stored
    with the time of the call, last in the registry, and "w2", "w3" and
    "w4" itself are each posted the record. *)
Lemma handleRegister_effect_witness :
  let info := Samples.meshWorker "w4" "asia-east" 0 0%float 0%float in
  let r := handleRegister (λ payload wid, payload +:+ wid) (λ _, "info") "w1" 200000
             Samples.registry info in
  g_status r = Ok200 ∧
  getWorker "w4" (g_workers r) = Some (with_lastSeen 200000 info) ∧
  getWorker "w2" (g_workers r) = getWorker "w2" Samples.registry ∧
  (g_posts r).*1 = ["https://w2.workers.dev/mesh/trystero-sync";
                    "https://w3.workers.dev/mesh/trystero-sync";
                    "https://w4.workers.dev/mesh/trystero-sync"].
Proof.
  destruct (handleRegister_effect (λ payload wid, payload +:+ wid) (λ _, "info") "w1"
              200000 Samples.registry
              (Samples.meshWorker "w4" "asia-east" 0 0%float 0%float)) as [_ Hstored].
  destruct Hstored as (Hstatus & Hget & Hothers & _ & _ & Hposts & _);
    [discriminate|discriminate|discriminate|].
  cbv zeta. split; [exact Hstatus|]. split; [exact Hget|].
  split; [by apply Hothers|].
  rewrite Hposts. by vm_compute.
Defined.

End MeshExtras.
